(** * Genome similarity and population diversity (genome-compare.cpp)

    A shallow embedding of [genesMatch], [jaro_winkler_distance],
    [hammingDistanceBits], [hammingDistanceBytes], [genomeSimilarity] and
    [geneticDiversity], followed by the properties established about them.
    The reports of analysis.cpp that depend on nothing but their arguments,
    the population and the enumerations are embedded as well: the four
    name functions, [printSensorsActions], [Indiv::printGenome],
    [Indiv::printIGraphEdgeList], [averageGenomeLength],
    [displaySensorActionReferenceCounts] and [displaySampleGenomes]; what
    they write to [std::cout] is a string.

    Conventions of the embedding:
    - C [int] and [unsigned] values are integers of [Z]; the conversions
      and the unsigned arithmetic of the source carry their 32-bit
      wrap-around ([wrap_int], [wrap_unsigned]);
    - [float] and [double] values are exact rationals extended with the
      IEEE special values that a division by zero produces; rounding and
      the sign of zero are not modelled;
    - a failed [assert] is a [Failed] result;
    - the process-wide parameters [p], the population [peeps] and the random
      source are explicit arguments. *)

From Stdlib Require Import ZArith QArith Qminmax List Permutation Bool Lia Lqa.
From Stdlib Require Qcanon.
From Stdlib Require String Ascii DecimalString DecimalPos DecimalZ.
Import ListNotations.

Local Open Scope Z_scope.

(** ** Machine integers *)

Definition wrap_unsigned (z : Z) : Z := z mod 2 ^ 32.

Definition wrap_int (z : Z) : Z := (z + 2 ^ 31) mod 2 ^ 32 - 2 ^ 31.

(** ** Floating-point values *)

Module Float.

Inductive float : Type :=
| Fin (q : Q)   (* a finite value *)
| PInf          (* x / 0 with 0 < x *)
| NInf          (* x / 0 with x < 0 *)
| NaN.          (* 0 / 0 *)

(** Finite results are kept in lowest terms, so that equal values are
    equal terms. *)
Definition fin (q : Q) : float := Fin (Qred q).

Definition of_Z (z : Z) : float := Fin (inject_Z z).

Definition Qlt_bool (a b : Q) : bool := negb (Qle_bool b a).

Definition signed_inf (positive : bool) : float :=
  if positive then PInf else NInf.

Definition fneg (x : float) : float :=
  match x with
  | Fin a => fin (- a)
  | PInf => NInf
  | NInf => PInf
  | NaN => NaN
  end.

Definition fadd (x y : float) : float :=
  match x, y with
  | Fin a, Fin b => fin (a + b)
  | NaN, _ | _, NaN => NaN
  | PInf, NInf | NInf, PInf => NaN
  | PInf, _ | _, PInf => PInf
  | NInf, _ | _, NInf => NInf
  end.

Definition fsub (x y : float) : float := fadd x (fneg y).

Definition scale_inf (positive : bool) (a : Q) : float :=
  if Qeq_bool a 0 then NaN
  else signed_inf (Bool.eqb positive (Qlt_bool 0 a)).

Definition fmul (x y : float) : float :=
  match x, y with
  | Fin a, Fin b => fin (a * b)
  | NaN, _ | _, NaN => NaN
  | Fin a, PInf | PInf, Fin a => scale_inf true a
  | Fin a, NInf | NInf, Fin a => scale_inf false a
  | PInf, PInf | NInf, NInf => PInf
  | PInf, NInf | NInf, PInf => NInf
  end.

Definition fdiv (x y : float) : float :=
  match x, y with
  | Fin a, Fin b =>
      if Qeq_bool b 0
      then (if Qeq_bool a 0 then NaN else signed_inf (Qlt_bool 0 a))
      else fin (a / b)
  | NaN, _ | _, NaN => NaN
  | Fin _, _ => Fin 0
  | PInf, Fin b => signed_inf (Qle_bool 0 b)
  | NInf, Fin b => signed_inf (negb (Qle_bool 0 b))
  | _, _ => NaN
  end.

(** [x < y]; every comparison with [NaN] is false. *)
Definition flt (x y : float) : bool :=
  match x, y with
  | NaN, _ | _, NaN => false
  | Fin a, Fin b => Qlt_bool a b
  | NInf, NInf => false
  | NInf, _ => true
  | PInf, _ => false
  | Fin _, PInf => true
  | Fin _, NInf => false
  end.

(** [std::min(a, b)] is [(b < a) ? b : a] and [std::max(a, b)] is
    [(a < b) ? b : a]. *)
Definition fmin (a b : float) : float := if flt b a then b else a.
Definition fmax (a b : float) : float := if flt a b then b else a.

(** A value of the closed unit interval. *)
Definition in_unit (x : float) : Prop :=
  match x with
  | Fin q => (0 <= q /\ q <= 1)%Q
  | _ => False
  end.

End Float.
Import Float.

(** ** Results of code that can hit an [assert] *)

Inductive failure : Type :=
| LengthMismatch         (* assert(genome1.size() == genome2.size()) *)
| InvalidConfiguration.  (* assert(false) in the default case *)

Inductive result (A : Type) : Type :=
| Ok (a : A)
| Failed (e : failure).
Arguments Ok {A} a.
Arguments Failed {A} e.

Definition bind {A B} (r : result A) (k : A -> result B) : result B :=
  match r with
  | Ok a => k a
  | Failed e => Failed e
  end.

(** ** Genes and genomes *)

Record Gene : Type := mkGene {
  sourceType : Z;
  sourceNum : Z;
  sinkType : Z;
  sinkNum : Z;
  weight : Z
}.

Definition Genome : Type := list Gene.

Definition size {A} (v : list A) : Z := Z.of_nat (length v).

Definition noGene : Gene := mkGene 0 0 0 0 0.

(** [g[i]] *)
Definition gene_at (g : Genome) (i : Z) : Gene := nth (Z.to_nat i) g noGene.

Definition genesMatch (g1 g2 : Gene) : bool :=
  (sinkNum g1 =? sinkNum g2)
  && (sourceNum g1 =? sourceNum g2)
  && (sinkType g1 =? sinkType g2)
  && (sourceType g1 =? sourceType g2)
  && (weight g1 =? weight g2).

(** ** Loops *)

(** [for (i = i0; <n more iterations>; i++) st = body(i, st);] *)
Fixpoint for_loop {St : Type} (n : nat) (i : Z) (body : Z -> St -> St)
    (st : St) : St :=
  match n with
  | O => st
  | S n' => for_loop n' (i + 1) body (body i st)
  end.

(** [std::vector<int>] flags *)
Definition flag_at (flags : list Z) (j : Z) : Z := nth (Z.to_nat j) flags 0.

Fixpoint update (k : nat) (v : Z) (flags : list Z) : list Z :=
  match flags, k with
  | [], _ => []
  | _ :: rest, O => v :: rest
  | x :: rest, S k' => x :: update k' v rest
  end.

Definition set_flag (flags : list Z) (j : Z) : list Z :=
  update (Z.to_nat j) 1 flags.

(** ** jaro_winkler_distance *)

Definition maxNumGenesToCompare : Z := 20.
Definition maxPrefixLength : Z := 4.
Definition winklerScaling : float := Fin (1 # 10).

(** The inner loop of the matching pass: from [j], at most [n] positions,
    stop at the first unclaimed position of [s] whose gene matches [ai]. *)
Fixpoint scan (n : nat) (j : Z) (ai : Gene) (s : Genome) (sflags : list Z)
    : option Z :=
  match n with
  | O => None
  | S n' =>
      if genesMatch ai (gene_at s j) && (flag_at sflags j =? 0)
      then Some j
      else scan n' (j + 1) ai s sflags
  end.

(** One iteration of the matching pass; the state is
    [(sflags, aflags, m)]. *)
Definition match_step (range sl : Z) (a s : Genome) (i : Z)
    (st : list Z * list Z * Z) : list Z * list Z * Z :=
  let '(sflags, aflags, m) := st in
  let j0 := Z.max (i - range) 0 in
  let l := Z.min (i + range + 1) sl in
  match scan (Z.to_nat (l - j0)) j0 (gene_at a i) s sflags with
  | Some j => (set_flag sflags j, set_flag aflags i, m + 1)
  | None => st
  end.

(** The inner loop of the transposition pass: the value of [j] when the
    loop is left, that is the first claimed position from [j] on, or the
    bound when there is none. *)
Fixpoint next_flag (n : nat) (j : Z) (sflags : list Z) : Z :=
  match n with
  | O => j
  | S n' => if flag_at sflags j =? 1 then j else next_flag n' (j + 1) sflags
  end.

(** One iteration of the transposition pass; the state is [(l, t)]. *)
Definition trans_step (sl : Z) (a s : Genome) (aflags sflags : list Z)
    (i : Z) (st : Z * Z) : Z * Z :=
  let '(l, t) := st in
  if flag_at aflags i =? 1 then
    let j := next_flag (Z.to_nat (sl - l)) l sflags in
    let l' := if j <? sl then j + 1 else l in
    if (j <? sl) && negb (genesMatch (gene_at a i) (gene_at s j))
    then (l', t + 1)
    else (l', t)
  else (l, t).

(** The prefix loop, which stops at the first mismatch. *)
Fixpoint prefix_loop (n : nat) (i : Z) (s a : Genome) (matchingPrefix : Z)
    : Z :=
  match n with
  | O => matchingPrefix
  | S n' =>
      if genesMatch (gene_at s i) (gene_at a i)
      then prefix_loop n' (i + 1) s a (matchingPrefix + 1)
      else matchingPrefix
  end.

Definition jaro_winkler_distance (genome1 genome2 : Genome) : float :=
  let s := genome1 in
  let a := genome2 in
  let sl := Z.min maxNumGenesToCompare (wrap_int (size s)) in
  let al := Z.min maxNumGenesToCompare (wrap_int (size a)) in
  let sflags := repeat 0 (Z.to_nat sl) in
  let aflags := repeat 0 (Z.to_nat al) in
  let range := Z.max 0 (Z.quot (Z.max sl al) 2 - 1) in
  if (sl =? 0) || (al =? 0) then Fin 0
  else
    let '(sflags, aflags, m) :=
      for_loop (Z.to_nat al) 0 (match_step range sl a s) (sflags, aflags, 0) in
    if m =? 0 then Fin 0
    else
      let '(_, t) :=
        for_loop (Z.to_nat al) 0 (trans_step sl a s aflags sflags) (0, 0) in
      let t := Z.quot t 2 in
      let dw :=
        fdiv (fadd (fadd (fdiv (of_Z m) (of_Z sl)) (fdiv (of_Z m) (of_Z al)))
                   (fdiv (of_Z (m - t)) (of_Z m)))
             (Fin 3) in
      let prefixLength := Z.min maxPrefixLength (Z.min sl al) in
      let matchingPrefix := prefix_loop (Z.to_nat prefixLength) 0 s a 0 in
      let winklerBonus :=
        fmul (fmul winklerScaling (of_Z matchingPrefix)) (fsub (Fin 1) dw) in
      fmin (Fin 1) (fadd dw winklerBonus).

(** ** The exact metrics *)

(** [__builtin_popcount] *)
Fixpoint popcount_pos (p : positive) : Z :=
  match p with
  | xH => 1
  | xO q => popcount_pos q
  | xI q => 1 + popcount_pos q
  end.

Definition popcount (w : Z) : Z :=
  match w with
  | Zpos p => popcount_pos p
  | _ => 0
  end.

(** [sizeof(Gene)]: both metrics step one [unsigned int] per gene, and
    [Indiv::printGenome] asserts [sizeof(Gene) == 4]. *)
Definition bytesPerElement : Z := 4.

(** The local constants [lengthBytes] and [lengthBits] of the two metrics,
    computed from [numElements] and [bytesPerElement]. *)
Definition lengthBytes (genome1 : Genome) : Z :=
  let numElements := wrap_unsigned (size genome1) in
  wrap_unsigned (numElements * bytesPerElement).

Definition lengthBits (genome1 : Genome) : Z :=
  wrap_unsigned (lengthBytes genome1 * 8).

(** The process-wide parameters read by this unit. *)
Record Params : Type := mkParams {
  population : Z;
  genomeComparisonMethod : Z
}.

Record Indiv : Type := mkIndiv {
  genome : Genome
}.

Section Similarity.

(** The 32-bit word found at a gene through the [unsigned int *] cast. The
    declaration of [Gene], and with it the layout of its bit-fields, is not
    part of this unit: the word is a parameter, and the properties that
    need it assume [0 <= geneWord g < 2 ^ 32]. *)
Variable geneWord : Gene -> Z.

(** [p1[index]] *)
Definition word_at (g : Genome) (index : Z) : Z := geneWord (gene_at g index).

Definition hammingDistanceBits (genome1 genome2 : Genome) : result float :=
  if negb (size genome1 =? size genome2) then Failed LengthMismatch
  else
    let bitCount :=
      for_loop (length genome1) 0
        (fun index bitCount =>
           wrap_unsigned
             (bitCount
              + popcount (Z.lxor (word_at genome1 index)
                                 (word_at genome2 index))))
        0 in
    Ok (fsub (Fin 1)
          (fmin (Fin 1)
             (fdiv (fmul (Fin 2) (of_Z bitCount))
                   (of_Z (lengthBits genome1))))).

Definition hammingDistanceBytes (genome1 genome2 : Genome) : result float :=
  if negb (size genome1 =? size genome2) then Failed LengthMismatch
  else
    let byteCount :=
      for_loop (length genome1) 0
        (fun index byteCount =>
           wrap_unsigned
             (byteCount
              + (if word_at genome1 index =? word_at genome2 index
                 then 1 else 0)))
        0 in
    Ok (fdiv (of_Z byteCount) (of_Z (lengthBytes genome1))).

(** ** genomeSimilarity *)

Definition genomeSimilarity (p : Params) (g1 g2 : Genome) : result float :=
  if negb (size g1 =? size g2) then
    let similarity := jaro_winkler_distance g1 g2 in
    let len1 := of_Z (size g1) in
    let len2 := of_Z (size g2) in
    let lengthRatio := fdiv (fmin len1 len2) (fmax len1 len2) in
    Ok (fadd (fmul similarity (Fin (4 # 5))) (fmul lengthRatio (Fin (1 # 5))))
  else
    match genomeComparisonMethod p with
    | 0 => Ok (jaro_winkler_distance g1 g2)
    | 1 => hammingDistanceBits g1 g2
    | 2 => hammingDistanceBytes g1 g2
    | _ => Failed InvalidConfiguration
    end.

(** ** geneticDiversity *)

(** The random source and the population container are defined outside
    this unit: [randomUint lo hi] draws from the closed interval
    [[lo, hi]] and advances the generator, [peeps index] is
    [peeps[index]]. *)
Variable RNG : Type.
Variable randomUint : Z -> Z -> RNG -> Z * RNG.
Variable peeps : Z -> Indiv.

(** The [while (count > 0)] loop; the state is
    [(similaritySum, numSamples)] and the generator. *)
Fixpoint sample_loop (p : Params) (count : nat) (st : float * Z) (rng : RNG)
    : result (float * Z * RNG) :=
  match count with
  | O => Ok (st, rng)
  | S count' =>
      let '(similaritySum, numSamples) := st in
      let '(index0, rng') :=
        randomUint 1 (wrap_unsigned (population p - 1)) rng in
      let index1 := wrap_unsigned (index0 + 1) in
      bind (genomeSimilarity p (genome (peeps index0)) (genome (peeps index1)))
        (fun similarity =>
           sample_loop p count'
             (fadd similaritySum similarity, numSamples + 1) rng')
  end.

Definition geneticDiversity (p : Params) (rng : RNG) : result (float * RNG) :=
  if population p <? 2 then Ok (Fin 0, rng)
  else
    let count := Z.min 1000 (population p) in
    bind (sample_loop p (Z.to_nat count) (Fin 0, 0) rng)
      (fun '(similaritySum, numSamples, rng') =>
         Ok (fsub (Fin 1) (fdiv similaritySum (of_Z numSamples)), rng')).

End Similarity.

(** A concrete layout, used to instantiate the development: the five fields
    from the least significant bit on, with widths 1, 7, 1, 7 and 16. *)
Definition packedWord (g : Gene) : Z :=
  sourceType g mod 2
  + 2 * (sourceNum g mod 128)
  + 256 * (sinkType g mod 2)
  + 512 * (sinkNum g mod 128)
  + 65536 * (weight g mod 65536).

(** ** Auxiliary definitions used by the statements *)

(** [value x q]: [x] is the finite value [q], in lowest terms. *)
Definition value (x : float) (q : Q) : Prop := x = Fin (Qred q).

(** The genome sizes for which no conversion or 32-bit product of the
    source wraps around ([lengthBits] is [32 * size]). *)
Definition fits (g : Genome) : Prop := size g < 2 ^ 27.

(** The sum of [h x y] over the pairs of genes at equal positions. *)
Fixpoint pair_sum (h : Gene -> Gene -> Z) (g1 g2 : Genome) : Z :=
  match g1, g2 with
  | x :: r1, y :: r2 => h x y + pair_sum h r1 r2
  | _, _ => 0
  end.

Section Counts.

Variable geneWord : Gene -> Z.

(** The number of positions at which the two packed words are identical. *)
Definition identicalCount (g1 g2 : Genome) : Z :=
  pair_sum (fun x y => if geneWord x =? geneWord y then 1 else 0) g1 g2.

(** The number of bit positions at which the two buffers differ. *)
Definition differingBits (g1 g2 : Genome) : Z :=
  pair_sum (fun x y => popcount (Z.lxor (geneWord x) (geneWord y))) g1 g2.

(** The two genomes differ in every bit of every word. *)
Definition complementary (g1 g2 : Genome) : Prop :=
  Forall2 (fun x y => Z.lxor (geneWord x) (geneWord y) = 2 ^ 32 - 1) g1 g2.

(** The word-level metric in the words of the specification:
    [identicalCount / numGenes]. *)
Definition wordSimilarity_spec (g1 g2 : Genome) : float :=
  fdiv (of_Z (identicalCount g1 g2)) (of_Z (size g1)).

End Counts.

(** *** The passes of [jaro_winkler_distance] *)

(** The matching pass: the final [(sflags, aflags, m)]. *)
Definition match_pass (range sl al : Z) (a s : Genome) : list Z * list Z * Z :=
  for_loop (Z.to_nat al) 0 (match_step range sl a s)
    (repeat 0 (Z.to_nat sl), repeat 0 (Z.to_nat al), 0).

(** The transposition pass: the final [t], before it is halved. *)
Definition trans_pass (sl al : Z) (a s : Genome) (aflags sflags : list Z) : Z :=
  snd (for_loop (Z.to_nat al) 0 (trans_step sl a s aflags sflags) (0, 0)).

(** The score computed from the counts. *)
Definition score (sl al m t matchingPrefix : Z) : float :=
  let t := Z.quot t 2 in
  let dw :=
    fdiv (fadd (fadd (fdiv (of_Z m) (of_Z sl)) (fdiv (of_Z m) (of_Z al)))
               (fdiv (of_Z (m - t)) (of_Z m)))
         (Fin 3) in
  let winklerBonus :=
    fmul (fmul winklerScaling (of_Z matchingPrefix)) (fsub (Fin 1) dw) in
  fmin (Fin 1) (fadd dw winklerBonus).

(** The same score over the rationals. *)
Definition jaro (sl al m t : Z) : Q :=
  (inject_Z m / inject_Z sl + inject_Z m / inject_Z al
   + inject_Z (m - Z.quot t 2) / inject_Z m) / 3.

Definition jaro_winkler (sl al m t matchingPrefix : Z) : Q :=
  let dw := jaro sl al m t in
  Qmin 1 (dw + (1 # 10) * inject_Z matchingPrefix * (1 - dw)).

(** *** Matchings *)

(** [edge range sl al a s i j]: position [j] of [s] lies in the window of
    position [i] of [a] and holds a matching gene. *)
Definition edge (range sl al : Z) (a s : Genome) (i j : Z) : Prop :=
  0 <= i < al /\ 0 <= j < sl /\ i - range <= j <= i + range
  /\ genesMatch (gene_at a i) (gene_at s j) = true.

(** [greedy E n M]: [M] pairs positions along [E], one to one, and every
    [i] below [n] has the first partner that the earlier positions left
    free. *)
Definition greedy (E : Z -> Z -> Prop) (n : Z) (M : list (Z * Z)) : Prop :=
  (forall i j, In (i, j) M -> E i j /\ i < n)
  /\ (forall i j j', In (i, j) M -> In (i, j') M -> j = j')
  /\ (forall i i' j, In (i, j) M -> In (i', j) M -> i = i')
  /\ (forall i j', i < n -> E i j' ->
        (exists i', i' < i /\ In (i', j') M)
        \/ (exists j, j <= j' /\ In (i, j) M)).

(** [marks flags n P]: [flags] has [n] entries, and entry [k] is 1 when
    [P k] holds and 0 otherwise. *)
Definition marks (flags : list Z) (n : Z) (P : Z -> Prop) : Prop :=
  size flags = n
  /\ forall k, 0 <= k < n ->
       (flag_at flags k = 1 /\ P k) \/ (flag_at flags k = 0 /\ ~ P k).

(** The state of the matching pass describes the matching [M]. *)
Definition describes (sl al : Z) (M : list (Z * Z))
    (st : list Z * list Z * Z) : Prop :=
  let '(sflags, aflags, m) := st in
  NoDup M
  /\ m = size M
  /\ marks sflags sl (fun j => exists i, In (i, j) M)
  /\ marks aflags al (fun i => exists j, In (i, j) M).

(** The claimed positions among [i, i + n). *)
Fixpoint flagged (n : nat) (i : Z) (flags : list Z) : list Z :=
  match n with
  | O => []
  | S n' =>
      if flag_at flags i =? 1 then i :: flagged n' (i + 1) flags
      else flagged n' (i + 1) flags
  end.

(** The number of pairs of genes that do not match. *)
Fixpoint mismatches (l : list (Gene * Gene)) : Z :=
  match l with
  | [] => 0
  | (x, y) :: r => (if genesMatch x y then 0 else 1) + mismatches r
  end.

(** *** Sample inputs *)

(** The gene of the specification's scenario: sensor 0 to action 0 with
    weight 100. *)
Definition sampleGene : Gene := mkGene 1 0 1 0 100.

(** A gene whose packed word is the bitwise complement of that of
    [sampleGene]. *)
Definition complementGene : Gene := mkGene 0 127 0 127 (-101).

(** Parameters with a population of two and the given method. *)
Definition withMethod (method : Z) : Params := mkParams 2 method.

(** *** The sampling of [geneticDiversity], in the words of the
    specification *)

Section Sampling.

Variable geneWord : Gene -> Z.
Variable RNG : Type.
Variable randomUint : Z -> Z -> RNG -> Z * RNG.
Variable peeps : Z -> Indiv.

(** The indices given by [n] successive draws from [[lo, hi]], and the
    generator after them. *)
Fixpoint draws (n : nat) (lo hi : Z) (rng : RNG) : list Z * RNG :=
  match n with
  | O => ([], rng)
  | S n' =>
      let '(i, rng') := randomUint lo hi rng in
      let '(rest, rng'') := draws n' lo hi rng' in
      (i :: rest, rng'')
  end.

(** The similarity of the adjacent pair at indices [i] and [i + 1]. *)
Definition adjacentSimilarity (p : Params) (i : Z) : result float :=
  genomeSimilarity geneWord p (genome (peeps i)) (genome (peeps (i + 1))).

(** The scores added up in order, unless one of them fails. *)
Fixpoint accumulate (scores : list (result float)) (sum : float)
    : result float :=
  match scores with
  | [] => Ok sum
  | r :: rest => bind r (fun x => accumulate rest (fadd sum x))
  end.

End Sampling.

(** A random source for the instances: a stream of raw numbers, each
    reduced into the interval asked for. *)
Definition streamUint (lo hi : Z) (rng : list Z) : Z * list Z :=
  match rng with
  | [] => (lo, [])
  | x :: rest => (lo + x mod (hi - lo + 1), rest)
  end.

(** A population in which the individual at index 2 differs from the
    others. *)
Definition samplePeeps (index : Z) : Indiv :=
  if index =? 2 then mkIndiv [sampleGene; complementGene]
  else mkIndiv [sampleGene; sampleGene].

(** [matchable g1 g2]: among the genes compared, some gene of [g2] has a
    matching gene of [g1] inside its window. *)
Definition matchable (g1 g2 : Genome) : Prop :=
  let sl := Z.min maxNumGenesToCompare (size g1) in
  let al := Z.min maxNumGenesToCompare (size g2) in
  let range := Z.max 0 (Z.quot (Z.max sl al) 2 - 1) in
  exists i j, edge range sl al g2 g1 i j.

(** ** analysis.cpp *)

(** *** averageGenomeLength *)

Section Average.

Variable RNG : Type.
Variable randomUint : Z -> Z -> RNG -> Z * RNG.
Variable peeps : Z -> Indiv.

(** The width of [unsigned long], which depends on the platform. *)
Variable ulongBits : Z.

Definition wrap_ulong (z : Z) : Z := z mod 2 ^ ulongBits.

(** The [while (count-- > 0)] loop; the state is [(sum, numberSamples)]
    and the generator. *)
Fixpoint average_loop (p : Params) (count : nat) (st : Z * Z) (rng : RNG)
    : Z * Z * RNG :=
  match count with
  | O => (st, rng)
  | S count' =>
      let '(sum, numberSamples) := st in
      let '(index, rng') := randomUint 1 (population p) rng in
      average_loop p count'
        (wrap_ulong (sum + size (genome (peeps index))),
         wrap_unsigned (numberSamples + 1))
        rng'
  end.

Definition averageGenomeLength (p : Params) (rng : RNG) : float * RNG :=
  let '(sum, numberSamples, rng') := average_loop p 100 (0, 0) rng in
  if numberSamples =? 0 then (Fin 0, rng')
  else (fdiv (of_Z sum) (of_Z numberSamples), rng').

End Average.

(** *** Names of sensors and actions *)

Import String.StringSyntax Ascii.AsciiSyntax.
Delimit Scope string_scope with string.
Delimit Scope char_scope with char.

Abbreviation string := String.string.

(** [std::to_string] of an [int] *)
Definition to_string (z : Z) : string :=
  DecimalString.NilZero.string_of_int (Z.to_int z).

(** The enumerators named in the switches. *)
Inductive Sensor : Type :=
| AGE | BOUNDARY_DIST | BOUNDARY_DIST_X | BOUNDARY_DIST_Y
| LAST_MOVE_DIR_X | LAST_MOVE_DIR_Y | LOC_X | LOC_Y
| LONGPROBE_POP_FWD | LONGPROBE_BAR_FWD | BARRIER_FWD | BARRIER_LR
| OSC1 | POPULATION | POPULATION_FWD | POPULATION_LR | RANDOM
| SIGNAL0 | SIGNAL0_FWD | SIGNAL0_LR | GENETIC_SIM_FWD.

Inductive Action : Type :=
| MOVE_EAST | MOVE_WEST | MOVE_NORTH | MOVE_SOUTH | MOVE_FORWARD
| MOVE_X | MOVE_Y | SET_RESPONSIVENESS | SET_OSCILLATOR_PERIOD
| EMIT_SIGNAL0 | KILL_FORWARD | MOVE_REVERSE | MOVE_LEFT | MOVE_RIGHT
| MOVE_RL | MOVE_RANDOM | SET_LONGPROBE_DIST.

(** [switch (x) { case value e: return name; ... default: return d; }] *)
Definition switch {E : Type} (value : E -> Z) (x : Z)
    (cases : list (E * string)) (default : string) : string :=
  match find (fun c => value (fst c) =? x) cases with
  | Some c => snd c
  | None => default
  end.

Section Names.

Local Open Scope string_scope.

(** The enumerations are declared outside analysis.cpp: the values of
    their enumerators, the bounds [NUM_SENSES] and [NUM_ACTIONS] and the
    type tags [SENSOR] and [ACTION] are parameters. *)
Variable sensorValue : Sensor -> Z.
Variable NUM_SENSES : Z.
Variable actionValue : Action -> Z.
Variable NUM_ACTIONS : Z.
Variable SENSOR : Z.
Variable ACTION : Z.

Definition sensorName (sensor : Z) : string :=
  if NUM_SENSES <=? sensor then
    String.append "unknown sensor " (to_string (wrap_int sensor))
  else
    switch sensorValue sensor
      [(AGE, "age"); (BOUNDARY_DIST, "boundary dist");
       (BOUNDARY_DIST_X, "boundary dist X");
       (BOUNDARY_DIST_Y, "boundary dist Y");
       (LAST_MOVE_DIR_X, "last move dir X");
       (LAST_MOVE_DIR_Y, "last move dir Y");
       (LOC_X, "loc X"); (LOC_Y, "loc Y");
       (LONGPROBE_POP_FWD, "long probe population fwd");
       (LONGPROBE_BAR_FWD, "long probe barrier fwd");
       (BARRIER_FWD, "short probe barrier fwd-rev");
       (BARRIER_LR, "short probe barrier left-right");
       (OSC1, "osc1"); (POPULATION, "population");
       (POPULATION_FWD, "population fwd"); (POPULATION_LR, "population LR");
       (RANDOM, "random"); (SIGNAL0, "signal 0");
       (SIGNAL0_FWD, "signal 0 fwd"); (SIGNAL0_LR, "signal 0 LR");
       (GENETIC_SIM_FWD, "genetic similarity fwd")]
      (String.append "unknown sensor " (to_string (wrap_int sensor))).

Definition actionName (action : Z) : string :=
  if NUM_ACTIONS <=? action then
    String.append "unknown action " (to_string (wrap_int action))
  else
    switch actionValue action
      [(MOVE_EAST, "move east"); (MOVE_WEST, "move west");
       (MOVE_NORTH, "move north"); (MOVE_SOUTH, "move south");
       (MOVE_FORWARD, "move fwd"); (MOVE_X, "move X"); (MOVE_Y, "move Y");
       (SET_RESPONSIVENESS, "set inv-responsiveness");
       (SET_OSCILLATOR_PERIOD, "set osc1");
       (EMIT_SIGNAL0, "emit signal 0"); (KILL_FORWARD, "kill fwd");
       (MOVE_REVERSE, "move reverse"); (MOVE_LEFT, "move left");
       (MOVE_RIGHT, "move right"); (MOVE_RL, "move R-L");
       (MOVE_RANDOM, "move random");
       (SET_LONGPROBE_DIST, "set longprobe dist")]
      (String.append "unknown action " (to_string (wrap_int action))).

Definition sensorShortName (sensor : Z) : string :=
  if NUM_SENSES <=? sensor then
    String.append "S" (to_string (wrap_int sensor))
  else
    switch sensorValue sensor
      [(AGE, "Age"); (BOUNDARY_DIST, "ED"); (BOUNDARY_DIST_X, "EDx");
       (BOUNDARY_DIST_Y, "EDy"); (LAST_MOVE_DIR_X, "LMx");
       (LAST_MOVE_DIR_Y, "LMy"); (LOC_X, "Lx"); (LOC_Y, "Ly");
       (LONGPROBE_POP_FWD, "LPf"); (LONGPROBE_BAR_FWD, "LPb");
       (BARRIER_FWD, "Bfd"); (BARRIER_LR, "Blr"); (OSC1, "Osc");
       (POPULATION, "Pop"); (POPULATION_FWD, "Pfd");
       (POPULATION_LR, "Plr"); (RANDOM, "Rnd"); (SIGNAL0, "Sg");
       (SIGNAL0_FWD, "Sfd"); (SIGNAL0_LR, "Slr");
       (GENETIC_SIM_FWD, "Gen")]
      (String.append "S" (to_string (wrap_int sensor))).

Definition actionShortName (action : Z) : string :=
  if NUM_ACTIONS <=? action then
    String.append "A" (to_string (wrap_int action))
  else
    switch actionValue action
      [(MOVE_EAST, "MvE"); (MOVE_WEST, "MvW"); (MOVE_NORTH, "MvN");
       (MOVE_SOUTH, "MvS"); (MOVE_X, "MvX"); (MOVE_Y, "MvY");
       (MOVE_FORWARD, "Mfd"); (SET_RESPONSIVENESS, "Res");
       (SET_OSCILLATOR_PERIOD, "OSC"); (EMIT_SIGNAL0, "SG");
       (KILL_FORWARD, "Klf"); (MOVE_REVERSE, "Mrv"); (MOVE_LEFT, "MvL");
       (MOVE_RIGHT, "MvR"); (MOVE_RL, "MRL"); (MOVE_RANDOM, "Mrn");
       (SET_LONGPROBE_DIST, "LPD")]
      (String.append "A" (to_string (wrap_int action))).

(** *** Indiv::printIGraphEdgeList *)

(** [std::endl] writes a line feed. *)
Definition endl : string := String.String "010"%char String.EmptyString.

(** The text written for one connection. *)
Definition edgeLine (conn : Gene) : string :=
  String.append
    (if sourceType conn =? SENSOR then sensorShortName (sourceNum conn)
     else String.append "N" (to_string (sourceNum conn)))
    (String.append " "
       (String.append
          (if sinkType conn =? ACTION then actionShortName (sinkNum conn)
           else String.append "N" (to_string (sinkNum conn)))
          (String.append " "
             (String.append (to_string (weight conn)) endl)))).

(** The loop over the connections; the state is the text written to
    [std::cout] so far. *)
Fixpoint write_edges (connections : list Gene) (out : string) : string :=
  match connections with
  | [] => out
  | conn :: rest => write_edges rest (String.append out (edgeLine conn))
  end.

Definition printIGraphEdgeList (connections : list Gene) : string :=
  write_edges connections "".

End Names.

(** *** Indiv::printGenome *)

Definition genesPerLine : Z := 8.

(** One digit of [std::hex]. *)
Definition hexDigit (d : Z) : Ascii.ascii :=
  nth (Z.to_nat d)
    ["0"; "1"; "2"; "3"; "4"; "5"; "6"; "7"; "8"; "9"; "a"; "b"; "c"; "d";
     "e"; "f"]%char "0"%char.

(** [std::hex << std::setfill('0') << std::setw(8) << n] for a 32-bit
    [n]: eight digits, the most significant first. *)
Definition hex8 (n : Z) : string :=
  String.string_of_list_ascii
    (map (fun k => hexDigit ((n / 16 ^ k) mod 16)) [7; 6; 5; 4; 3; 2; 1; 0]).

Section PrintGenome.

Variable geneWord : Gene -> Z.

(** The loop over the genes; the state is the text written so far and
    [count]. *)
Fixpoint printGenome_loop (genome : Genome) (count : Z) (out : string)
    : string :=
  match genome with
  | [] => out
  | gene :: rest =>
      let '(out, count) :=
        if count =? genesPerLine then (String.append out endl, 0)
        else if negb (count =? 0) then (String.append out " "%string, count)
        else (out, count) in
      printGenome_loop rest (count + 1)
        (String.append out (hex8 (geneWord gene)))
  end.

Definition printGenome (genome : Genome) : string :=
  String.append (printGenome_loop genome 0 ""%string) endl.

End PrintGenome.

(** *** Auxiliary definitions on strings *)

(** The values of an [int]. *)
Definition in_int (z : Z) : Prop := - 2 ^ 31 <= z < 2 ^ 31.

Fixpoint all_chars (P : Ascii.ascii -> bool) (s : string) : bool :=
  match s with
  | String.EmptyString => true
  | String.String c r => P c && all_chars P r
  end.

Definition digit_or_minus (c : Ascii.ascii) : bool :=
  existsb (Ascii.eqb c)
    ["0"; "1"; "2"; "3"; "4"; "5"; "6"; "7"; "8"; "9"; "-"]%char.

(** Neither a space nor a line feed. *)
Definition plain_char (c : Ascii.ascii) : bool :=
  negb (Ascii.eqb c " "%char || Ascii.eqb c "010"%char).

Definition plain (s : string) : bool := all_chars plain_char s.

(** [strip prefix s]: what follows [prefix] in [s]. *)
Fixpoint strip (prefix s : string) : option string :=
  match prefix, s with
  | String.EmptyString, _ => Some s
  | String.String a p, String.String b r =>
      if Ascii.eqb a b then strip p r else None
  | String.String _ _, String.EmptyString => None
  end.

(** [s] is [prefix] followed by the start of a number. *)
Definition numbered (prefix s : string) : bool :=
  match strip prefix s with
  | Some (String.String c _) => digit_or_minus c
  | _ => false
  end.

Fixpoint distinct (l : list string) : bool :=
  match l with
  | [] => true
  | x :: r => negb (existsb (String.eqb x) r) && distinct r
  end.

(** What a line of the edge list shows of a connection. *)
Definition edgeKey (SENSOR ACTION : Z) (conn : Gene)
    : bool * Z * bool * Z * Z :=
  (sourceType conn =? SENSOR, sourceNum conn,
   sinkType conn =? ACTION, sinkNum conn, weight conn).

(** An enumeration for the instances: the enumerators numbered in the
    order of the switch of [sensorName], respectively [actionName]. *)
Definition sampleSensorValue (s : Sensor) : Z :=
  match s with
  | AGE => 0 | BOUNDARY_DIST => 1 | BOUNDARY_DIST_X => 2
  | BOUNDARY_DIST_Y => 3 | LAST_MOVE_DIR_X => 4 | LAST_MOVE_DIR_Y => 5
  | LOC_X => 6 | LOC_Y => 7 | LONGPROBE_POP_FWD => 8
  | LONGPROBE_BAR_FWD => 9 | BARRIER_FWD => 10 | BARRIER_LR => 11
  | OSC1 => 12 | POPULATION => 13 | POPULATION_FWD => 14
  | POPULATION_LR => 15 | RANDOM => 16 | SIGNAL0 => 17
  | SIGNAL0_FWD => 18 | SIGNAL0_LR => 19 | GENETIC_SIM_FWD => 20
  end.

Definition sampleActionValue (a : Action) : Z :=
  match a with
  | MOVE_EAST => 0 | MOVE_WEST => 1 | MOVE_NORTH => 2 | MOVE_SOUTH => 3
  | MOVE_FORWARD => 4 | MOVE_X => 5 | MOVE_Y => 6
  | SET_RESPONSIVENESS => 7 | SET_OSCILLATOR_PERIOD => 8
  | EMIT_SIGNAL0 => 9 | KILL_FORWARD => 10 | MOVE_REVERSE => 11
  | MOVE_LEFT => 12 | MOVE_RIGHT => 13 | MOVE_RL => 14
  | MOVE_RANDOM => 15 | SET_LONGPROBE_DIST => 16
  end.

(** The separator written before a gene when the counter is [count], and
    the counter after the gene. *)
Definition separator (count : Z) : string :=
  if count =? genesPerLine then endl
  else if negb (count =? 0) then " "%string
  else ""%string.

Definition nextCount (count : Z) : Z :=
  (if count =? genesPerLine then 0 else count) + 1.

(** The value of a hexadecimal digit. *)
Definition hexValue (c : Ascii.ascii) : Z :=
  match find (fun d => Ascii.eqb (hexDigit d) c)
          [0; 1; 2; 3; 4; 5; 6; 7; 8; 9; 10; 11; 12; 13; 14; 15] with
  | Some d => d
  | None => 0
  end.

(** *** printSensorsActions *)

Section Listing.

Local Open Scope string_scope.

Variable sensorValue : Sensor -> Z.
Variable NUM_SENSES : Z.
Variable actionValue : Action -> Z.
Variable NUM_ACTIONS : Z.

(** [for (i = 0; i < bound; ++i) std::cout << "  " << name(i) << std::endl;]
    with [i] an [unsigned], to which the enumerator [bound] is converted. *)
Definition write_names (name : Z -> string) (bound : Z) (out : string)
    : string :=
  for_loop (Z.to_nat (wrap_unsigned bound)) 0
    (fun i out =>
       String.append out (String.append "  " (String.append (name i) endl)))
    out.

Definition printSensorsActions : string :=
  let out := String.append "Sensors:" endl in
  let out := write_names (sensorName sensorValue NUM_SENSES) NUM_SENSES out in
  let out := String.append out (String.append "Actions:" endl) in
  let out :=
    write_names (actionName actionValue NUM_ACTIONS) NUM_ACTIONS out in
  String.append out endl.

End Listing.

(** *** displaySensorActionReferenceCounts *)

Section ReferenceCounts.

Local Open Scope string_scope.

Variable sensorValue : Sensor -> Z.
Variable NUM_SENSES : Z.
Variable actionValue : Action -> Z.
Variable NUM_ACTIONS : Z.
Variable SENSOR : Z.
Variable ACTION : Z.

(** [peeps[index].alive] and [peeps[index].nnet.connections]; the
    container is total, so that the handlers of the [try] blocks are not
    entered. *)
Variable alive : Z -> bool.
Variable connections : Z -> list Gene.

(** [counts[num]] and [++counts[num]] on a [std::vector<unsigned>]; the
    source increments inside the vector only. *)
Definition count_at (counts : list Z) (num : Z) : Z :=
  nth (Z.to_nat num) counts 0.

Definition increment (counts : list Z) (num : Z) : list Z :=
  update (Z.to_nat num) (wrap_unsigned (count_at counts num + 1)) counts.

(** The body of the loop over the connections of one individual; the
    state is [(sensorCounts, actionCounts)]. *)
Definition countGene (st : list Z * list Z) (gene : Gene)
    : list Z * list Z :=
  let '(sensorCounts, actionCounts) := st in
  let sensorCounts :=
    if sourceType gene =? SENSOR then
      let num := wrap_unsigned (sourceNum gene) in
      if (num <? wrap_unsigned NUM_SENSES) && (num <? size sensorCounts)
      then increment sensorCounts num
      else sensorCounts
    else sensorCounts in
  let actionCounts :=
    if sinkType gene =? ACTION then
      let num := wrap_unsigned (sinkNum gene) in
      if num <? wrap_unsigned NUM_ACTIONS then increment actionCounts num
      else actionCounts
    else actionCounts in
  (sensorCounts, actionCounts).

(** The body of the loop over the population. *)
Definition countIndiv (index : Z) (st : list Z * list Z)
    : list Z * list Z :=
  if 65535 <? index then st
  else if alive index then fold_left countGene (connections index) st
  else st.

(** [for (unsigned index = ...; index <= p.population; ++index)]: the
    loop ends when the condition fails; [None] when the fuel runs out
    first. *)
Fixpoint count_loop (fuel : nat) (population index : Z)
    (st : list Z * list Z) : option (list Z * list Z) :=
  match fuel with
  | O => None
  | S fuel' =>
      if index <=? population then
        count_loop fuel' population (wrap_unsigned (index + 1))
          (countIndiv index st)
      else Some st
  end.

(** One of the two loops that print the counts; [operator<<] writes an
    [unsigned] in decimal. *)
Definition write_counts (name : Z -> string) (bound : Z) (counts : list Z)
    (out : string) : string :=
  for_loop (Z.to_nat (Z.min (size counts) (wrap_unsigned bound))) 0
    (fun i out =>
       if 0 <? count_at counts i then
         String.append out
           (String.append "  "
              (String.append (to_string (count_at counts i))
                 (String.append " - " (String.append (name i) endl))))
       else out)
    out.

(** The text written to [std::cout]. The vectors are built with
    [NUM_SENSES] and [NUM_ACTIONS] elements, which are not negative. *)
Definition displaySensorActionReferenceCounts (fuel : nat) (p : Params)
    : option string :=
  let sensorCounts := repeat 0 (Z.to_nat NUM_SENSES) in
  let actionCounts := repeat 0 (Z.to_nat NUM_ACTIONS) in
  match count_loop fuel (population p) 1 (sensorCounts, actionCounts) with
  | None => None
  | Some (sensorCounts, actionCounts) =>
      let out := String.append "Sensors in use:" endl in
      let out :=
        write_counts (sensorName sensorValue NUM_SENSES) NUM_SENSES
          sensorCounts out in
      let out := String.append out (String.append "Actions in use:" endl) in
      Some (write_counts (actionName actionValue NUM_ACTIONS) NUM_ACTIONS
              actionCounts out)
  end.

(** The individuals counted: the living ones among the indices 1 to
    [population] that do not exceed 65535. *)
Definition counted (population : Z) : list Z :=
  filter (fun index => (index <=? 65535) && alive index)
    (map Z.of_nat (seq 1 (Z.to_nat population))).

(** The number of their connections selected by [sel], as an
    [unsigned]. *)
Definition references (sel : Gene -> bool) (population : Z) : Z :=
  wrap_unsigned
    (size (filter sel (flat_map connections (counted population)))).

Definition fromSensor (num : Z) (gene : Gene) : bool :=
  (sourceType gene =? SENSOR) && (wrap_unsigned (sourceNum gene) =? num).

Definition toAction (num : Z) (gene : Gene) : bool :=
  (sinkType gene =? ACTION) && (wrap_unsigned (sinkNum gene) =? num).

End ReferenceCounts.

(** *** displaySampleGenomes *)

Section SampleGenomes.

Local Open Scope string_scope.

Variable geneWord : Gene -> Z.
Variable sensorValue : Sensor -> Z.
Variable NUM_SENSES : Z.
Variable actionValue : Action -> Z.
Variable NUM_ACTIONS : Z.
Variable SENSOR : Z.
Variable ACTION : Z.
Variable peeps : Z -> Indiv.
Variable alive : Z -> bool.
Variable connections : Z -> list Gene.

(** The text written for the living individual at [index]. *)
Definition sampleBlock (index : Z) : string :=
  let out :=
    String.append "---------------------------"
      (String.append endl
         (String.append "Individual ID "
            (String.append (to_string index) endl))) in
  let out :=
    String.append out (printGenome geneWord (genome (peeps index))) in
  let out := String.append out endl in
  let out :=
    String.append out
      (printIGraphEdgeList sensorValue NUM_SENSES actionValue NUM_ACTIONS
         SENSOR ACTION (connections index)) in
  String.append out (String.append "---------------------------" endl).

(** [for (index = ...; count > 0 && index <= p.population; ++index)];
    [None] when the fuel runs out before the condition fails. *)
Fixpoint sample_genomes_loop (fuel : nat) (population count index : Z)
    (out : string) : option string :=
  match fuel with
  | O => None
  | S fuel' =>
      if (0 <? count) && (index <=? population) then
        if alive index then
          sample_genomes_loop fuel' population (wrap_unsigned (count - 1))
            (wrap_unsigned (index + 1))
            (String.append out (sampleBlock index))
        else
          sample_genomes_loop fuel' population count
            (wrap_unsigned (index + 1)) out
      else Some out
  end.

Definition displaySampleGenomes (fuel : nat) (count : Z) (p : Params)
    : option string :=
  match sample_genomes_loop fuel (population p) count 1 "" with
  | None => None
  | Some out =>
      match displaySensorActionReferenceCounts sensorValue NUM_SENSES
              actionValue NUM_ACTIONS SENSOR ACTION alive connections fuel p
      with
      | None => None
      | Some text => Some (String.append out text)
      end
  end.

(** The first [count] living individuals among the indices 1 to
    [population]. *)
Definition sampled (count population : Z) : list Z :=
  firstn (Z.to_nat count)
    (filter alive (map Z.of_nat (seq 1 (Z.to_nat population)))).

End SampleGenomes.

(** The texts of [block] for the indices of a list, one after the
    other. *)
Definition blocks (block : Z -> string) (indices : list Z) : string :=
  fold_right (fun index rest => String.append (block index) rest)
    String.EmptyString indices.

(** The numbers 0 to [n - 1]. *)
Definition below (n : Z) : list Z := map Z.of_nat (seq 0 (Z.to_nat n)).

(** The lines, each ended by a line feed. *)
Definition unlines (lines : list string) : string :=
  fold_right (fun line rest => String.append line (String.append endl rest))
    String.EmptyString lines.

(** No line feed inside. *)
Definition one_line (s : string) : bool :=
  all_chars (fun c => negb (Ascii.eqb c "010"%char)) s.

(** The lines that report the non-zero counts. *)
Definition countLines (name : Z -> string) (count : Z -> Z) (bound : Z)
    : list string :=
  map (fun i =>
         String.append "  "
           (String.append (to_string (count i))
              (String.append " - " (name i))))%string
    (filter (fun i => 0 <? count i) (below bound)).

(** The lines that list the names. *)
Definition nameLines (name : Z -> string) (bound : Z) : list string :=
  map (fun i => String.append "  " (name i))%string (below bound).

(** ** The divisions performed *)

(** The functions behind [genomeSimilarity] once more, returning with
    each value the divisors of the divisions performed to compute it, in
    the order of the text: one entry for each [/] and [/=] that is
    executed. The divisor of an integer division is recorded as a
    [float]. *)
Definition traced (A : Type) : Type := (A * list float)%type.

Definition divide (x y : float) : traced float := (fdiv x y, [y]).

Definition divide_int (x y : Z) : traced Z := (Z.quot x y, [of_Z y]).

Definition jaro_winkler_distance_traced (genome1 genome2 : Genome)
    : traced float :=
  let s := genome1 in
  let a := genome2 in
  let sl := Z.min maxNumGenesToCompare (wrap_int (size s)) in
  let al := Z.min maxNumGenesToCompare (wrap_int (size a)) in
  let sflags := repeat 0 (Z.to_nat sl) in
  let aflags := repeat 0 (Z.to_nat al) in
  let '(half, d0) := divide_int (Z.max sl al) 2 in
  let range := Z.max 0 (half - 1) in
  if (sl =? 0) || (al =? 0) then (Fin 0, d0)
  else
    let '(sflags, aflags, m) :=
      for_loop (Z.to_nat al) 0 (match_step range sl a s) (sflags, aflags, 0) in
    if m =? 0 then (Fin 0, d0)
    else
      let '(_, t) :=
        for_loop (Z.to_nat al) 0 (trans_step sl a s aflags sflags) (0, 0) in
      let '(t, d1) := divide_int t 2 in
      let '(q1, d2) := divide (of_Z m) (of_Z sl) in
      let '(q2, d3) := divide (of_Z m) (of_Z al) in
      let '(q3, d4) := divide (of_Z (m - t)) (of_Z m) in
      let '(dw, d5) := divide (fadd (fadd q1 q2) q3) (Fin 3) in
      let prefixLength := Z.min maxPrefixLength (Z.min sl al) in
      let matchingPrefix := prefix_loop (Z.to_nat prefixLength) 0 s a 0 in
      let winklerBonus :=
        fmul (fmul winklerScaling (of_Z matchingPrefix)) (fsub (Fin 1) dw) in
      (fmin (Fin 1) (fadd dw winklerBonus),
       d0 ++ d1 ++ d2 ++ d3 ++ d4 ++ d5).

Section TracedSimilarity.

Variable geneWord : Gene -> Z.

Definition hammingDistanceBits_traced (genome1 genome2 : Genome)
    : result (traced float) :=
  if negb (size genome1 =? size genome2) then Failed LengthMismatch
  else
    let bitCount :=
      for_loop (length genome1) 0
        (fun index bitCount =>
           wrap_unsigned
             (bitCount
              + popcount (Z.lxor (word_at geneWord genome1 index)
                                 (word_at geneWord genome2 index))))
        0 in
    let '(quotient, d0) :=
      divide (fmul (Fin 2) (of_Z bitCount)) (of_Z (lengthBits genome1)) in
    Ok (fsub (Fin 1) (fmin (Fin 1) quotient), d0).

Definition hammingDistanceBytes_traced (genome1 genome2 : Genome)
    : result (traced float) :=
  if negb (size genome1 =? size genome2) then Failed LengthMismatch
  else
    let byteCount :=
      for_loop (length genome1) 0
        (fun index byteCount =>
           wrap_unsigned
             (byteCount
              + (if word_at geneWord genome1 index
                    =? word_at geneWord genome2 index
                 then 1 else 0)))
        0 in
    Ok (divide (of_Z byteCount) (of_Z (lengthBytes genome1))).

Definition genomeSimilarity_traced (p : Params) (g1 g2 : Genome)
    : result (traced float) :=
  if negb (size g1 =? size g2) then
    let '(similarity, d0) := jaro_winkler_distance_traced g1 g2 in
    let len1 := of_Z (size g1) in
    let len2 := of_Z (size g2) in
    let '(lengthRatio, d1) := divide (fmin len1 len2) (fmax len1 len2) in
    Ok (fadd (fmul similarity (Fin (4 # 5))) (fmul lengthRatio (Fin (1 # 5))),
        d0 ++ d1)
  else
    match genomeComparisonMethod p with
    | 0 => Ok (jaro_winkler_distance_traced g1 g2)
    | 1 => hammingDistanceBits_traced g1 g2
    | 2 => hammingDistanceBytes_traced g1 g2
    | _ => Failed InvalidConfiguration
    end.

End TracedSimilarity.

(* ================================================================== *)
(** * Properties *)

(** ** Arithmetic *)

Lemma packedWord_range : forall g, 0 <= packedWord g < 2 ^ 32.
Proof.
  intros g. unfold packedWord.
  pose proof (Z.mod_pos_bound (sourceType g) 2).
  pose proof (Z.mod_pos_bound (sourceNum g) 128).
  pose proof (Z.mod_pos_bound (sinkType g) 2).
  pose proof (Z.mod_pos_bound (sinkNum g) 128).
  pose proof (Z.mod_pos_bound (weight g) 65536).
  change (2 ^ 32) with 4294967296. lia.
Qed.

Lemma wrap_unsigned_small z : 0 <= z < 2 ^ 32 -> wrap_unsigned z = z.
Proof. intros H. unfold wrap_unsigned. apply Z.mod_small. exact H. Qed.

Lemma wrap_int_small z : - 2 ^ 31 <= z < 2 ^ 31 -> wrap_int z = z.
Proof.
  intros H. unfold wrap_int. rewrite Z.mod_small; lia.
Qed.

Lemma Qred_inject_Z z : Qred (inject_Z z) = inject_Z z.
Proof. apply Qcanon.Qred_identity. simpl. apply Z.gcd_1_r. Qed.

Lemma value_fin q : value (fin q) q.
Proof. reflexivity. Qed.

Lemma value_of_Z z : value (of_Z z) (inject_Z z).
Proof. unfold value, of_Z. now rewrite Qred_inject_Z. Qed.

Lemma value_eq x q q' : (q == q')%Q -> value x q -> value x q'.
Proof.
  unfold value. intros E ->. f_equal. now apply Qred_complete.
Qed.

Lemma value_Fin q : Qred q = q -> value (Fin q) q.
Proof. unfold value. now intros ->. Qed.

Lemma value_add x y a b : value x a -> value y b -> value (fadd x y) (a + b).
Proof.
  unfold value. intros -> ->. cbv [fadd fsub fneg fmul fin]. f_equal.
  apply Qred_complete. now rewrite !Qred_correct.
Qed.

Lemma value_sub x y a b : value x a -> value y b -> value (fsub x y) (a - b).
Proof.
  unfold value. intros -> ->. cbv [fadd fsub fneg fmul fin]. f_equal.
  apply Qred_complete. now rewrite !Qred_correct.
Qed.

Lemma value_mul x y a b : value x a -> value y b -> value (fmul x y) (a * b).
Proof.
  unfold value. intros -> ->. cbv [fadd fsub fneg fmul fin]. f_equal.
  apply Qred_complete. now rewrite !Qred_correct.
Qed.

Lemma Qeq_bool_Qred_false b : ~ (b == 0)%Q -> Qeq_bool (Qred b) 0 = false.
Proof.
  intros H. destruct (Qeq_bool (Qred b) 0) eqn:E; [|reflexivity].
  apply Qeq_bool_eq in E. rewrite Qred_correct in E. contradiction.
Qed.

Lemma value_div x y a b :
  value x a -> value y b -> ~ (b == 0)%Q -> value (fdiv x y) (a / b).
Proof.
  unfold value. intros -> -> H. cbv [fdiv fin].
  rewrite Qeq_bool_Qred_false by exact H. f_equal.
  apply Qred_complete. now rewrite !Qred_correct.
Qed.

Lemma Qlt_bool_true a b : Qlt_bool a b = true <-> (a < b)%Q.
Proof.
  unfold Qlt_bool. rewrite negb_true_iff.
  split; intros H.
  - apply Qnot_le_lt. intros L. apply Qle_bool_iff in L. congruence.
  - destruct (Qle_bool b a) eqn:E; [|reflexivity].
    apply Qle_bool_iff in E. exfalso. apply (Qlt_not_le _ _ H E).
Qed.

Lemma Qlt_bool_false a b : Qlt_bool a b = false <-> (b <= a)%Q.
Proof.
  unfold Qlt_bool. rewrite negb_false_iff. apply Qle_bool_iff.
Qed.

(** [std::min] on finite values *)
Lemma value_min x y a b :
  value x a -> value y b ->
  value (fmin x y) (if Qlt_bool b a then b else a).
Proof.
  unfold value. intros -> ->. unfold fmin, flt.
  destruct (Qlt_bool (Qred b) (Qred a)) eqn:E1;
    destruct (Qlt_bool b a) eqn:E2; try reflexivity.
  - apply Qlt_bool_true in E1. apply Qlt_bool_false in E2.
    rewrite !Qred_correct in E1. exfalso. apply (Qlt_not_le _ _ E1 E2).
  - apply Qlt_bool_false in E1. apply Qlt_bool_true in E2.
    rewrite !Qred_correct in E1. exfalso. apply (Qlt_not_le _ _ E2 E1).
Qed.

Lemma value_in_unit x q : value x q -> (0 <= q <= 1)%Q -> in_unit x.
Proof.
  unfold value. intros -> H. cbv [in_unit]. now rewrite Qred_correct.
Qed.

Lemma value_one x : value x 1 -> x = Fin 1.
Proof. unfold value. now intros ->. Qed.

Lemma value_zero x : value x 0 -> x = Fin 0.
Proof. unfold value. now intros ->. Qed.

Lemma value_min_Qmin x y a b :
  value x a -> value y b -> value (fmin x y) (Qmin a b).
Proof.
  intros Hx Hy. eapply value_eq; [|exact (value_min x y a b Hx Hy)].
  destruct (Qlt_bool b a) eqn:E.
  - apply Qlt_bool_true in E. symmetry. apply Q.min_r. now apply Qlt_le_weak.
  - apply Qlt_bool_false in E. symmetry. now apply Q.min_l.
Qed.

(** ** Loops *)

Lemma for_loop_ind {St : Type} (P : Z -> St -> Prop) (body : Z -> St -> St) :
  forall n i0 st,
    P i0 st ->
    (forall i st', i0 <= i < i0 + Z.of_nat n -> P i st' ->
                   P (i + 1) (body i st')) ->
    P (i0 + Z.of_nat n) (for_loop n i0 body st).
Proof.
  induction n as [|n IH]; intros i0 st H0 Hstep.
  - simpl. now rewrite Z.add_0_r.
  - cbn [for_loop].
    replace (i0 + Z.of_nat (S n)) with ((i0 + 1) + Z.of_nat n) by lia.
    apply IH.
    + apply Hstep; [lia | exact H0].
    + intros i st' Hi. apply Hstep. lia.
Qed.

Lemma for_loop_ext {St : Type} (body body' : Z -> St -> St) :
  forall n i0 st,
    (forall i st', i0 <= i < i0 + Z.of_nat n -> body i st' = body' i st') ->
    for_loop n i0 body st = for_loop n i0 body' st.
Proof.
  induction n as [|n IH]; intros i0 st H; [reflexivity|].
  cbn [for_loop]. rewrite H by lia. apply IH.
  intros i st' Hi. apply H. lia.
Qed.

Lemma for_loop_shift {St : Type} (body : Z -> St -> St) :
  forall n i0 st,
    for_loop n (i0 + 1) body st = for_loop n i0 (fun k => body (k + 1)) st.
Proof.
  induction n as [|n IH]; intros i0 st; [reflexivity|].
  cbn [for_loop]. apply IH.
Qed.

Lemma gene_at_cons x (g : Genome) k :
  0 <= k -> gene_at (x :: g) (k + 1) = gene_at g k.
Proof.
  intros H. unfold gene_at.
  replace (Z.to_nat (k + 1)) with (S (Z.to_nat k)) by lia. reflexivity.
Qed.

(** ** The counting loops of the exact metrics *)

Lemma pair_loop (h : Gene -> Gene -> Z) :
  forall g1 g2 acc,
    length g1 = length g2 ->
    for_loop (length g1) 0
      (fun index c => c + h (gene_at g1 index) (gene_at g2 index)) acc
    = acc + pair_sum h g1 g2.
Proof.
  induction g1 as [|x r1 IH]; intros [|y r2] acc Hlen; simpl in Hlen;
    try discriminate.
  - simpl. lia.
  - cbn [length for_loop pair_sum].
    rewrite for_loop_shift.
    rewrite (for_loop_ext _
               (fun index c => c + h (gene_at r1 index) (gene_at r2 index))).
    + rewrite IH by congruence. unfold gene_at. simpl. lia.
    + intros i st' Hi. now rewrite !gene_at_cons by lia.
Qed.

Lemma pair_sum_bounds (h : Gene -> Gene -> Z) (B : Z) :
  (forall x y, 0 <= h x y <= B) ->
  forall g1 g2, 0 <= pair_sum h g1 g2 <= B * size g1.
Proof.
  intros Hh. pose proof (Hh noGene noGene) as H0.
  induction g1 as [|x r1 IH]; intros [|y r2]; unfold size in *;
    cbn [pair_sum length]; try nia.
  specialize (IH r2). specialize (Hh x y). nia.
Qed.

Lemma wrapped_loop (f : Z -> Z) (B : Z) :
  (forall k, 0 <= f k <= B) ->
  forall n i acc,
    0 <= acc -> acc + Z.of_nat n * B < 2 ^ 32 ->
    for_loop n i (fun k c => wrap_unsigned (c + f k)) acc
    = for_loop n i (fun k c => c + f k) acc.
Proof.
  intros Hf. induction n as [|n IH]; intros i acc H0 Hb; [reflexivity|].
  cbn [for_loop]. pose proof (Hf i) as Hi.
  rewrite wrap_unsigned_small by nia.
  apply IH; nia.
Qed.

Lemma popcount_pos_positive p : 0 < popcount_pos p.
Proof. induction p; cbn [popcount_pos]; lia. Qed.

Lemma popcount_pos_bound :
  forall p n, Z.pos p < 2 ^ Z.of_nat n -> popcount_pos p <= Z.of_nat n.
Proof.
  induction p as [p IH|p IH|]; intros [|n] H; cbn [popcount_pos];
    try (simpl in H; lia);
    rewrite Nat2Z.inj_succ, Z.pow_succ_r in H by lia;
    try specialize (IH n); lia.
Qed.

Lemma popcount_range w : 0 <= w < 2 ^ 32 -> 0 <= popcount w <= 32.
Proof.
  intros H. destruct w as [|p|p]; cbn [popcount]; try lia.
  pose proof (popcount_pos_positive p).
  pose proof (popcount_pos_bound p 32). simpl Z.of_nat in *. lia.
Qed.

Lemma lxor_range a b :
  0 <= a < 2 ^ 32 -> 0 <= b < 2 ^ 32 -> 0 <= Z.lxor a b < 2 ^ 32.
Proof.
  intros Ha Hb.
  assert (H0 : 0 <= Z.lxor a b) by (apply Z.lxor_nonneg; lia).
  split; [exact H0|].
  destruct (Z.eq_dec (Z.lxor a b) 0) as [->|Hn]; [reflexivity|].
  apply Z.log2_lt_pow2; [lia|].
  pose proof (Z.log2_lxor a b ltac:(lia) ltac:(lia)) as Hl.
  assert (Z.log2 a < 32).
  { destruct (Z.eq_dec a 0) as [->|]; [simpl; lia|].
    apply Z.log2_lt_pow2; lia. }
  assert (Z.log2 b < 32).
  { destruct (Z.eq_dec b 0) as [->|]; [simpl; lia|].
    apply Z.log2_lt_pow2; lia. }
  lia.
Qed.

Section ExactMetrics.

Variable geneWord : Gene -> Z.
Hypothesis geneWord_range : forall g, 0 <= geneWord g < 2 ^ 32.

Lemma size_nonneg {A} (v : list A) : 0 <= size v.
Proof. unfold size. lia. Qed.

Lemma size_eq_length {A B} (v : list A) (w : list B) :
  size v = size w -> length v = length w.
Proof. unfold size. lia. Qed.

Lemma size_pos_iff {A} (v : list A) : v <> [] <-> 0 < size v.
Proof. unfold size. destruct v; simpl; split; intros; try lia; congruence. Qed.

Lemma identicalCount_bounds g1 g2 :
  0 <= identicalCount geneWord g1 g2 <= size g1.
Proof.
  unfold identicalCount.
  assert (Hh : forall x y : Gene,
             0 <= (if geneWord x =? geneWord y then 1 else 0) <= 1)
    by (intros x y; destruct (geneWord x =? geneWord y); lia).
  pose proof (pair_sum_bounds _ 1 Hh g1 g2) as H. lia.
Qed.

Lemma differingBits_bounds g1 g2 :
  0 <= differingBits geneWord g1 g2 <= 32 * size g1.
Proof.
  unfold differingBits. apply pair_sum_bounds.
  intros x y. apply popcount_range. apply lxor_range; apply geneWord_range.
Qed.

Lemma byteCount_loop g1 g2 :
  size g1 = size g2 -> fits g1 ->
  for_loop (length g1) 0
    (fun index byteCount =>
       wrap_unsigned
         (byteCount
          + (if word_at geneWord g1 index =? word_at geneWord g2 index
             then 1 else 0)))
    0
  = identicalCount geneWord g1 g2.
Proof.
  intros Hs Hf. unfold fits, size in Hf.
  rewrite (wrapped_loop
             (fun k => if word_at geneWord g1 k =? word_at geneWord g2 k
                       then 1 else 0) 1).
  - unfold word_at, identicalCount.
    rewrite (pair_loop (fun x y => if geneWord x =? geneWord y then 1 else 0))
      by now apply size_eq_length.
    lia.
  - intros k. destruct (_ =? _); lia.
  - lia.
  - change (2 ^ 32) with 4294967296. change (2 ^ 27) with 134217728 in Hf. lia.
Qed.

Lemma bitCount_loop g1 g2 :
  size g1 = size g2 -> fits g1 ->
  for_loop (length g1) 0
    (fun index bitCount =>
       wrap_unsigned
         (bitCount
          + popcount (Z.lxor (word_at geneWord g1 index)
                             (word_at geneWord g2 index))))
    0
  = differingBits geneWord g1 g2.
Proof.
  intros Hs Hf. unfold fits, size in Hf.
  rewrite (wrapped_loop
             (fun k => popcount (Z.lxor (word_at geneWord g1 k)
                                        (word_at geneWord g2 k))) 32).
  - unfold word_at, differingBits.
    rewrite (pair_loop
               (fun x y => popcount (Z.lxor (geneWord x) (geneWord y))))
      by now apply size_eq_length.
    lia.
  - intros k. apply popcount_range. apply lxor_range; apply geneWord_range.
  - lia.
  - change (2 ^ 32) with 4294967296. change (2 ^ 27) with 134217728 in Hf. lia.
Qed.

Lemma fits_lengthBytes g : fits g -> lengthBytes g = 4 * size g.
Proof.
  unfold fits, lengthBytes, bytesPerElement. intros Hf.
  pose proof (size_nonneg g). change (2 ^ 27) with 134217728 in Hf.
  rewrite (wrap_unsigned_small (size g))
    by (change (2 ^ 32) with 4294967296; lia).
  rewrite wrap_unsigned_small by (change (2 ^ 32) with 4294967296; lia).
  lia.
Qed.

Lemma fits_lengthBits g : fits g -> lengthBits g = 32 * size g.
Proof.
  intros Hf. unfold lengthBits. rewrite fits_lengthBytes by exact Hf.
  unfold fits in Hf. pose proof (size_nonneg g).
  change (2 ^ 27) with 134217728 in Hf.
  rewrite wrap_unsigned_small by (change (2 ^ 32) with 4294967296; lia).
  lia.
Qed.

(** The two metrics, with their loops and sizes evaluated. *)
Lemma hammingDistanceBytes_eq g1 g2 :
  size g1 = size g2 -> fits g1 ->
  hammingDistanceBytes geneWord g1 g2
  = Ok (fdiv (of_Z (identicalCount geneWord g1 g2)) (of_Z (4 * size g1))).
Proof.
  intros Hs Hf. unfold hammingDistanceBytes.
  rewrite Hs at 1. rewrite Z.eqb_refl. cbn [negb].
  cbv zeta. rewrite byteCount_loop by assumption.
  now rewrite fits_lengthBytes.
Qed.

Lemma hammingDistanceBits_eq g1 g2 :
  size g1 = size g2 -> fits g1 ->
  hammingDistanceBits geneWord g1 g2
  = Ok (fsub (Fin 1)
          (fmin (Fin 1)
             (fdiv (fmul (Fin 2) (of_Z (differingBits geneWord g1 g2)))
                   (of_Z (32 * size g1))))).
Proof.
  intros Hs Hf. unfold hammingDistanceBits.
  rewrite Hs at 1. rewrite Z.eqb_refl. cbn [negb].
  cbv zeta. rewrite bitCount_loop by assumption.
  now rewrite fits_lengthBits.
Qed.

Lemma inject_Z_nonzero z : z <> 0 -> ~ (inject_Z z == 0)%Q.
Proof. intros H E. apply H. unfold Qeq in E. simpl in E. lia. Qed.

Lemma hammingDistanceBytes_value g1 g2 :
  size g1 = size g2 -> fits g1 -> g1 <> [] ->
  exists x,
    hammingDistanceBytes geneWord g1 g2 = Ok x
    /\ value x (inject_Z (identicalCount geneWord g1 g2)
                / inject_Z (4 * size g1)).
Proof.
  intros Hs Hf Hne. rewrite hammingDistanceBytes_eq by assumption.
  eexists. split; [reflexivity|].
  apply value_div; try apply value_of_Z.
  apply inject_Z_nonzero. apply size_pos_iff in Hne. lia.
Qed.

Lemma hammingDistanceBits_value g1 g2 :
  size g1 = size g2 -> fits g1 -> g1 <> [] ->
  exists x,
    hammingDistanceBits geneWord g1 g2 = Ok x
    /\ value x (1 - Qmin 1 (2 * inject_Z (differingBits geneWord g1 g2)
                            / inject_Z (32 * size g1))).
Proof.
  intros Hs Hf Hne. rewrite hammingDistanceBits_eq by assumption.
  eexists. split; [reflexivity|].
  apply value_sub; [now apply value_Fin|].
  apply value_min_Qmin; [now apply value_Fin|].
  apply value_div.
  - apply value_mul; [now apply value_Fin | apply value_of_Z].
  - apply value_of_Z.
  - apply inject_Z_nonzero. apply size_pos_iff in Hne. lia.
Qed.

End ExactMetrics.

(** ** The flags *)

Lemma update_length k v flags : length (update k v flags) = length flags.
Proof.
  revert k. induction flags as [|x r IH]; intros [|k]; simpl; auto.
Qed.

Lemma nth_update k v flags j :
  (k < length flags)%nat ->
  nth j (update k v flags) 0 = if Nat.eqb j k then v else nth j flags 0.
Proof.
  revert k j. induction flags as [|x r IH]; intros k j H; simpl in H; [lia|].
  destruct k as [|k], j as [|j]; simpl; auto.
  apply IH. lia.
Qed.

Lemma size_set_flag flags j : size (set_flag flags j) = size flags.
Proof. unfold size, set_flag. now rewrite update_length. Qed.

Lemma flag_at_set_flag flags j k :
  0 <= j < size flags -> 0 <= k ->
  flag_at (set_flag flags j) k = if k =? j then 1 else flag_at flags k.
Proof.
  unfold size, set_flag, flag_at. intros Hj Hk.
  rewrite nth_update by lia.
  destruct (Z.eqb_spec k j) as [->|Hne].
  - now rewrite Nat.eqb_refl.
  - destruct (Nat.eqb_spec (Z.to_nat k) (Z.to_nat j)); [lia|reflexivity].
Qed.

Lemma flag_at_repeat n k : flag_at (repeat 0 n) k = 0.
Proof.
  unfold flag_at. generalize (Z.to_nat k). clear k.
  induction n as [|n IH]; intros [|k]; simpl; auto.
Qed.

Lemma size_repeat n : 0 <= n -> size (repeat 0 (Z.to_nat n)) = n.
Proof. intros H. unfold size. rewrite repeat_length. lia. Qed.

(** ** The matching pass *)

Lemma scan_some n : forall j0 ai s sflags j,
  scan n j0 ai s sflags = Some j ->
  j0 <= j < j0 + Z.of_nat n
  /\ genesMatch ai (gene_at s j) = true
  /\ flag_at sflags j = 0
  /\ forall j', j0 <= j' < j ->
       ~ (genesMatch ai (gene_at s j') = true /\ flag_at sflags j' = 0).
Proof.
  induction n as [|n IH]; intros j0 ai s sflags j H; cbn [scan] in H;
    [discriminate|].
  destruct (genesMatch ai (gene_at s j0) && (flag_at sflags j0 =? 0)) eqn:E.
  - injection H as <-. apply andb_true_iff in E. destruct E as [E1 E2].
    apply Z.eqb_eq in E2. repeat split; try lia; auto.
  - apply IH in H. destruct H as (H1 & H2 & H3 & H4).
    repeat split; try lia; auto.
    intros j' Hj' [A B].
    destruct (Z.eq_dec j' j0) as [->|Hne].
    + rewrite A, B in E. discriminate.
    + apply (H4 j'); [lia | now split].
Qed.

Lemma scan_none n : forall j0 ai s sflags,
  scan n j0 ai s sflags = None ->
  forall j', j0 <= j' < j0 + Z.of_nat n ->
    ~ (genesMatch ai (gene_at s j') = true /\ flag_at sflags j' = 0).
Proof.
  induction n as [|n IH]; intros j0 ai s sflags H j' Hj' [A B]; [lia|].
  cbn [scan] in H.
  destruct (genesMatch ai (gene_at s j0) && (flag_at sflags j0 =? 0)) eqn:E;
    [discriminate|].
  destruct (Z.eq_dec j' j0) as [->|Hne].
  - rewrite A, B in E. discriminate.
  - apply (IH _ _ _ _ H j'); [lia | now split].
Qed.

Lemma match_step_describes range sl al a s i st M :
  0 <= range -> 0 <= i < al ->
  greedy (edge range sl al a s) i M ->
  describes sl al M st ->
  exists M',
    greedy (edge range sl al a s) (i + 1) M'
    /\ describes sl al M' (match_step range sl a s i st).
Proof.
  intros Hr Hi (G1 & G2 & G3 & G4) HD.
  destruct st as [[sf af] m]. destruct HD as (ND & Hm & [Ss Ms] & [Sa Ma]).
  unfold match_step.
  destruct (scan _ _ _ _ _) as [j|] eqn:Hscan.
  - apply scan_some in Hscan. destruct Hscan as (Hj & Hg & Hf & Hmin).
    assert (Hw : 0 <= j < sl /\ i - range <= j <= i + range) by lia.
    assert (Hfree : forall i', ~ In (i', j) M).
    { intros i' Hin. destruct (Ms j ltac:(lia)) as [[F _]|[_ F]].
      - lia.
      - apply F. now exists i'. }
    assert (Hnew : forall j', ~ In (i, j') M).
    { intros j' Hin. apply G1 in Hin. lia. }
    exists ((i, j) :: M). split.
    + split; [|split; [|split]].
      * intros i0 j0 [H|H]; [injection H as <- <-|].
        -- split; [|lia]. unfold edge. repeat split; try lia. exact Hg.
        -- apply G1 in H. split; [tauto|lia].
      * intros i0 j1 j2 [H1|H1] [H2|H2].
        -- congruence.
        -- injection H1 as <- <-. now apply Hnew in H2.
        -- injection H2 as <- <-. now apply Hnew in H1.
        -- eapply G2; eassumption.
      * intros i1 i2 j1 [H1|H1] [H2|H2].
        -- congruence.
        -- injection H1 as <- <-. now apply Hfree in H2.
        -- injection H2 as <- <-. now apply Hfree in H1.
        -- eapply G3; eassumption.
      * intros i1 j' Hi1 HE.
        destruct (Z.eq_dec i1 i) as [->|Hne].
        -- destruct (Z_le_gt_dec j j') as [Hle|Hgt].
           ++ right. exists j. split; [exact Hle | now left].
           ++ left. destruct HE as (E1 & E2 & E3 & E4).
              destruct (Ms j' ltac:(lia)) as [[_ [i' Hin]]|[F _]].
              ** exists i'. split; [|now right]. apply G1 in Hin. lia.
              ** exfalso. apply (Hmin j'); [lia | now split].
        -- destruct (G4 i1 j' ltac:(lia) HE) as [[i' [A B]]|[j1 [A B]]].
           ++ left. exists i'. split; [exact A | now right].
           ++ right. exists j1. split; [exact A | now right].
    + cbn [describes]. split; [|split; [|split; split]].
      * constructor; [|exact ND]. intros Hin. now apply Hnew in Hin.
      * unfold size in *. cbn [length]. lia.
      * now rewrite size_set_flag.
      * intros k Hk. rewrite flag_at_set_flag by lia.
        destruct (Z.eqb_spec k j) as [->|Hne].
        -- left. split; [reflexivity|]. exists i. now left.
        -- destruct (Ms k Hk) as [[F [i' Hin]]|[F N]].
           ++ left. split; [exact F|]. exists i'. now right.
           ++ right. split; [exact F|]. intros [i' [Hin|Hin]].
              ** congruence.
              ** apply N. now exists i'.
      * now rewrite size_set_flag.
      * intros k Hk. rewrite flag_at_set_flag by lia.
        destruct (Z.eqb_spec k i) as [->|Hne].
        -- left. split; [reflexivity|]. exists j. now left.
        -- destruct (Ma k Hk) as [[F [j' Hin]]|[F N]].
           ++ left. split; [exact F|]. exists j'. now right.
           ++ right. split; [exact F|]. intros [j' [Hin|Hin]].
              ** congruence.
              ** apply N. now exists j'.
  - pose proof (scan_none _ _ _ _ _ Hscan) as Hnone.
    exists M. split.
    + split; [|split; [|split]].
      * intros i0 j0 H. apply G1 in H. split; [tauto|lia].
      * exact G2.
      * exact G3.
      * intros i1 j' Hi1 HE.
        destruct (Z.eq_dec i1 i) as [->|Hne]; [|apply G4; [lia|exact HE]].
        left. destruct HE as (E1 & E2 & E3 & E4).
        destruct (Ms j' ltac:(lia)) as [[_ [i' Hin]]|[F _]].
        -- exists i'. split; [|exact Hin]. apply G1 in Hin. lia.
        -- exfalso. apply (Hnone j'); [lia | now split].
    + cbn [describes]. repeat split; assumption.
Qed.

Lemma match_pass_describes range sl al a s :
  0 <= range -> 0 <= sl -> 0 <= al ->
  exists M,
    greedy (edge range sl al a s) al M
    /\ describes sl al M (match_pass range sl al a s).
Proof.
  intros Hr Hsl Hal. unfold match_pass.
  pose (P := fun (i : Z) (st : list Z * list Z * Z) =>
               exists M, greedy (edge range sl al a s) i M
                         /\ describes sl al M st).
  assert (H : P (0 + Z.of_nat (Z.to_nat al))
                (for_loop (Z.to_nat al) 0 (match_step range sl a s)
                   (repeat 0 (Z.to_nat sl), repeat 0 (Z.to_nat al), 0))).
  { apply for_loop_ind.
    - exists []. split.
      + split; [|split; [|split]].
        * intros i j [].
        * intros i j j' [].
        * intros i i' j [].
        * intros i j' Hi (E1 & _). lia.
      + cbn [describes]. split; [|split; [|split; split]].
        * constructor.
        * reflexivity.
        * now apply size_repeat.
        * intros k Hk. right. rewrite flag_at_repeat. split; [reflexivity|].
          intros [i []].
        * now apply size_repeat.
        * intros k Hk. right. rewrite flag_at_repeat. split; [reflexivity|].
          intros [i []].
    - intros i st' Hi [M [HG HD]].
      apply (match_step_describes range sl al a s i st' M); auto. lia. }
  replace (0 + Z.of_nat (Z.to_nat al)) with al in H by lia. exact H.
Qed.

(** ** Claimed positions *)

Lemma In_flagged flags k : forall n i,
  In k (flagged n i flags) <-> i <= k < i + Z.of_nat n /\ flag_at flags k = 1.
Proof.
  induction n as [|n IH]; intros i; cbn [flagged].
  - simpl. split; [contradiction | lia].
  - destruct (Z.eqb_spec (flag_at flags i) 1) as [E|E].
    + cbn [In]. rewrite IH. split.
      * intros [<-|[H1 H2]]; split; auto; lia.
      * intros [H1 H2]. destruct (Z.eq_dec i k); [now left | right].
        split; [lia | exact H2].
    + rewrite IH. split.
      * intros [H1 H2]. split; [lia | exact H2].
      * intros [H1 H2]. split; [|exact H2].
        destruct (Z.eq_dec i k) as [->|]; [contradiction | lia].
Qed.

Lemma NoDup_flagged flags : forall n i, NoDup (flagged n i flags).
Proof.
  induction n as [|n IH]; intros i; cbn [flagged]; [constructor|].
  destruct (flag_at flags i =? 1); [|apply IH].
  constructor; [|apply IH]. rewrite In_flagged. intros [H _]. lia.
Qed.

Lemma flagged_length flags : forall n i,
  (length (flagged n i flags) <= n)%nat.
Proof.
  induction n as [|n IH]; intros i; cbn [flagged]; [simpl; lia|].
  specialize (IH (i + 1)). destruct (flag_at flags i =? 1); simpl; lia.
Qed.

Lemma NoDup_map_fst (M : list (Z * Z)) :
  NoDup M ->
  (forall i j j', In (i, j) M -> In (i, j') M -> j = j') ->
  NoDup (map fst M).
Proof.
  induction M as [|[i j] M IH]; intros ND F; cbn [map]; [constructor|].
  inversion ND as [|? ? Hnot ND']; subst.
  constructor.
  - intros Hin. apply in_map_iff in Hin. destruct Hin as [[i' j'] [E Hin]].
    simpl in E. subst i'.
    assert (j' = j) by (apply (F i); [now right | now left]).
    subst j'. contradiction.
  - apply IH; [exact ND'|]. intros i0 j0 j1 H0 H1.
    apply (F i0); now right.
Qed.

Lemma NoDup_map_snd (M : list (Z * Z)) :
  NoDup M ->
  (forall i i' j, In (i, j) M -> In (i', j) M -> i = i') ->
  NoDup (map snd M).
Proof.
  induction M as [|[i j] M IH]; intros ND F; cbn [map]; [constructor|].
  inversion ND as [|? ? Hnot ND']; subst.
  constructor.
  - intros Hin. apply in_map_iff in Hin. destruct Hin as [[i' j'] [E Hin]].
    simpl in E. subst j'.
    assert (i' = i) by (apply (F i' i j); [now right | now left]).
    subst i'. contradiction.
  - apply IH; [exact ND'|]. intros i0 i1 j0 H0 H1.
    apply (F i0 i1 j0); now right.
Qed.

(** The counter [m] is the number of claimed positions, on either side. *)
Lemma claimed_count range sl al a s M sflags aflags m :
  0 <= sl -> 0 <= al ->
  greedy (edge range sl al a s) al M ->
  describes sl al M (sflags, aflags, m) ->
  size (flagged (Z.to_nat al) 0 aflags) = m
  /\ size (flagged (Z.to_nat sl) 0 sflags) = m.
Proof.
  intros Hsl Hal (G1 & G2 & G3 & _) (ND & -> & [Ss Ms] & [Sa Ma]).
  unfold size. split; f_equal.
  - rewrite <- (length_map fst M). apply Permutation_length.
    apply NoDup_Permutation;
      [apply NoDup_flagged | now apply NoDup_map_fst |].
    intros k. rewrite In_flagged, in_map_iff. split.
    + intros [Hk F]. destruct (Ma k ltac:(lia)) as [[_ [j Hin]]|[F' _]];
        [|lia]. now exists (k, j).
    + intros [[i j] [E Hin]]. simpl in E. subst i.
      destruct (G1 _ _ Hin) as [(E1 & _) _].
      split; [lia|].
      destruct (Ma k ltac:(lia)) as [[F _]|[_ N]]; [exact F|].
      exfalso. apply N. now exists j.
  - rewrite <- (length_map snd M). apply Permutation_length.
    apply NoDup_Permutation;
      [apply NoDup_flagged | now apply NoDup_map_snd |].
    intros k. rewrite In_flagged, in_map_iff. split.
    + intros [Hk F]. destruct (Ms k ltac:(lia)) as [[_ [i Hin]]|[F' _]];
        [|lia]. now exists (i, k).
    + intros [[i j] [E Hin]]. simpl in E. subst j.
      destruct (G1 _ _ Hin) as [(_ & E2 & _) _].
      split; [lia|].
      destruct (Ms k ltac:(lia)) as [[F _]|[_ N]]; [exact F|].
      exfalso. apply N. now exists i.
Qed.

(** ** The transposition pass *)

Lemma next_flag_spec sl sflags : forall n l,
  Z.of_nat n = sl - l ->
  l <= next_flag n l sflags <= sl
  /\ flagged n l sflags
     = if next_flag n l sflags <? sl
       then next_flag n l sflags
            :: flagged (Z.to_nat (sl - (next_flag n l sflags + 1)))
                 (next_flag n l sflags + 1) sflags
       else [].
Proof.
  induction n as [|n IH]; intros l Hn; cbn [next_flag flagged].
  - split; [lia|]. destruct (Z.ltb_spec l sl); [lia | reflexivity].
  - destruct (flag_at sflags l =? 1) eqn:E.
    + split; [lia|]. destruct (Z.ltb_spec l sl); [|lia].
      do 2 f_equal. lia.
    + destruct (IH (l + 1) ltac:(lia)) as [H1 H2].
      split; [lia | exact H2].
Qed.

Lemma trans_loop_spec sl a s aflags sflags : forall n i l t,
  0 <= l <= sl ->
  snd (for_loop n i (trans_step sl a s aflags sflags) (l, t))
  = t + mismatches
          (combine (map (gene_at a) (flagged n i aflags))
                   (map (gene_at s) (flagged (Z.to_nat (sl - l)) l sflags))).
Proof.
  induction n as [|n IH]; intros i l t Hl; cbn [for_loop flagged].
  - simpl. lia.
  - unfold trans_step at 2.
    destruct (flag_at aflags i =? 1) eqn:E; [|now apply IH].
    destruct (next_flag_spec sl sflags (Z.to_nat (sl - l)) l ltac:(lia))
      as [Hj Hfl].
    rewrite Hfl.
    destruct (Z.ltb_spec (next_flag (Z.to_nat (sl - l)) l sflags) sl)
      as [Hlt|Hge].
    + cbn [andb map combine mismatches].
      destruct (genesMatch (gene_at a i) (gene_at s _)); cbn [negb];
        rewrite IH by lia; lia.
    + cbn [andb map combine mismatches].
      rewrite IH by lia. rewrite Hfl.
      destruct (Z.ltb_spec (next_flag (Z.to_nat (sl - l)) l sflags) sl);
        [lia|].
      cbn [map]. now rewrite combine_nil.
Qed.

Lemma mismatches_bounds l : 0 <= mismatches l <= size l.
Proof.
  unfold size. induction l as [|[x y] r IH]; cbn [mismatches length]; [lia|].
  destruct (genesMatch x y); lia.
Qed.

Lemma trans_pass_eq sl al a s aflags sflags :
  0 <= sl ->
  trans_pass sl al a s aflags sflags
  = mismatches
      (combine (map (gene_at a) (flagged (Z.to_nat al) 0 aflags))
               (map (gene_at s) (flagged (Z.to_nat sl) 0 sflags))).
Proof.
  intros Hsl. unfold trans_pass. rewrite trans_loop_spec by lia.
  now rewrite Z.sub_0_r.
Qed.

(** ** The score *)

Lemma jaro_winkler_distance_eq genome1 genome2 :
  jaro_winkler_distance genome1 genome2
  = let sl := Z.min maxNumGenesToCompare (wrap_int (size genome1)) in
    let al := Z.min maxNumGenesToCompare (wrap_int (size genome2)) in
    let range := Z.max 0 (Z.quot (Z.max sl al) 2 - 1) in
    if (sl =? 0) || (al =? 0) then Fin 0
    else
      let st := match_pass range sl al genome2 genome1 in
      if snd st =? 0 then Fin 0
      else
        score sl al (snd st)
          (trans_pass sl al genome2 genome1 (snd (fst st)) (fst (fst st)))
          (prefix_loop (Z.to_nat (Z.min maxPrefixLength (Z.min sl al))) 0
             genome1 genome2 0).
Proof.
  unfold jaro_winkler_distance, match_pass, trans_pass, score. cbv zeta.
  destruct (_ || _); [reflexivity|].
  destruct (for_loop _ 0 (match_step _ _ _ _) _) as [[sf af] m].
  cbn [fst snd]. destruct (m =? 0); [reflexivity|].
  destruct (for_loop _ 0 (trans_step _ _ _ _ _) _) as [l t].
  reflexivity.
Qed.

Lemma fits_wrap_int g : fits g -> wrap_int (size g) = size g.
Proof.
  unfold fits. intros H. pose proof (size_nonneg g).
  apply wrap_int_small. change (2 ^ 27) with 134217728 in H.
  change (2 ^ 31) with 2147483648. lia.
Qed.

Lemma prefix_loop_bounds s a : forall n i acc,
  acc <= prefix_loop n i s a acc <= acc + Z.of_nat n.
Proof.
  induction n as [|n IH]; intros i acc; cbn [prefix_loop]; [lia|].
  destruct (genesMatch _ _); [|lia].
  specialize (IH (i + 1) (acc + 1)). lia.
Qed.

Lemma score_value sl al m t matchingPrefix :
  sl <> 0 -> al <> 0 -> m <> 0 ->
  value (score sl al m t matchingPrefix)
        (jaro_winkler sl al m t matchingPrefix).
Proof.
  intros Hsl Hal Hm. unfold score, jaro_winkler, jaro, winklerScaling.
  assert (Hdw : value
            (fdiv (fadd (fadd (fdiv (of_Z m) (of_Z sl))
                              (fdiv (of_Z m) (of_Z al)))
                        (fdiv (of_Z (m - Z.quot t 2)) (of_Z m)))
                  (Fin 3))
            ((inject_Z m / inject_Z sl + inject_Z m / inject_Z al
              + inject_Z (m - Z.quot t 2) / inject_Z m) / 3)).
  { apply value_div; [|now apply value_Fin | discriminate].
    repeat apply value_add;
      (apply value_div; [apply value_of_Z | apply value_of_Z |
                         now apply inject_Z_nonzero]). }
  apply value_min_Qmin; [now apply value_Fin|].
  apply value_add; [exact Hdw|].
  apply value_mul.
  - apply value_mul; [now apply value_Fin | apply value_of_Z].
  - apply value_sub; [now apply value_Fin | exact Hdw].
Qed.

Lemma ratio_unit (x y : Z) :
  0 <= x <= y -> 0 < y -> (0 <= inject_Z x / inject_Z y <= 1)%Q.
Proof.
  intros Hx Hy.
  assert (Hy' : (0 < inject_Z y)%Q)
    by (change 0%Q with (inject_Z 0); rewrite <- Zlt_Qlt; lia).
  split.
  - apply Qle_shift_div_l; [exact Hy'|]. rewrite Qmult_0_l.
    change 0%Q with (inject_Z 0). rewrite <- Zle_Qle. lia.
  - apply Qle_shift_div_r; [exact Hy'|]. rewrite Qmult_1_l.
    rewrite <- Zle_Qle. lia.
Qed.

Lemma jaro_unit sl al m t :
  0 < m <= sl -> m <= al -> 0 <= t <= m ->
  (0 <= jaro sl al m t <= 1)%Q.
Proof.
  intros Hs Ha Ht. unfold jaro.
  pose proof (ratio_unit m sl ltac:(lia) ltac:(lia)) as H1.
  pose proof (ratio_unit m al ltac:(lia) ltac:(lia)) as H2.
  assert (Hq : 0 <= Z.quot t 2 <= t).
  { rewrite Z.quot_div_nonneg by lia. split.
    - apply Z.div_pos; lia.
    - apply Z.div_le_upper_bound; lia. }
  pose proof (ratio_unit (m - Z.quot t 2) m ltac:(lia) ltac:(lia)) as H3.
  split.
  - apply Qle_shift_div_l; [reflexivity|]. lra.
  - apply Qle_shift_div_r; [reflexivity|]. lra.
Qed.

Lemma jaro_winkler_unit sl al m t matchingPrefix :
  0 < m <= sl -> m <= al -> 0 <= t <= m -> 0 <= matchingPrefix ->
  (0 <= jaro_winkler sl al m t matchingPrefix <= 1)%Q.
Proof.
  intros Hs Ha Ht Hp. unfold jaro_winkler. cbv zeta.
  pose proof (jaro_unit sl al m t Hs Ha Ht) as Hdw.
  split; [|apply Q.le_min_l].
  apply Q.min_glb; [discriminate|].
  assert (Hb : (0 <= (1 # 10) * inject_Z matchingPrefix
                     * (1 - jaro sl al m t))%Q).
  { apply Qmult_le_0_compat; [apply Qmult_le_0_compat|].
    - discriminate.
    - change 0%Q with (inject_Z 0). rewrite <- Zle_Qle. exact Hp.
    - lra. }
  lra.
Qed.

(** The counts behind the score of two non-empty genomes. *)
Lemma jaro_winkler_distance_counts g1 g2 :
  fits g1 -> fits g2 -> g1 <> [] -> g2 <> [] ->
  exists m t matchingPrefix,
    0 <= m <= Z.min maxNumGenesToCompare (size g1)
    /\ m <= Z.min maxNumGenesToCompare (size g2)
    /\ 0 <= t <= m
    /\ 0 <= matchingPrefix <= maxPrefixLength
    /\ jaro_winkler_distance g1 g2
       = if m =? 0 then Fin 0
         else score (Z.min maxNumGenesToCompare (size g1))
                    (Z.min maxNumGenesToCompare (size g2)) m t matchingPrefix.
Proof.
  intros F1 F2 N1 N2. rewrite jaro_winkler_distance_eq. cbv zeta.
  rewrite !fits_wrap_int by assumption.
  apply size_pos_iff in N1, N2. unfold maxNumGenesToCompare in *.
  set (sl := Z.min 20 (size g1)). set (al := Z.min 20 (size g2)).
  set (range := Z.max 0 (Z.quot (Z.max sl al) 2 - 1)).
  assert (Hsl : 0 < sl) by (unfold sl; lia).
  assert (Hal : 0 < al) by (unfold al; lia).
  destruct (Z.eqb_spec sl 0); [lia|]. destruct (Z.eqb_spec al 0); [lia|].
  cbn [orb].
  destruct (match_pass_describes range sl al g2 g1) as [M [HG HD]];
    try (unfold range; lia).
  destruct (match_pass range sl al g2 g1) as [[sf af] m] eqn:Est.
  cbn [fst snd].
  destruct (claimed_count range sl al g2 g1 M sf af m) as [Ca Cs];
    try lia; try assumption.
  pose proof (flagged_length af (Z.to_nat al) 0) as La.
  pose proof (flagged_length sf (Z.to_nat sl) 0) as Ls.
  unfold size in Ca, Cs.
  pose proof (mismatches_bounds
                (combine (map (gene_at g2) (flagged (Z.to_nat al) 0 af))
                         (map (gene_at g1) (flagged (Z.to_nat sl) 0 sf))))
    as Hmis.
  unfold size in Hmis. rewrite length_combine, !length_map in Hmis.
  pose proof (prefix_loop_bounds g1 g2
                (Z.to_nat (Z.min maxPrefixLength (Z.min sl al))) 0 0) as Hp.
  unfold maxPrefixLength in *.
  exists m, (trans_pass sl al g2 g1 af sf),
    (prefix_loop (Z.to_nat (Z.min 4 (Z.min sl al))) 0 g1 g2 0).
  rewrite (trans_pass_eq sl al g2 g1 af sf) by lia.
  repeat split; try lia.
Qed.

Lemma jaro_winkler_distance_value g1 g2 :
  fits g1 -> fits g2 ->
  exists q, value (jaro_winkler_distance g1 g2) q /\ (0 <= q <= 1)%Q.
Proof.
  intros F1 F2.
  assert (Z0 : exists q, value (Fin 0) q /\ (0 <= q <= 1)%Q).
  { exists 0%Q. split; [now apply value_Fin | lra]. }
  destruct g1 as [|x1 r1].
  { rewrite jaro_winkler_distance_eq. cbv zeta.
    rewrite !fits_wrap_int by assumption. exact Z0. }
  destruct g2 as [|x2 r2].
  { rewrite jaro_winkler_distance_eq. cbv zeta.
    rewrite !fits_wrap_int by assumption.
    change (Z.min maxNumGenesToCompare (size [])) with 0.
    rewrite Z.eqb_refl, orb_true_r. exact Z0. }
  destruct (jaro_winkler_distance_counts (x1 :: r1) (x2 :: r2))
    as (m & t & pfx & Hm & Hm' & Ht & Hp & E); try assumption;
    try discriminate.
  rewrite E. destruct (Z.eqb_spec m 0); [exact Z0|].
  eexists. split.
  - apply score_value; lia.
  - apply jaro_winkler_unit; lia.
Qed.

Lemma fmin_of_Z a b : fmin (of_Z a) (of_Z b) = of_Z (Z.min a b).
Proof.
  unfold fmin, flt, of_Z, Qlt_bool, Qle_bool. simpl. rewrite !Z.mul_1_r.
  destruct (Z.leb_spec a b); cbn [negb]; f_equal; f_equal; lia.
Qed.

Lemma fmax_of_Z a b : fmax (of_Z a) (of_Z b) = of_Z (Z.max a b).
Proof.
  unfold fmax, flt, of_Z, Qlt_bool, Qle_bool. simpl. rewrite !Z.mul_1_r.
  destruct (Z.leb_spec b a); cbn [negb]; f_equal; f_equal; lia.
Qed.

Lemma fdiv_by_zero x q : fdiv x (of_Z 0) <> Fin q.
Proof.
  destruct x as [a| | |]; cbn; try discriminate.
  destruct (Qeq_bool a 0); [discriminate|].
  destruct (Qlt_bool 0 a); discriminate.
Qed.

Lemma fdiv_NaN a b : fdiv (Fin a) (Fin b) = NaN -> (b == 0)%Q.
Proof.
  unfold fdiv. destruct (Qeq_bool b 0) eqn:E.
  - intros _. now apply Qeq_bool_eq.
  - discriminate.
Qed.

(** ** The dispatcher and the claims about it *)

Section Dispatcher.

Variable geneWord : Gene -> Z.
Hypothesis geneWord_range : forall g, 0 <= geneWord g < 2 ^ 32.

Lemma genomeSimilarity_equal_size p g1 g2 :
  size g1 = size g2 ->
  genomeSimilarity geneWord p g1 g2
  = match genomeComparisonMethod p with
    | 0 => Ok (jaro_winkler_distance g1 g2)
    | 1 => hammingDistanceBits geneWord g1 g2
    | 2 => hammingDistanceBytes geneWord g1 g2
    | _ => Failed InvalidConfiguration
    end.
Proof.
  intros E. unfold genomeSimilarity. now rewrite E, Z.eqb_refl.
Qed.

(** C8. On genomes of equal length, a method other than 0, 1 and 2 makes
    [genomeSimilarity] fail with [InvalidConfiguration]: no score is
    returned. *)
Theorem genomeSimilarity_invalid_method p g1 g2 :
  size g1 = size g2 ->
  genomeComparisonMethod p <> 0 ->
  genomeComparisonMethod p <> 1 ->
  genomeComparisonMethod p <> 2 ->
  genomeSimilarity geneWord p g1 g2 = Failed InvalidConfiguration.
Proof.
  intros E H0 H1 H2. rewrite genomeSimilarity_equal_size by exact E.
  destruct (genomeComparisonMethod p) as [|[q|q|]|q]; try reflexivity;
    try contradiction.
  - destruct q; reflexivity || contradiction.
Qed.

Lemma of_Z_zero z : of_Z z = Fin 0 <-> z = 0.
Proof.
  unfold of_Z, inject_Z. split.
  - intros H. now injection H.
  - intros ->. reflexivity.
Qed.

Lemma size_zero {A} (v : list A) : size v = 0 <-> v = [].
Proof.
  split; [|intros ->; reflexivity].
  destruct v; [reflexivity|]. unfold size. cbn [length]. lia.
Qed.

(** The recorded run of the approximate metric returns the value of
    [jaro_winkler_distance], and none of its divisors is zero: the tests
    of [sl], [al] and [m] come before the divisions by them. *)
Lemma jaro_winkler_distance_traced_spec g1 g2 :
  fst (jaro_winkler_distance_traced g1 g2) = jaro_winkler_distance g1 g2
  /\ ~ In (Fin 0) (snd (jaro_winkler_distance_traced g1 g2)).
Proof.
  unfold jaro_winkler_distance_traced, jaro_winkler_distance, divide,
    divide_int.
  cbv beta iota zeta.
  destruct ((_ =? 0) || (_ =? 0)) eqn:G.
  - split; [reflexivity|]. cbn [snd In]. intros [H|[]]. discriminate H.
  - apply orb_false_iff in G. destruct G as [Gs Ga].
    apply Z.eqb_neq in Gs, Ga.
    destruct (for_loop _ _ _ _) as [[sflags aflags] m].
    destruct (Z.eqb_spec m 0) as [|Hm].
    + split; [reflexivity|]. cbn [snd In]. intros [H|[]]. discriminate H.
    + destruct (for_loop _ _ _ _) as [l t]. split; [reflexivity|].
      cbn [snd In app]. intros [H|[H|[H|[H|[H|[H|[]]]]]]];
        first [ discriminate H
              | apply of_Z_zero in H; first [contradiction | discriminate H] ].
Qed.

Lemma hammingDistanceBits_traced_eq g1 g2 :
  hammingDistanceBits_traced geneWord g1 g2
  = bind (hammingDistanceBits geneWord g1 g2)
      (fun x => Ok (x, [of_Z (lengthBits g1)])).
Proof.
  unfold hammingDistanceBits_traced, hammingDistanceBits, divide.
  destruct (negb _); reflexivity.
Qed.

Lemma hammingDistanceBytes_traced_eq g1 g2 :
  hammingDistanceBytes_traced geneWord g1 g2
  = bind (hammingDistanceBytes geneWord g1 g2)
      (fun x => Ok (x, [of_Z (lengthBytes g1)])).
Proof.
  unfold hammingDistanceBytes_traced, hammingDistanceBytes, divide.
  destruct (negb _); reflexivity.
Qed.

(** On every input the recorded run returns what [genomeSimilarity]
    returns. *)
Lemma genomeSimilarity_traced_value p g1 g2 :
  genomeSimilarity geneWord p g1 g2
  = bind (genomeSimilarity_traced geneWord p g1 g2) (fun r => Ok (fst r)).
Proof.
  destruct (jaro_winkler_distance_traced_spec g1 g2) as [J _].
  unfold genomeSimilarity_traced, genomeSimilarity.
  destruct (jaro_winkler_distance_traced g1 g2) as [s ds].
  cbn [fst] in J. subst s.
  destruct (negb _); [reflexivity|].
  rewrite hammingDistanceBits_traced_eq, hammingDistanceBytes_traced_eq.
  destruct (genomeComparisonMethod p) as [|[q|[q|q|]|]|q]; try reflexivity.
  - now destruct (hammingDistanceBytes geneWord g1 g2).
  - now destruct (hammingDistanceBits geneWord g1 g2).
Qed.

(** C10. The run of [genomeSimilarity] that records its divisions returns
    the value of [genomeSimilarity], and a division whose divisor is zero
    is performed exactly on two empty genomes under method 1 or 2: there
    [hammingDistanceBits] divides by [lengthBits = 0] and
    [hammingDistanceBytes] by [lengthBytes = 0], no test standing before
    the division. Under method 0, and on genomes of different lengths, no
    divisor is zero. *)
Theorem empty_genomes_divide_by_zero p g1 g2 :
  fits g1 -> fits g2 ->
  genomeComparisonMethod p = 0 \/ genomeComparisonMethod p = 1
  \/ genomeComparisonMethod p = 2 ->
  exists x divisors,
    genomeSimilarity_traced geneWord p g1 g2 = Ok (x, divisors)
    /\ genomeSimilarity geneWord p g1 g2 = Ok x
    /\ (In (Fin 0) divisors
        <-> (genomeComparisonMethod p = 1 \/ genomeComparisonMethod p = 2)
            /\ g1 = [] /\ g2 = []).
Proof.
  intros F1 F2 Hm.
  destruct (jaro_winkler_distance_traced_spec g1 g2) as [J1 J2].
  destruct (jaro_winkler_distance_traced g1 g2) as [s ds] eqn:J.
  cbn [fst snd] in J1, J2. subst s.
  pose proof (size_nonneg g1) as N1. pose proof (size_nonneg g2) as N2.
  unfold genomeSimilarity_traced.
  destruct (Z.eqb_spec (size g1) (size g2)) as [Hs|Hs]; cbn [negb].
  - rewrite genomeSimilarity_equal_size by exact Hs.
    assert (He : size g1 = 0 <-> g1 = [] /\ g2 = []).
    { split; [|intros [-> _]; reflexivity].
      intros H. split; apply size_zero; lia. }
    destruct Hm as [Hm|[Hm|Hm]]; rewrite Hm.
    + rewrite J. exists (jaro_winkler_distance g1 g2), ds.
      split; [reflexivity|]. split; [reflexivity|]. split.
      * intros H. contradiction.
      * intros [[H|H] _]; discriminate H.
    + rewrite hammingDistanceBits_traced_eq.
      rewrite hammingDistanceBits_eq by assumption. cbn [bind].
      eexists. eexists. split; [reflexivity|]. split; [reflexivity|].
      rewrite fits_lengthBits by exact F1. cbn [In]. split.
      * intros [H|[]]. apply of_Z_zero in H.
        split; [now left | apply He; lia].
      * intros [_ H]. apply He in H. left. rewrite H. reflexivity.
    + rewrite hammingDistanceBytes_traced_eq.
      rewrite hammingDistanceBytes_eq by assumption. cbn [bind].
      eexists. eexists. split; [reflexivity|]. split; [reflexivity|].
      rewrite fits_lengthBytes by exact F1. cbn [In]. split.
      * intros [H|[]]. apply of_Z_zero in H.
        split; [now right | apply He; lia].
      * intros [_ H]. apply He in H. left. rewrite H. reflexivity.
  - rewrite J. unfold divide. cbv beta iota zeta.
    eexists. eexists. split; [reflexivity|]. split.
    + unfold genomeSimilarity.
      destruct (Z.eqb_spec (size g1) (size g2)); [contradiction|].
      reflexivity.
    + split.
      * intros H. apply in_app_or in H. destruct H as [H|[H|[]]];
          [contradiction|].
        rewrite fmax_of_Z in H. apply of_Z_zero in H. lia.
      * intros (_ & -> & ->). now contradiction Hs.
Qed.

Lemma hammingDistanceBytes_quarter g1 g2 :
  size g1 = size g2 -> g1 <> [] -> fits g1 ->
  exists q,
    hammingDistanceBytes geneWord g1 g2 = Ok (Fin q) /\ (0 <= q <= 1 # 4)%Q.
Proof.
  intros Hs Hne Hf.
  destruct (hammingDistanceBytes_value geneWord g1 g2 Hs Hf Hne)
    as [x [E V]].
  rewrite E. unfold value in V. subst x. eexists. split; [reflexivity|].
  rewrite Qred_correct.
  pose proof (identicalCount_bounds geneWord g1 g2) as Hb.
  apply size_pos_iff in Hne.
  assert (Hd : (0 < inject_Z (4 * size g1))%Q)
    by (change 0%Q with (inject_Z 0); rewrite <- Zlt_Qlt; lia).
  split.
  - apply Qle_shift_div_l; [exact Hd|]. rewrite Qmult_0_l.
    change 0%Q with (inject_Z 0). rewrite <- Zle_Qle. lia.
  - apply Qle_shift_div_r; [exact Hd|].
    rewrite inject_Z_mult.
    assert (inject_Z (identicalCount geneWord g1 g2) <= inject_Z (size g1))%Q
      by (rewrite <- Zle_Qle; lia).
    change (inject_Z 4) with 4%Q. lra.
Qed.

(** C9. On non-empty genomes of equal length the word-level metric is at
    most 1/4: it counts at most one match per gene and divides by the
    length in bytes, four per gene. It therefore never reaches 1. *)
Theorem word_level_at_most_quarter p g1 g2 :
  genomeComparisonMethod p = 2 ->
  size g1 = size g2 -> g1 <> [] -> fits g1 ->
  exists q,
    genomeSimilarity geneWord p g1 g2 = Ok (Fin q)
    /\ (0 <= q <= 1 # 4)%Q /\ ~ (q == 1)%Q.
Proof.
  intros Hm Hs Hne Hf. rewrite genomeSimilarity_equal_size, Hm by exact Hs.
  destruct (hammingDistanceBytes_quarter g1 g2 Hs Hne Hf) as [q [E Hq]].
  exists q. split; [exact E|]. split; [exact Hq|].
  intros E1. rewrite E1 in Hq. destruct Hq as [_ Hq].
  revert Hq. apply Qlt_not_le. reflexivity.
Qed.

Lemma pair_sum_diag (h : Gene -> Gene -> Z) g :
  (forall x, h x x = 0) -> pair_sum h g g = 0.
Proof.
  intros H. induction g as [|x r IH]; cbn [pair_sum]; [reflexivity|].
  rewrite H, IH. reflexivity.
Qed.

Lemma differingBits_same g : differingBits geneWord g g = 0.
Proof.
  unfold differingBits. apply pair_sum_diag.
  intros x. now rewrite Z.lxor_nilpotent.
Qed.

Lemma differingBits_complementary g1 g2 :
  complementary geneWord g1 g2 -> differingBits geneWord g1 g2 = 32 * size g1.
Proof.
  unfold complementary, differingBits, size.
  induction 1 as [|x y r1 r2 Hxy _ IH]; cbn [pair_sum length]; [reflexivity|].
  rewrite Hxy, IH. change (popcount (2 ^ 32 - 1)) with 32. lia.
Qed.

Lemma Qmin_one_zero : (1 - Qmin 1 0 == 1)%Q.
Proof. rewrite Q.min_r by discriminate. reflexivity. Qed.

Lemma Qmin_one_two : (1 - Qmin 1 2 == 0)%Q.
Proof. rewrite Q.min_l by discriminate. reflexivity. Qed.

(** C7, amended. On non-empty genomes of equal length the bit-level metric
    is [1 - min(1, 2 * differingBits / totalBits)] with
    [totalBits = numGenes * 32]; identical genomes score 1, and genomes
    that differ in every bit of every word score 0. *)
Theorem bit_level_similarity p g1 g2 :
  genomeComparisonMethod p = 1 ->
  size g1 = size g2 -> g1 <> [] -> fits g1 ->
  exists x,
    genomeSimilarity geneWord p g1 g2 = Ok x
    /\ value x (1 - Qmin 1 (2 * inject_Z (differingBits geneWord g1 g2)
                            / inject_Z (size g1 * 32)))
    /\ (g1 = g2 -> x = Fin 1)
    /\ (complementary geneWord g1 g2 -> x = Fin 0).
Proof.
  intros Hm Hs Hne Hf. rewrite genomeSimilarity_equal_size, Hm by exact Hs.
  destruct (hammingDistanceBits_value geneWord geneWord_range g1 g2 Hs Hf Hne)
    as [x [E V]].
  exists x. split; [exact E|].
  replace (size g1 * 32) with (32 * size g1) by lia.
  split; [exact V|].
  assert (Hd : ~ (inject_Z (32 * size g1) == 0)%Q).
  { apply inject_Z_nonzero. apply size_pos_iff in Hne. lia. }
  split.
  - intros <-. apply value_one. eapply value_eq; [|exact V].
    rewrite differingBits_same.
    setoid_replace (2 * inject_Z 0 / inject_Z (32 * size g1))%Q with 0%Q
      by (unfold Qdiv; now rewrite Qmult_0_r, Qmult_0_l).
    apply Qmin_one_zero.
  - intros Hc. apply value_zero. eapply value_eq; [|exact V].
    rewrite (differingBits_complementary g1 g2 Hc).
    setoid_replace (2 * inject_Z (32 * size g1) / inject_Z (32 * size g1))%Q
      with 2%Q by (now apply Qdiv_mult_l).
    apply Qmin_one_two.
Qed.

Lemma length_mismatch_blend p g1 g2 :
  size g1 <> size g2 ->
  genomeSimilarity geneWord p g1 g2
  = Ok (fadd (fmul (jaro_winkler_distance g1 g2) (Fin (4 # 5)))
             (fmul (fin (inject_Z (Z.min (size g1) (size g2))
                         / inject_Z (Z.max (size g1) (size g2))))
                   (Fin (1 # 5)))).
Proof.
  intros Hne.
  assert (Hmax : ~ (inject_Z (Z.max (size g1) (size g2)) == 0)%Q).
  { apply inject_Z_nonzero.
    pose proof (size_nonneg g1). pose proof (size_nonneg g2). lia. }
  unfold genomeSimilarity.
  destruct (Z.eqb_spec (size g1) (size g2)) as [|_]; [contradiction|].
  cbn [negb]. rewrite fmin_of_Z, fmax_of_Z.
  do 3 f_equal. unfold fdiv, of_Z.
  destruct (Qeq_bool (inject_Z (Z.max (size g1) (size g2))) 0) eqn:Q0;
    [|reflexivity].
  apply Qeq_bool_eq in Q0. contradiction.
Qed.

Lemma length_mismatch_value p g1 g2 approx :
  size g1 <> size g2 ->
  value (jaro_winkler_distance g1 g2) approx ->
  exists x,
    genomeSimilarity geneWord p g1 g2 = Ok x
    /\ value x (approx * (8 # 10)
                + inject_Z (Z.min (size g1) (size g2))
                  / inject_Z (Z.max (size g1) (size g2)) * (2 # 10)).
Proof.
  intros Hne Ha. eexists. split; [now apply length_mismatch_blend|].
  pose proof (value_add _ _ _ _
                (value_mul _ _ _ _ Ha (value_Fin (4 # 5) eq_refl))
                (value_mul _ _ _ _
                   (value_fin (inject_Z (Z.min (size g1) (size g2))
                               / inject_Z (Z.max (size g1) (size g2))))
                   (value_Fin (1 # 5) eq_refl))) as V.
  eapply value_eq; [|exact V].
  setoid_replace (8 # 10)%Q with (4 # 5)%Q by reflexivity.
  setoid_replace (2 # 10)%Q with (1 # 5)%Q by reflexivity.
  reflexivity.
Qed.

(** C4. When the lengths differ, whatever the method, the result is
    [approx * 0.8 + ratio * 0.2], where [approx] is the approximate score
    and [ratio] the smaller length over the larger. *)
Theorem genomeSimilarity_length_mismatch p g1 g2 :
  size g1 <> size g2 ->
  genomeSimilarity geneWord p g1 g2
  = Ok (fadd (fmul (jaro_winkler_distance g1 g2) (Fin (4 # 5)))
             (fmul (fin (inject_Z (Z.min (size g1) (size g2))
                         / inject_Z (Z.max (size g1) (size g2))))
                   (Fin (1 # 5))))
  /\ forall approx,
       value (jaro_winkler_distance g1 g2) approx ->
       exists x,
         genomeSimilarity geneWord p g1 g2 = Ok x
         /\ value x (approx * (8 # 10)
                     + inject_Z (Z.min (size g1) (size g2))
                       / inject_Z (Z.max (size g1) (size g2)) * (2 # 10)).
Proof.
  intros Hne. split.
  - now apply length_mismatch_blend.
  - intros approx Ha. now apply length_mismatch_value.
Qed.

(** For a method among 0, 1 and 2, and non-empty genomes where an exact
    metric is used, [genomeSimilarity] returns a value of the closed
    interval [0, 1]. *)
Lemma genomeSimilarity_unit p g1 g2 :
  fits g1 -> fits g2 ->
  genomeComparisonMethod p = 0 \/ genomeComparisonMethod p = 1
  \/ genomeComparisonMethod p = 2 ->
  (size g1 = size g2 -> genomeComparisonMethod p <> 0 -> g1 <> []) ->
  exists x, genomeSimilarity geneWord p g1 g2 = Ok x /\ in_unit x.
Proof.
  intros F1 F2 Hm Hne.
  destruct (jaro_winkler_distance_value g1 g2 F1 F2) as [a [Va Ha]].
  destruct (Z.eq_dec (size g1) (size g2)) as [Hs|Hs].
  - rewrite genomeSimilarity_equal_size by exact Hs.
    destruct Hm as [Hm|[Hm|Hm]]; rewrite Hm.
    + eexists. split; [reflexivity|]. now apply (value_in_unit _ a).
    + specialize (Hne Hs ltac:(lia)).
      destruct (hammingDistanceBits_value geneWord geneWord_range g1 g2
                  Hs F1 Hne) as [x [E V]].
      exists x. split; [exact E|]. eapply value_in_unit; [exact V|].
      pose proof (differingBits_bounds geneWord geneWord_range g1 g2) as Hb.
      apply size_pos_iff in Hne.
      assert (Hq : (0 <= 2 * inject_Z (differingBits geneWord g1 g2)
                         / inject_Z (32 * size g1))%Q).
      { apply Qle_shift_div_l.
        - change 0%Q with (inject_Z 0). rewrite <- Zlt_Qlt. lia.
        - rewrite Qmult_0_l.
          assert (0 <= inject_Z (differingBits geneWord g1 g2))%Q
            by (change 0%Q with (inject_Z 0); rewrite <- Zle_Qle; lia).
          lra. }
      pose proof (Q.le_min_l 1 (2 * inject_Z (differingBits geneWord g1 g2)
                                / inject_Z (32 * size g1))) as H1.
      assert (H2 : (0 <= Qmin 1 (2 * inject_Z (differingBits geneWord g1 g2)
                                 / inject_Z (32 * size g1)))%Q)
        by (apply Q.min_glb; [discriminate | exact Hq]).
      lra.
    + specialize (Hne Hs ltac:(lia)).
      destruct (hammingDistanceBytes_quarter g1 g2 Hs Hne F1) as [q [E Hq]].
      rewrite E. eexists. split; [reflexivity|]. simpl. lra.
  - destruct (length_mismatch_value p g1 g2 a Hs Va) as [x [E V]].
    exists x. split; [exact E|]. eapply value_in_unit; [exact V|].
    pose proof (size_nonneg g1). pose proof (size_nonneg g2).
    pose proof (ratio_unit (Z.min (size g1) (size g2))
                  (Z.max (size g1) (size g2)) ltac:(lia) ltac:(lia)) as Hr.
    setoid_replace (8 # 10)%Q with (4 # 5)%Q by reflexivity.
    setoid_replace (2 # 10)%Q with (1 # 5)%Q by reflexivity.
    lra.
Qed.

(** C3. For a method among 0, 1 and 2, [genomeSimilarity] returns a value
    of the closed interval [0, 1] on every pair of genomes but one: on two
    empty genomes under method 2 it returns the quotient 0/0 of
    [hammingDistanceBytes], which is no value of the interval. *)
Theorem genomeSimilarity_range p g1 g2 :
  fits g1 -> fits g2 ->
  genomeComparisonMethod p = 0 \/ genomeComparisonMethod p = 1
  \/ genomeComparisonMethod p = 2 ->
  exists x,
    genomeSimilarity geneWord p g1 g2 = Ok x
    /\ (if (genomeComparisonMethod p =? 2) && (size g1 =? 0)
           && (size g2 =? 0)
        then x = NaN /\ ~ in_unit x
        else in_unit x).
Proof.
  intros F1 F2 Hm.
  destruct (Z.eqb_spec (size g1) 0) as [E1|E1],
      (Z.eqb_spec (size g2) 0) as [E2|E2].
  - apply size_zero in E1, E2. subst g1 g2.
    rewrite genomeSimilarity_equal_size by reflexivity.
    rewrite andb_true_r.
    destruct Hm as [Hm|[Hm|Hm]]; rewrite Hm; cbn [Z.eqb Pos.eqb].
    + exists (Fin 0). split; [reflexivity|]. cbn. lra.
    + exists (Fin 0). split; [reflexivity|]. cbn. lra.
    + exists NaN. split; [reflexivity|]. split; [reflexivity|].
      intros H. exact H.
  - rewrite andb_false_r.
    apply genomeSimilarity_unit; [assumption | assumption | exact Hm|].
    intros Hs. lia.
  - rewrite andb_false_r. cbn [andb].
    apply genomeSimilarity_unit; [assumption | assumption | exact Hm|].
    intros Hs. lia.
  - rewrite andb_false_r.
    apply genomeSimilarity_unit; [assumption | assumption | exact Hm|].
    intros Hs _ ->. now apply E1.
Qed.

End Dispatcher.

(** ** geneticDiversity *)

Section Diversity.

Variable geneWord : Gene -> Z.
Variable RNG : Type.
Variable randomUint : Z -> Z -> RNG -> Z * RNG.
Hypothesis randomUint_range :
  forall lo hi rng, lo <= hi -> lo <= fst (randomUint lo hi rng) <= hi.
Variable peeps : Z -> Indiv.

Lemma draws_length lo hi : forall n rng,
  length (fst (draws RNG randomUint n lo hi rng)) = n.
Proof.
  induction n as [|n IH]; intros rng; cbn [draws]; [reflexivity|].
  destruct (randomUint lo hi rng) as [i rng'].
  specialize (IH rng'). destruct (draws RNG randomUint n lo hi rng').
  simpl in *. now rewrite IH.
Qed.

Lemma draws_range lo hi : lo <= hi -> forall n rng,
  Forall (fun i => lo <= i <= hi) (fst (draws RNG randomUint n lo hi rng)).
Proof.
  intros H. induction n as [|n IH]; intros rng; cbn [draws]; [constructor|].
  pose proof (randomUint_range lo hi rng H) as Hi.
  destruct (randomUint lo hi rng) as [i rng'].
  specialize (IH rng'). destruct (draws RNG randomUint n lo hi rng').
  simpl in *. now constructor.
Qed.

Lemma sample_loop_spec p :
  2 <= population p < 2 ^ 32 ->
  forall count similaritySum numSamples rng,
    sample_loop geneWord RNG randomUint peeps p count
      (similaritySum, numSamples) rng
    = bind (accumulate
              (map (adjacentSimilarity geneWord peeps p)
                 (fst (draws RNG randomUint count 1 (population p - 1) rng)))
              similaritySum)
        (fun sum =>
           Ok (sum, numSamples + Z.of_nat count,
               snd (draws RNG randomUint count 1 (population p - 1) rng))).
Proof.
  intros HN. induction count as [|count IH]; intros sum k rng.
  - cbn. now rewrite Z.add_0_r.
  - cbn [sample_loop draws].
    rewrite (wrap_unsigned_small (population p - 1)) by lia.
    pose proof (randomUint_range 1 (population p - 1) rng ltac:(lia)) as Hi.
    destruct (randomUint 1 (population p - 1) rng) as [index0 rng'].
    cbn [fst] in Hi. rewrite wrap_unsigned_small by lia.
    destruct (draws RNG randomUint count 1 (population p - 1) rng')
      as [rest rng''] eqn:Ed.
    cbn [fst snd map accumulate]. unfold adjacentSimilarity at 1.
    destruct (genomeSimilarity geneWord p _ _) as [x|e]; cbn [bind];
      [|reflexivity].
    rewrite IH, Ed. cbn [fst snd].
    destruct (accumulate _ _); cbn [bind]; [|reflexivity].
    replace (k + 1 + Z.of_nat count) with (k + Z.of_nat (S count)) by lia.
    reflexivity.
Qed.

(** C6. With fewer than two individuals [geneticDiversity] is 0 and draws
    nothing. Otherwise it draws [min(1000, N)] indices, each from the
    closed interval [[1, N - 1]], adds up the similarity of the adjacent
    pair at each drawn index and the next one, and returns one minus the
    mean. *)
Theorem geneticDiversity_sampling p rng :
  0 <= population p < 2 ^ 32 ->
  (population p < 2 ->
   geneticDiversity geneWord RNG randomUint peeps p rng = Ok (Fin 0, rng))
  /\ (2 <= population p ->
      let sampleBudget := Z.min 1000 (population p) in
      let indices :=
        fst (draws RNG randomUint (Z.to_nat sampleBudget) 1
               (population p - 1) rng) in
      let rng' :=
        snd (draws RNG randomUint (Z.to_nat sampleBudget) 1
               (population p - 1) rng) in
      size indices = sampleBudget
      /\ Forall (fun i => 1 <= i <= population p - 1) indices
      /\ geneticDiversity geneWord RNG randomUint peeps p rng
         = bind (accumulate
                   (map (adjacentSimilarity geneWord peeps p) indices)
                   (Fin 0))
             (fun accumulatedSimilarity =>
                Ok (fsub (Fin 1)
                      (fdiv accumulatedSimilarity (of_Z sampleBudget)),
                    rng'))).
Proof.
  intros HN. split.
  - intros Hlt. unfold geneticDiversity.
    destruct (Z.ltb_spec (population p) 2); [reflexivity | lia].
  - intros Hge. cbv zeta. split; [|split].
    + unfold size. rewrite draws_length. lia.
    + apply draws_range. lia.
    + unfold geneticDiversity.
      destruct (Z.ltb_spec (population p) 2); [lia|].
      rewrite sample_loop_spec by lia.
      destruct (accumulate _ _); cbn [bind]; [|reflexivity].
      replace (0 + Z.of_nat (Z.to_nat (Z.min 1000 (population p))))
        with (Z.min 1000 (population p)) by lia.
      reflexivity.
Qed.

End Diversity.

(** ** Symmetry of the approximate metric *)

Lemma genesMatch_sym x y : genesMatch x y = genesMatch y x.
Proof.
  unfold genesMatch.
  now rewrite (Z.eqb_sym (sinkNum x)), (Z.eqb_sym (sourceNum x)),
    (Z.eqb_sym (sinkType x)), (Z.eqb_sym (sourceType x)),
    (Z.eqb_sym (weight x)).
Qed.

Lemma edge_transpose range sl al a s i j :
  edge range sl al a s i j <-> edge range al sl s a j i.
Proof.
  unfold edge. rewrite (genesMatch_sym (gene_at a i)).
  split; intros (H1 & H2 & H3 & H4); repeat split; try lia; exact H4.
Qed.

(** Both sides prefer their earliest free partner, so the matching found
    from either side is the same. *)
Lemma greedy_transpose (E E' : Z -> Z -> Prop) n n' M M' :
  (forall i j, E i j -> 0 <= i < n /\ 0 <= j < n') ->
  (forall i j, E i j <-> E' j i) ->
  greedy E n M -> greedy E' n' M' ->
  forall i j, In (i, j) M <-> In (j, i) M'.
Proof.
  intros Hdom Htr (G1 & G2 & G3 & G4) (G1' & G2' & G3' & G4').
  assert (Hind : forall (k : nat) i j,
             0 <= i -> 0 <= j -> i + j < Z.of_nat k ->
             (In (i, j) M <-> In (j, i) M')).
  { induction k as [|k IH]; intros i j Hi Hj Hk; [lia|].
    split; intros H.
    - destruct (G1 _ _ H) as [HE _].
      destruct (Hdom _ _ HE) as [Di Dj].
      destruct (G4' j i ltac:(lia) (proj1 (Htr i j) HE))
        as [[j' [Hlt Hin]]|[i0 [Hle Hin]]].
      + exfalso. destruct (G1' _ _ Hin) as [HE' _].
        apply Htr in HE'. destruct (Hdom _ _ HE') as [_ Dj'].
        apply IH in Hin; try lia.
        pose proof (G2 _ _ _ H Hin). lia.
      + destruct (Z.eq_dec i0 i) as [->|Hne]; [exact Hin|].
        exfalso. destruct (G1' _ _ Hin) as [HE' _].
        apply Htr in HE'. destruct (Hdom _ _ HE') as [Di0 _].
        apply IH in Hin; try lia.
        pose proof (G3 _ _ _ H Hin). lia.
    - destruct (G1' _ _ H) as [HE' _].
      pose proof (proj2 (Htr i j) HE') as HE.
      destruct (Hdom _ _ HE) as [Di Dj].
      destruct (G4 i j ltac:(lia) HE) as [[i' [Hlt Hin]]|[j0 [Hle Hin]]].
      + exfalso. destruct (G1 _ _ Hin) as [HE1 _].
        destruct (Hdom _ _ HE1) as [Di' _].
        apply IH in Hin; try lia.
        pose proof (G2' _ _ _ H Hin). lia.
      + destruct (Z.eq_dec j0 j) as [->|Hne]; [exact Hin|].
        exfalso. destruct (G1 _ _ Hin) as [HE1 _].
        destruct (Hdom _ _ HE1) as [_ Dj0].
        apply IH in Hin; try lia.
        pose proof (G3' _ _ _ H Hin). lia. }
  intros i j. split; intros H.
  - destruct (G1 _ _ H) as [HE _]. destruct (Hdom _ _ HE) as [Di Dj].
    apply (Hind (Z.to_nat (i + j + 1)) i j); try lia. exact H.
  - destruct (G1' _ _ H) as [HE' _]. apply Htr in HE'.
    destruct (Hdom _ _ HE') as [Di Dj].
    apply (Hind (Z.to_nat (i + j + 1)) i j); try lia. exact H.
Qed.

Lemma marks_ext flags flags' n P P' :
  marks flags n P -> marks flags' n P' ->
  (forall k, 0 <= k < n -> (P k <-> P' k)) ->
  flags = flags'.
Proof.
  intros [S1 M1] [S2 M2] HP. unfold size in *.
  apply (nth_ext _ _ 0 0); [lia|].
  intros k Hk.
  assert (Hk' : 0 <= Z.of_nat k < n) by lia.
  specialize (M1 _ Hk'). specialize (M2 _ Hk'). specialize (HP _ Hk').
  unfold flag_at in M1, M2. rewrite Nat2Z.id in M1, M2.
  destruct M1 as [[F1 Q1]|[F1 Q1]], M2 as [[F2 Q2]|[F2 Q2]];
    try congruence; tauto.
Qed.

(** The matching pass run with the two genomes exchanged claims the same
    positions. *)
Lemma match_pass_swap range sl al a s :
  0 <= range -> 0 <= sl -> 0 <= al ->
  fst (fst (match_pass range al sl s a))
  = snd (fst (match_pass range sl al a s))
  /\ snd (fst (match_pass range al sl s a))
     = fst (fst (match_pass range sl al a s))
  /\ snd (match_pass range al sl s a) = snd (match_pass range sl al a s).
Proof.
  intros Hr Hsl Hal.
  destruct (match_pass_describes range sl al a s Hr Hsl Hal) as [M [HG HD]].
  destruct (match_pass_describes range al sl s a Hr Hal Hsl)
    as [M' [HG' HD']].
  destruct (match_pass range sl al a s) as [[sf af] m].
  destruct (match_pass range al sl s a) as [[sf' af'] m'].
  cbn [fst snd].
  assert (HT : forall i j, In (i, j) M <-> In (j, i) M').
  { apply (greedy_transpose (edge range sl al a s) (edge range al sl s a)
             al sl); try assumption.
    - intros i j (H1 & H2 & _). lia.
    - intros i j. apply edge_transpose. }
  destruct (claimed_count _ _ _ _ _ _ _ _ _ Hsl Hal HG HD) as [Ca Cs].
  destruct (claimed_count _ _ _ _ _ _ _ _ _ Hal Hsl HG' HD') as [Ca' Cs'].
  destruct HD as (_ & _ & Ms & Ma). destruct HD' as (_ & _ & Ms' & Ma').
  assert (E1 : sf' = af).
  { apply (marks_ext _ _ _ _ _ Ms' Ma). intros k _.
    split; intros [x Hx]; exists x; now apply HT. }
  assert (E2 : af' = sf).
  { apply (marks_ext _ _ _ _ _ Ma' Ms). intros k _.
    split; intros [x Hx]; exists x; now apply HT. }
  subst. repeat split. congruence.
Qed.

Lemma mismatches_swap : forall X Y,
  mismatches (combine X Y) = mismatches (combine Y X).
Proof.
  induction X as [|x X IH]; intros [|y Y]; cbn [combine mismatches];
    try reflexivity.
  now rewrite IH, genesMatch_sym.
Qed.

Lemma prefix_loop_swap s a : forall n i acc,
  prefix_loop n i s a acc = prefix_loop n i a s acc.
Proof.
  induction n as [|n IH]; intros i acc; cbn [prefix_loop]; [reflexivity|].
  now rewrite genesMatch_sym, IH.
Qed.

Lemma fadd_comm x y : fadd x y = fadd y x.
Proof.
  destruct x as [a| | |], y as [b| | |]; try reflexivity.
  cbn [fadd]. unfold fin. f_equal. apply Qred_complete. apply Qplus_comm.
Qed.

Lemma score_swap sl al m t matchingPrefix :
  score sl al m t matchingPrefix = score al sl m t matchingPrefix.
Proof.
  unfold score. cbv zeta.
  now rewrite (fadd_comm (fdiv (of_Z m) (of_Z sl))).
Qed.

Lemma jaro_winkler_distance_sym g1 g2 :
  fits g1 -> fits g2 ->
  jaro_winkler_distance g1 g2 = jaro_winkler_distance g2 g1.
Proof.
  intros F1 F2. rewrite !jaro_winkler_distance_eq. cbv zeta.
  rewrite !fits_wrap_int by assumption.
  set (sl := Z.min maxNumGenesToCompare (size g1)).
  set (al := Z.min maxNumGenesToCompare (size g2)).
  rewrite (Z.max_comm al sl).
  set (range := Z.max 0 (Z.quot (Z.max sl al) 2 - 1)).
  rewrite (Z.min_comm al sl).
  rewrite (orb_comm (al =? 0)).
  destruct ((sl =? 0) || (al =? 0)); [reflexivity|].
  pose proof (size_nonneg g1). pose proof (size_nonneg g2).
  assert (Hsl : 0 <= sl) by (unfold sl, maxNumGenesToCompare; lia).
  assert (Hal : 0 <= al) by (unfold al, maxNumGenesToCompare; lia).
  destruct (match_pass_swap range sl al g2 g1) as (E1 & E2 & E3);
    try assumption; [unfold range; lia|].
  rewrite E1, E2, E3.
  destruct (snd (match_pass range sl al g2 g1) =? 0); [reflexivity|].
  rewrite (trans_pass_eq sl al) by assumption.
  rewrite (trans_pass_eq al sl) by assumption.
  rewrite mismatches_swap, (prefix_loop_swap g2 g1).
  apply score_swap.
Qed.

Section Symmetry.

Variable geneWord : Gene -> Z.

Lemma lengthBytes_size g1 g2 :
  size g1 = size g2 -> lengthBytes g1 = lengthBytes g2.
Proof. unfold lengthBytes. now intros ->. Qed.

Lemma hammingDistanceBits_sym g1 g2 :
  size g1 = size g2 ->
  hammingDistanceBits geneWord g1 g2 = hammingDistanceBits geneWord g2 g1.
Proof.
  intros Hs. unfold hammingDistanceBits, lengthBits.
  rewrite (lengthBytes_size g1 g2 Hs), (size_eq_length g1 g2 Hs).
  rewrite Hs, Z.eqb_refl. cbn [negb]. cbv zeta.
  erewrite for_loop_ext; [reflexivity|].
  intros i st _. cbv beta. now rewrite Z.lxor_comm.
Qed.

Lemma hammingDistanceBytes_sym g1 g2 :
  size g1 = size g2 ->
  hammingDistanceBytes geneWord g1 g2 = hammingDistanceBytes geneWord g2 g1.
Proof.
  intros Hs. unfold hammingDistanceBytes.
  rewrite (lengthBytes_size g1 g2 Hs), (size_eq_length g1 g2 Hs).
  rewrite Hs, Z.eqb_refl. cbn [negb]. cbv zeta.
  erewrite for_loop_ext; [reflexivity|].
  intros i st _. cbv beta. now rewrite Z.eqb_sym.
Qed.

(** C5. [genomeSimilarity] does not depend on the order of its two
    genomes, under every method and whether or not the lengths agree. *)
Theorem genomeSimilarity_sym p g1 g2 :
  fits g1 -> fits g2 ->
  genomeSimilarity geneWord p g1 g2 = genomeSimilarity geneWord p g2 g1.
Proof.
  intros F1 F2.
  destruct (Z.eq_dec (size g1) (size g2)) as [Hs|Hs].
  - rewrite (genomeSimilarity_equal_size geneWord p g1 g2 Hs).
    rewrite (genomeSimilarity_equal_size geneWord p g2 g1 (eq_sym Hs)).
    rewrite (jaro_winkler_distance_sym g1 g2 F1 F2).
    rewrite (hammingDistanceBits_sym g1 g2 Hs).
    rewrite (hammingDistanceBytes_sym g1 g2 Hs).
    reflexivity.
  - rewrite (length_mismatch_blend geneWord p g1 g2 Hs).
    rewrite (length_mismatch_blend geneWord p g2 g1 (not_eq_sym Hs)).
    rewrite (jaro_winkler_distance_sym g1 g2 F1 F2).
    now rewrite (Z.min_comm (size g1)), (Z.max_comm (size g1)).
Qed.

End Symmetry.

(** ** A genome compared with itself *)

Lemma genesMatch_refl x : genesMatch x x = true.
Proof. unfold genesMatch. now rewrite !Z.eqb_refl. Qed.

(** The positions [0 .. n - 1], each paired with itself. *)
Lemma greedy_diagonal range n g :
  0 <= range ->
  greedy (edge range n n g g) n
    (map (fun k => (Z.of_nat k, Z.of_nat k)) (seq 0 (Z.to_nat n))).
Proof.
  intros Hr.
  assert (Hin : forall i j,
             In (i, j) (map (fun k => (Z.of_nat k, Z.of_nat k))
                          (seq 0 (Z.to_nat n)))
             <-> i = j /\ 0 <= i < n).
  { intros i j. rewrite in_map_iff. split.
    - intros [k [E Hk]]. apply in_seq in Hk. injection E as <- <-. lia.
    - intros [<- Hi]. exists (Z.to_nat i). split.
      + f_equal; lia.
      + apply in_seq. lia. }
  split; [|split; [|split]].
  - intros i j H. apply Hin in H. destruct H as [<- Hi].
    split; [|lia]. unfold edge. repeat split; try lia.
    apply genesMatch_refl.
  - intros i j j' H H'. apply Hin in H, H'. lia.
  - intros i i' j H H'. apply Hin in H, H'. lia.
  - intros i j' Hi (E1 & E2 & _).
    destruct (Z_lt_le_dec j' i) as [Hlt|Hle].
    + left. exists j'. split; [exact Hlt|]. apply Hin. lia.
    + right. exists i. split; [exact Hle|]. apply Hin. lia.
Qed.

Lemma flagged_all flags : forall n i,
  (forall k, i <= k < i + Z.of_nat n -> flag_at flags k = 1) ->
  flagged n i flags = map (fun k => i + Z.of_nat k) (seq 0 n).
Proof.
  induction n as [|n IH]; intros i H; cbn [flagged]; [reflexivity|].
  rewrite (H i) by lia. cbn [Z.eqb Pos.eqb seq map].
  rewrite IH by (intros k Hk; apply H; lia).
  f_equal; [lia|]. rewrite <- seq_shift, map_map.
  apply map_ext. intros k. lia.
Qed.

Lemma mismatches_same (f : Z -> Gene) : forall L,
  mismatches (combine (map f L) (map f L)) = 0.
Proof.
  induction L as [|x L IH]; cbn [map combine mismatches]; [reflexivity|].
  now rewrite genesMatch_refl, IH.
Qed.

Lemma prefix_loop_same g : forall n i acc,
  prefix_loop n i g g acc = acc + Z.of_nat n.
Proof.
  induction n as [|n IH]; intros i acc; cbn [prefix_loop]; [lia|].
  rewrite genesMatch_refl, IH. lia.
Qed.

Lemma jaro_winkler_same n matchingPrefix :
  0 < n -> (jaro_winkler n n n 0 matchingPrefix == 1)%Q.
Proof.
  intros Hn. unfold jaro_winkler, jaro. cbv zeta.
  change (Z.quot 0 2) with 0. rewrite Z.sub_0_r.
  assert (H1 : (inject_Z n / inject_Z n == 1)%Q).
  { unfold Qdiv. apply Qmult_inv_r. apply inject_Z_nonzero. lia. }
  rewrite H1.
  setoid_replace ((1 + 1 + 1) / 3)%Q with 1%Q by reflexivity.
  setoid_replace (1 + (1 # 10) * inject_Z matchingPrefix * (1 - 1))%Q
    with 1%Q by ring.
  apply Q.min_l. apply Qle_refl.
Qed.

(** The approximate metric of a non-empty genome with itself is 1: every
    position is claimed by itself, nothing is transposed. *)
Lemma jaro_winkler_distance_same g :
  fits g -> g <> [] -> jaro_winkler_distance g g = Fin 1.
Proof.
  intros F N. rewrite jaro_winkler_distance_eq. cbv zeta.
  rewrite !fits_wrap_int by assumption.
  apply size_pos_iff in N.
  set (n := Z.min maxNumGenesToCompare (size g)).
  assert (Hn : 0 < n) by (unfold n, maxNumGenesToCompare; lia).
  rewrite Z.max_id, Z.min_id.
  set (range := Z.max 0 (Z.quot n 2 - 1)).
  assert (Hr : 0 <= range) by (unfold range; lia).
  destruct (Z.eqb_spec n 0); [lia|]. cbn [orb].
  destruct (match_pass_describes range n n g g) as [M [HG HD]]; try lia.
  pose proof (greedy_diagonal range n g Hr) as HDiag.
  assert (HT : forall i j,
             In (i, j) M
             <-> In (j, i) (map (fun k => (Z.of_nat k, Z.of_nat k))
                              (seq 0 (Z.to_nat n)))).
  { apply (greedy_transpose (edge range n n g g) (edge range n n g g) n n);
      try assumption.
    - intros i j (H1 & H2 & _). lia.
    - intros i j. apply edge_transpose. }
  assert (HM : forall k, 0 <= k < n -> In (k, k) M).
  { intros k Hk. apply HT. apply in_map_iff. exists (Z.to_nat k). split.
    - f_equal; lia.
    - apply in_seq. lia. }
  destruct (match_pass range n n g g) as [[sf af] m] eqn:Est.
  destruct (claimed_count range n n g g M sf af m (Z.lt_le_incl _ _ Hn)
              (Z.lt_le_incl _ _ Hn) HG HD) as [Ca _].
  destruct HD as (_ & _ & [_ Ms] & [_ Ma]).
  assert (Fa : flagged (Z.to_nat n) 0 af
               = map (fun k => 0 + Z.of_nat k) (seq 0 (Z.to_nat n))).
  { apply flagged_all. intros k Hk.
    destruct (Ma k ltac:(lia)) as [[Hf _]|[_ Hq]]; [exact Hf|].
    exfalso. apply Hq. exists k. apply HM. lia. }
  assert (Fs : flagged (Z.to_nat n) 0 sf
               = map (fun k => 0 + Z.of_nat k) (seq 0 (Z.to_nat n))).
  { apply flagged_all. intros k Hk.
    destruct (Ms k ltac:(lia)) as [[Hf _]|[_ Hq]]; [exact Hf|].
    exfalso. apply Hq. exists k. apply HM. lia. }
  assert (Em : m = n).
  { rewrite <- Ca, Fa. unfold size. rewrite length_map, length_seq. lia. }
  cbn [fst snd]. rewrite Em.
  destruct (Z.eqb_spec n 0); [lia|].
  rewrite trans_pass_eq by lia. rewrite Fa, Fs, mismatches_same.
  apply value_one. eapply value_eq; [|apply score_value; lia].
  now apply jaro_winkler_same.
Qed.

Section Identity.

Variable geneWord : Gene -> Z.
Hypothesis geneWord_range : forall g, 0 <= geneWord g < 2 ^ 32.

(** Under the approximate and the bit-level metric a non-empty genome is
    fully similar to itself. *)
Lemma genomeSimilarity_same p g :
  fits g -> g <> [] ->
  genomeComparisonMethod p = 0 \/ genomeComparisonMethod p = 1 ->
  genomeSimilarity geneWord p g g = Ok (Fin 1).
Proof.
  intros F N Hm. rewrite genomeSimilarity_equal_size by reflexivity.
  destruct Hm as [-> | ->].
  - now rewrite jaro_winkler_distance_same.
  - destruct (hammingDistanceBits_value geneWord geneWord_range g g
                eq_refl F N) as [x [E V]].
    rewrite E. f_equal. apply value_one. eapply value_eq; [|exact V].
    rewrite differingBits_same.
    setoid_replace (2 * inject_Z 0 / inject_Z (32 * size g))%Q with 0%Q
      by (unfold Qdiv; now rewrite Qmult_0_r, Qmult_0_l).
    apply Qmin_one_zero.
Qed.

(** Under the word-level metric the same comparison gives 1/4. *)
Lemma genomeSimilarity_same_word_level p g :
  fits g -> g <> [] ->
  genomeComparisonMethod p = 2 ->
  genomeSimilarity geneWord p g g = Ok (Fin (1 # 4)).
Proof.
  intros F N Hm. rewrite genomeSimilarity_equal_size, Hm by reflexivity.
  destruct (hammingDistanceBytes_value geneWord g g eq_refl F N)
    as [x [E V]].
  rewrite E. f_equal. unfold value in V. rewrite V.
  change (Fin (1 # 4)) with (Fin (Qred (1 # 4))). f_equal.
  apply Qred_complete.
  assert (Hc : identicalCount geneWord g g = size g).
  { unfold identicalCount, size. clear.
    induction g as [|x r IH]; cbn [pair_sum length]; [reflexivity|].
    rewrite Z.eqb_refl, IH. lia. }
  rewrite Hc, inject_Z_mult.
  apply size_pos_iff in N.
  assert (Hd : ~ (inject_Z (size g) == 0)%Q)
    by (apply inject_Z_nonzero; lia).
  change (inject_Z 4) with 4%Q. field. exact Hd.
Qed.

End Identity.

(** ** Instances *)

Lemma streamUint_range lo hi (rng : list Z) :
  lo <= hi -> lo <= fst (streamUint lo hi rng) <= hi.
Proof.
  intros H. destruct rng as [|x rest]; cbn [streamUint fst]; [lia|].
  pose proof (Z.mod_pos_bound x (hi - lo + 1) ltac:(lia)). lia.
Qed.

Lemma fits_sample : fits [sampleGene].
Proof. unfold fits. reflexivity. Qed.

Lemma fits_sample_pair : fits [sampleGene; complementGene].
Proof. unfold fits. reflexivity. Qed.

(** Runs of the approximate metric: genes [sourceNum = k] for
    [k = 0 .. 4]; in the first run two pairs of neighbours are exchanged
    (five matches, four of them out of order, so [t = 2] and the score is
    [(1 + 1 + 3/5) / 3]); in the second the genomes share a prefix of two
    genes and differ in length. *)
Example jaro_winkler_distance_transposed :
  jaro_winkler_distance
    [mkGene 1 0 1 0 1; mkGene 1 1 1 0 1; mkGene 1 2 1 0 1; mkGene 1 4 1 0 1;
     mkGene 1 3 1 0 1]
    [mkGene 1 1 1 0 1; mkGene 1 0 1 0 1; mkGene 1 2 1 0 1; mkGene 1 3 1 0 1;
     mkGene 1 4 1 0 1]
  = Fin (13 # 15).
Proof. reflexivity. Qed.

Example jaro_winkler_distance_prefix :
  jaro_winkler_distance
    [mkGene 1 0 1 0 1; mkGene 1 1 1 0 1; mkGene 1 2 1 0 1]
    [mkGene 1 0 1 0 1; mkGene 1 1 1 0 1; mkGene 1 3 1 0 1; mkGene 1 2 1 0 1]
  = Fin (14 # 15).
Proof. reflexivity. Qed.

(** The two sample genes differ in every bit, and the bit-level metric
    of the two is 0. *)
Example complementGene_word :
  Z.lxor (packedWord sampleGene) (packedWord complementGene) = 2 ^ 32 - 1.
Proof. reflexivity. Qed.

Example bit_level_complement :
  genomeSimilarity packedWord (withMethod 1) [sampleGene] [complementGene]
  = Ok (Fin 0).
Proof. reflexivity. Qed.

(** C1, at the scenario of the specification: one gene compared with
    itself under the word-level metric scores 1/4, not 1. *)
Theorem identity_fails_at_word_level :
  genomeSimilarity packedWord (withMethod 2) [sampleGene] [sampleGene]
  = Ok (Fin (1 # 4)).
Proof. reflexivity. Qed.

(** C2, at two genomes of two genes that agree at one position: the
    specified value [identicalCount / numGenes] is 1/2, the code returns
    1/8, having divided by the length in bytes. *)
Theorem word_level_divides_by_bytes :
  identicalCount packedWord [sampleGene; complementGene]
    [sampleGene; sampleGene] = 1
  /\ wordSimilarity_spec packedWord [sampleGene; complementGene]
       [sampleGene; sampleGene] = Fin (1 # 2)
  /\ genomeSimilarity packedWord (withMethod 2) [sampleGene; complementGene]
       [sampleGene; sampleGene] = Ok (Fin (1 # 8)).
Proof. repeat split; reflexivity. Qed.

(** C7 fails on two empty genomes: they are identical and of equal
    length, and their bit-level similarity is 0. *)
Lemma bit_level_empty_counterexample :
  size (@nil Gene) = size (@nil Gene)
  /\ genomeSimilarity packedWord (withMethod 1) [] [] = Ok (Fin 0)
  /\ genomeSimilarity packedWord (withMethod 1) [] [] <> Ok (Fin 1).
Proof.
  split; [reflexivity|]. split; [reflexivity | discriminate].
Qed.

Lemma genomeSimilarity_invalid_method_witness :
  size [sampleGene] = size [sampleGene]
  /\ genomeComparisonMethod (withMethod 3) <> 0
  /\ genomeComparisonMethod (withMethod 3) <> 1
  /\ genomeComparisonMethod (withMethod 3) <> 2
  /\ genomeSimilarity packedWord (withMethod 3) [sampleGene] [sampleGene]
     = Failed InvalidConfiguration.
Proof.
  split; [reflexivity|]. split; [discriminate|]. split; [discriminate|].
  split; [discriminate|].
  apply genomeSimilarity_invalid_method;
    [reflexivity | discriminate | discriminate | discriminate].
Defined.

Lemma word_level_at_most_quarter_witness :
  exists q,
    genomeSimilarity packedWord (withMethod 2) [sampleGene; complementGene]
      [sampleGene; sampleGene] = Ok (Fin q)
    /\ (0 <= q <= 1 # 4)%Q /\ ~ (q == 1)%Q.
Proof.
  apply word_level_at_most_quarter;
    [reflexivity | reflexivity | discriminate | exact fits_sample_pair].
Defined.

Lemma bit_level_similarity_witness :
  exists x,
    genomeSimilarity packedWord (withMethod 1) [sampleGene; complementGene]
      [sampleGene; sampleGene] = Ok x
    /\ value x (1 - Qmin 1 (2 * inject_Z
                                  (differingBits packedWord
                                     [sampleGene; complementGene]
                                     [sampleGene; sampleGene])
                            / inject_Z (size [sampleGene; complementGene]
                                        * 32)))
    /\ ([sampleGene; complementGene] = [sampleGene; sampleGene] -> x = Fin 1)
    /\ (complementary packedWord [sampleGene; complementGene]
          [sampleGene; sampleGene] -> x = Fin 0).
Proof.
  apply (bit_level_similarity packedWord packedWord_range (withMethod 1));
    [reflexivity | reflexivity | discriminate | exact fits_sample_pair].
Defined.

Lemma genomeSimilarity_length_mismatch_witness :
  size [sampleGene] <> size [sampleGene; complementGene]
  /\ genomeSimilarity packedWord (withMethod 1) [sampleGene]
       [sampleGene; complementGene]
     = Ok (Fin (39 # 50)).
Proof.
  split; [discriminate|].
  destruct (genomeSimilarity_length_mismatch packedWord (withMethod 1)
              [sampleGene] [sampleGene; complementGene])
    as [E _]; [discriminate|].
  rewrite E. reflexivity.
Defined.

Lemma genomeSimilarity_range_witness :
  exists x,
    genomeSimilarity packedWord (withMethod 2) [] [] = Ok x
    /\ x = NaN /\ ~ in_unit x.
Proof.
  apply (genomeSimilarity_range packedWord packedWord_range (withMethod 2)
           [] []);
    [unfold fits; reflexivity | unfold fits; reflexivity
    | right; right; reflexivity].
Defined.

(** The divisions recorded on two empty genomes: under methods 1 and 2
    the one division of the metric, by [lengthBits] and by [lengthBytes],
    both 0; under method 0 the halving of the window only. *)
Example empty_genomes_divisions :
  genomeSimilarity_traced packedWord (withMethod 1) [] []
  = Ok (Fin 0, [of_Z (lengthBits (@nil Gene))])
  /\ lengthBits (@nil Gene) = 0
  /\ genomeSimilarity_traced packedWord (withMethod 2) [] []
     = Ok (NaN, [of_Z (lengthBytes (@nil Gene))])
  /\ lengthBytes (@nil Gene) = 0
  /\ genomeSimilarity_traced packedWord (withMethod 0) [] []
     = Ok (Fin 0, [of_Z 2]).
Proof. split; [|split; [|split; [|split]]]; reflexivity. Qed.

Lemma empty_genomes_divide_by_zero_witness :
  exists x divisors,
    genomeSimilarity_traced packedWord (withMethod 2) [] []
    = Ok (x, divisors)
    /\ genomeSimilarity packedWord (withMethod 2) [] [] = Ok x
    /\ (In (Fin 0) divisors
        <-> (genomeComparisonMethod (withMethod 2) = 1
             \/ genomeComparisonMethod (withMethod 2) = 2)
            /\ @nil Gene = [] /\ @nil Gene = []).
Proof.
  apply (empty_genomes_divide_by_zero packedWord packedWord_range
           (withMethod 2) [] []);
    [unfold fits; reflexivity | unfold fits; reflexivity
    | right; right; reflexivity].
Defined.

Lemma genomeSimilarity_sym_witness :
  genomeSimilarity packedWord (withMethod 0) [sampleGene]
    [sampleGene; complementGene]
  = genomeSimilarity packedWord (withMethod 0) [sampleGene; complementGene]
      [sampleGene].
Proof.
  apply genomeSimilarity_sym; [exact fits_sample | exact fits_sample_pair].
Defined.

Lemma geneticDiversity_sampling_witness :
  geneticDiversity packedWord (list Z) streamUint samplePeeps
    (mkParams 4 1) [5; 8; 13; 21; 34]
  = Ok (Fin (1 # 2), [34]).
Proof.
  destruct (geneticDiversity_sampling packedWord (list Z) streamUint
              streamUint_range samplePeeps (mkParams 4 1) [5; 8; 13; 21; 34])
    as [_ H]; [cbn; lia|].
  destruct (H ltac:(cbn; lia)) as (_ & _ & E).
  rewrite E. reflexivity.
Defined.

(** * Further properties of genome-compare.cpp *)

Lemma value_is x t c : value x t -> (x = Fin (Qred c) <-> (t == c)%Q).
Proof.
  unfold value. intros ->. rewrite <- Qred_eq_iff. split.
  - intros H. now injection H.
  - now intros ->.
Qed.

Lemma popcount_zero w : 0 <= w -> (popcount w = 0 <-> w = 0).
Proof.
  intros Hw. destruct w as [|q|q]; cbn [popcount].
  - split; reflexivity.
  - pose proof (popcount_pos_positive q). split; [lia | discriminate].
  - lia.
Qed.

Lemma pair_sum_zero (h : Gene -> Gene -> Z) (R : Gene -> Gene -> Prop) :
  (forall x y, 0 <= h x y) ->
  (forall x y, h x y = 0 <-> R x y) ->
  forall g1 g2, length g1 = length g2 ->
    (pair_sum h g1 g2 = 0 <-> Forall2 R g1 g2).
Proof.
  intros Hpos Hz. induction g1 as [|x r1 IH]; intros [|y r2] Hlen;
    simpl in Hlen; try discriminate; cbn [pair_sum].
  - split; [constructor | reflexivity].
  - specialize (IH r2 ltac:(congruence)).
    assert (Hs : 0 <= pair_sum h r1 r2).
    { clear - Hpos. revert r2. induction r1 as [|a r1 IH]; intros [|b r2];
        cbn [pair_sum]; try lia.
      specialize (IH r2). specialize (Hpos a b). lia. }
    specialize (Hpos x y). split.
    + intros H. constructor; [apply Hz | apply IH]; lia.
    + intros H. inversion H; subst.
      apply Hz in H3. apply IH in H5. lia.
Qed.

Lemma Forall2_map_eq (f : Gene -> Z) g1 g2 :
  Forall2 (fun x y => f x = f y) g1 g2 <-> map f g1 = map f g2.
Proof.
  split.
  - induction 1; cbn [map]; congruence.
  - revert g2. induction g1 as [|x r1 IH]; intros [|y r2] H; cbn [map] in H;
      try discriminate; constructor.
    + now injection H.
    + apply IH. now injection H.
Qed.

Section FurtherSimilarity.

Variable geneWord : Gene -> Z.
Hypothesis geneWord_range : forall g, 0 <= geneWord g < 2 ^ 32.

Lemma differingBits_zero g1 g2 :
  size g1 = size g2 ->
  (differingBits geneWord g1 g2 = 0 <-> map geneWord g1 = map geneWord g2).
Proof.
  intros Hs. rewrite <- Forall2_map_eq. unfold differingBits.
  apply pair_sum_zero.
  - intros x y. apply popcount_range. apply lxor_range; apply geneWord_range.
  - intros x y. rewrite popcount_zero.
    + apply Z.lxor_eq_0_iff.
    + apply lxor_range; apply geneWord_range.
  - now apply size_eq_length.
Qed.

Lemma bit_quotient g1 g2 :
  g1 <> [] ->
  (2 * inject_Z (differingBits geneWord g1 g2) / inject_Z (32 * size g1)
   == inject_Z (differingBits geneWord g1 g2) / inject_Z (16 * size g1))%Q.
Proof.
  intros Hne. apply size_pos_iff in Hne.
  replace (32 * size g1) with (2 * (16 * size g1)) by lia.
  rewrite inject_Z_mult. change (inject_Z 2) with 2%Q.
  field. apply inject_Z_nonzero. lia.
Qed.

Lemma bit_quotient_bounds g1 g2 :
  g1 <> [] ->
  (0 <= inject_Z (differingBits geneWord g1 g2) / inject_Z (16 * size g1))%Q
  /\ ((1 <= inject_Z (differingBits geneWord g1 g2)
            / inject_Z (16 * size g1))%Q
      <-> 16 * size g1 <= differingBits geneWord g1 g2)
  /\ ((inject_Z (differingBits geneWord g1 g2) / inject_Z (16 * size g1)
       == 0)%Q
      <-> differingBits geneWord g1 g2 = 0).
Proof.
  intros Hne. apply size_pos_iff in Hne.
  pose proof (differingBits_bounds geneWord geneWord_range g1 g2) as Hb.
  set (d := differingBits geneWord g1 g2) in *.
  assert (Hc : (0 < inject_Z (16 * size g1))%Q)
    by (change 0%Q with (inject_Z 0); rewrite <- Zlt_Qlt; lia).
  assert (Hc' : ~ (inject_Z (16 * size g1) == 0)%Q)
    by (apply inject_Z_nonzero; lia).
  assert (Hm : (inject_Z d / inject_Z (16 * size g1)
                * inject_Z (16 * size g1) == inject_Z d)%Q)
    by (field; exact Hc').
  split; [|split].
  - apply Qle_shift_div_l; [exact Hc|]. rewrite Qmult_0_l.
    change 0%Q with (inject_Z 0). rewrite <- Zle_Qle. lia.
  - split.
    + intros H. apply (Qmult_le_compat_r _ _ (inject_Z (16 * size g1))) in H;
        [|now apply Qlt_le_weak].
      rewrite Hm, Qmult_1_l, <- Zle_Qle in H. exact H.
    + intros H. apply Qle_shift_div_l; [exact Hc|]. rewrite Qmult_1_l.
      now rewrite <- Zle_Qle.
  - split.
    + intros H. rewrite H, Qmult_0_l in Hm.
      unfold Qeq in Hm. simpl in Hm. lia.
    + intros ->. unfold Qdiv. apply Qmult_0_l.
Qed.

(** X1. [genesMatch] holds exactly for equal genes: all five fields are
    compared. *)
Theorem genesMatch_true_iff x y : genesMatch x y = true <-> x = y.
Proof.
  destruct x as [a1 b1 c1 d1 e1], y as [a2 b2 c2 d2 e2].
  unfold genesMatch. cbn [sinkNum sourceNum sinkType sourceType weight].
  rewrite !andb_true_iff, !Z.eqb_eq. split.
  - intros ((((H1 & H2) & H3) & H4) & H5). congruence.
  - intros H. injection H as -> -> -> -> ->. tauto.
Qed.

(** X2. [genomeSimilarity] fails in one way only: with
    [InvalidConfiguration], on genomes of equal length under a method other
    than 0, 1 and 2. The length assertions of the exact metrics are never
    hit through it. *)
Theorem genomeSimilarity_failure p g1 g2 e :
  genomeSimilarity geneWord p g1 g2 = Failed e
  <-> e = InvalidConfiguration
      /\ size g1 = size g2
      /\ genomeComparisonMethod p <> 0
      /\ genomeComparisonMethod p <> 1
      /\ genomeComparisonMethod p <> 2.
Proof.
  unfold genomeSimilarity, hammingDistanceBits, hammingDistanceBytes.
  destruct (Z.eqb_spec (size g1) (size g2)) as [Hs|Hs]; cbn [negb].
  - destruct (genomeComparisonMethod p) as [|[q|q|]|q]; cbn [negb];
      try destruct q; split;
      try discriminate;
      try (intros H; injection H as <-; repeat split; try discriminate;
           assumption);
      try (intros (_ & _ & H0 & H1 & H2); congruence);
      try (intros (-> & _); reflexivity).
  - split; [discriminate | tauto].
Qed.

(** X3. Under the approximate and the bit-level metric a non-empty genome
    compared with itself scores 1. *)
Theorem genomeSimilarity_identity p g :
  fits g -> g <> [] ->
  genomeComparisonMethod p = 0 \/ genomeComparisonMethod p = 1 ->
  genomeSimilarity geneWord p g g = Ok (Fin 1).
Proof. intros F N Hm. now apply genomeSimilarity_same. Qed.

(** X4. On non-empty genomes of equal length the word-level metric is the
    number of positions with identical words over four times the number of
    genes. *)
Theorem word_level_formula p g1 g2 :
  genomeComparisonMethod p = 2 ->
  size g1 = size g2 -> g1 <> [] -> fits g1 ->
  exists x,
    genomeSimilarity geneWord p g1 g2 = Ok x
    /\ value x (inject_Z (identicalCount geneWord g1 g2)
                / inject_Z (4 * size g1)).
Proof.
  intros Hm Hs Hne Hf. rewrite genomeSimilarity_equal_size, Hm by exact Hs.
  now apply hammingDistanceBytes_value.
Qed.

(** X5. On non-empty genomes of equal length and fewer than [2 ^ 21]
    genes the bit-level metric is 1 exactly when the two buffers hold the
    same words. Below [2 ^ 21] genes a single differing bit is more than
    half a unit in the last place of a [float] next to 1, so that the
    value returned as a [float] is 1 in no other case either. *)
Theorem bit_level_one_iff p g1 g2 :
  genomeComparisonMethod p = 1 ->
  size g1 = size g2 -> g1 <> [] -> size g1 < 2 ^ 21 ->
  (genomeSimilarity geneWord p g1 g2 = Ok (Fin 1)
   <-> map geneWord g1 = map geneWord g2).
Proof.
  intros Hm Hs Hne Hsz.
  assert (Hf : fits g1) by (unfold fits; lia).
  rewrite genomeSimilarity_equal_size, Hm by exact Hs.
  destruct (hammingDistanceBits_value geneWord geneWord_range g1 g2 Hs Hf Hne)
    as [x [E V]].
  rewrite E, <- (differingBits_zero g1 g2 Hs).
  destruct (bit_quotient_bounds g1 g2 Hne) as (H0 & _ & Hz).
  rewrite <- Hz.
  eapply value_eq in V;
    [|rewrite (bit_quotient g1 g2 Hne); reflexivity].
  pose proof (value_is x _ 1 V) as HI. change (Qred 1) with 1%Q in HI.
  split.
  - intros H. injection H as H. apply HI in H.
    destruct (Qlt_le_dec
                (inject_Z (differingBits geneWord g1 g2)
                 / inject_Z (16 * size g1)) 1) as [L|L].
    + rewrite Q.min_r in H by now apply Qlt_le_weak. lra.
    + rewrite Q.min_l in H by exact L. lra.
  - intros H. f_equal. apply HI. rewrite H.
    rewrite Q.min_r by discriminate. reflexivity.
Qed.

(** X6. On non-empty genomes of equal length and at most [2 ^ 24] genes
    the bit-level metric is 0 exactly when at least half of the bits
    differ: the doubled ratio is clipped at 1. Up to [2 ^ 24] genes the
    conversion of [lengthBits] to [float] is exact, so that the quotient
    reaches 1 in no other case. *)
Theorem bit_level_zero_iff p g1 g2 :
  genomeComparisonMethod p = 1 ->
  size g1 = size g2 -> g1 <> [] -> size g1 <= 2 ^ 24 ->
  (genomeSimilarity geneWord p g1 g2 = Ok (Fin 0)
   <-> 16 * size g1 <= differingBits geneWord g1 g2).
Proof.
  intros Hm Hs Hne Hsz.
  assert (Hf : fits g1) by (unfold fits; lia).
  rewrite genomeSimilarity_equal_size, Hm by exact Hs.
  destruct (hammingDistanceBits_value geneWord geneWord_range g1 g2 Hs Hf Hne)
    as [x [E V]].
  rewrite E.
  destruct (bit_quotient_bounds g1 g2 Hne) as (H0 & H1 & _).
  rewrite <- H1.
  eapply value_eq in V;
    [|rewrite (bit_quotient g1 g2 Hne); reflexivity].
  pose proof (value_is x _ 0 V) as HI. change (Qred 0) with 0%Q in HI.
  split.
  - intros H. injection H as H. apply HI in H.
    destruct (Qlt_le_dec
                (inject_Z (differingBits geneWord g1 g2)
                 / inject_Z (16 * size g1)) 1) as [L|L]; [|exact L].
    rewrite Q.min_r in H by now apply Qlt_le_weak. lra.
  - intros H. f_equal. apply HI.
    rewrite Q.min_l by exact H. reflexivity.
Qed.

End FurtherSimilarity.

(** ** The approximate metric: zero score and comparison window *)

Lemma jaro_winkler_positive sl al m t matchingPrefix :
  0 < m <= sl -> m <= al -> 0 <= t <= m -> 0 <= matchingPrefix ->
  (0 < jaro_winkler sl al m t matchingPrefix)%Q.
Proof.
  intros Hs Ha Ht Hp. unfold jaro_winkler. cbv zeta.
  pose proof (jaro_unit sl al m t Hs Ha Ht) as Hdw.
  assert (Hpos : (0 < jaro sl al m t)%Q).
  { unfold jaro.
    pose proof (ratio_unit m al ltac:(lia) ltac:(lia)) as H2.
    assert (Hq : 0 <= Z.quot t 2 <= t).
    { rewrite Z.quot_div_nonneg by lia. split.
      - apply Z.div_pos; lia.
      - apply Z.div_le_upper_bound; lia. }
    pose proof (ratio_unit (m - Z.quot t 2) m ltac:(lia) ltac:(lia)) as H3.
    assert (H1 : (0 < inject_Z m / inject_Z sl)%Q).
    { apply Qlt_shift_div_l.
      - change 0%Q with (inject_Z 0). rewrite <- Zlt_Qlt. lia.
      - rewrite Qmult_0_l. change 0%Q with (inject_Z 0).
        rewrite <- Zlt_Qlt. lia. }
    apply Qlt_shift_div_l; [reflexivity|]. lra. }
  assert (Hb : (0 <= (1 # 10) * inject_Z matchingPrefix
                     * (1 - jaro sl al m t))%Q).
  { apply Qmult_le_0_compat; [apply Qmult_le_0_compat|].
    - discriminate.
    - change 0%Q with (inject_Z 0). rewrite <- Zle_Qle. exact Hp.
    - lra. }
  apply Q.min_glb_lt; [reflexivity | lra].
Qed.

Lemma jaro_winkler_distance_zero g1 g2 :
  fits g1 -> fits g2 ->
  (jaro_winkler_distance g1 g2 = Fin 0 <-> ~ matchable g1 g2).
Proof.
  intros F1 F2. rewrite jaro_winkler_distance_eq. unfold matchable.
  cbv zeta. rewrite !fits_wrap_int by assumption.
  pose proof (size_nonneg g1) as N1. pose proof (size_nonneg g2) as N2.
  unfold maxNumGenesToCompare in *.
  set (sl := Z.min 20 (size g1)). set (al := Z.min 20 (size g2)).
  set (range := Z.max 0 (Z.quot (Z.max sl al) 2 - 1)).
  assert (Hsl : 0 <= sl) by (unfold sl; lia).
  assert (Hal : 0 <= al) by (unfold al; lia).
  destruct (Z.eqb_spec sl 0) as [Z1|Z1].
  { cbn [orb]. split; [|reflexivity].
    intros _ (i & j & _ & H & _). lia. }
  destruct (Z.eqb_spec al 0) as [Z2|Z2].
  { cbn [orb]. split; [|reflexivity].
    intros _ (i & j & H & _). lia. }
  cbn [orb].
  destruct (match_pass_describes range sl al g2 g1) as [M [HG HD]];
    try (unfold range; lia).
  destruct (match_pass range sl al g2 g1) as [[sf af] m] eqn:Est.
  cbn [fst snd].
  destruct (claimed_count range sl al g2 g1 M sf af m Hsl Hal HG HD)
    as [Ca Cs].
  pose proof (flagged_length af (Z.to_nat al) 0) as La.
  pose proof (flagged_length sf (Z.to_nat sl) 0) as Ls.
  unfold size in Ca, Cs.
  pose proof (mismatches_bounds
                (combine (map (gene_at g2) (flagged (Z.to_nat al) 0 af))
                         (map (gene_at g1) (flagged (Z.to_nat sl) 0 sf))))
    as Hmis.
  unfold size in Hmis. rewrite length_combine, !length_map in Hmis.
  pose proof (prefix_loop_bounds g1 g2
                (Z.to_nat (Z.min maxPrefixLength (Z.min sl al))) 0 0) as Hp.
  destruct HG as (G1 & _ & _ & G4). destruct HD as (_ & Hm & _).
  destruct (Z.eqb_spec m 0) as [Hz|Hz].
  - split; [|reflexivity]. intros _ (i & j & HE).
    assert (HM : M = []).
    { destruct M; [reflexivity|]. unfold size in Hm. simpl in Hm. lia. }
    subst M. destruct HE as (Hi & HE').
    destruct (G4 i j ltac:(lia) (conj Hi HE')) as [[i' [_ []]]|[j' [_ []]]].
  - split.
    + intros H. exfalso.
      pose proof (score_value sl al m
                    (trans_pass sl al g2 g1 af sf)
                    (prefix_loop
                       (Z.to_nat (Z.min maxPrefixLength (Z.min sl al))) 0
                       g1 g2 0) Z1 Z2 Hz) as V.
      rewrite H in V. unfold value in V. injection V as V.
      assert (Ht : 0 <= trans_pass sl al g2 g1 af sf <= m)
        by (rewrite trans_pass_eq by lia; lia).
      pose proof (jaro_winkler_positive sl al m
                    (trans_pass sl al g2 g1 af sf)
                    (prefix_loop
                       (Z.to_nat (Z.min maxPrefixLength (Z.min sl al))) 0
                       g1 g2 0) ltac:(lia) ltac:(lia) Ht ltac:(lia)) as Hpos.
      match type of V with
      | _ = Qred ?q => pose proof (Qred_correct q) as RC
      end.
      rewrite <- V in RC. lra.
    + intros H. exfalso. apply H.
      destruct M as [|[i j] M']; [unfold size in Hm; simpl in Hm; lia|].
      exists i, j. apply (G1 i j). now left.
Qed.

Lemma scan_ext ai s s' sflags : forall n j0,
  (forall k, j0 <= k < j0 + Z.of_nat n -> gene_at s k = gene_at s' k) ->
  scan n j0 ai s sflags = scan n j0 ai s' sflags.
Proof.
  induction n as [|n IH]; intros j0 H; [reflexivity|].
  cbn [scan]. rewrite (H j0) by lia. rewrite IH; [reflexivity|].
  intros k Hk. apply H. lia.
Qed.

Lemma prefix_loop_ext s a s' a' : forall n i acc,
  (forall k, i <= k < i + Z.of_nat n ->
             gene_at s k = gene_at s' k /\ gene_at a k = gene_at a' k) ->
  prefix_loop n i s a acc = prefix_loop n i s' a' acc.
Proof.
  induction n as [|n IH]; intros i acc H; [reflexivity|].
  cbn [prefix_loop]. destruct (H i ltac:(lia)) as [-> ->].
  rewrite IH; [reflexivity|]. intros k Hk. apply H. lia.
Qed.

Lemma match_pass_ext range sl al a s a' s' :
  0 <= sl -> 0 <= al ->
  (forall k, 0 <= k < sl -> gene_at s k = gene_at s' k) ->
  (forall k, 0 <= k < al -> gene_at a k = gene_at a' k) ->
  match_pass range sl al a s = match_pass range sl al a' s'.
Proof.
  intros Hsl Hal Hs Ha. unfold match_pass. apply for_loop_ext.
  intros i [[sf af] m] Hi. unfold match_step.
  rewrite (Ha i) by lia.
  rewrite (scan_ext _ s s'); [reflexivity|].
  intros k Hk. apply Hs. lia.
Qed.

Lemma trans_pass_ext sl al a s a' s' aflags sflags :
  0 <= sl -> 0 <= al ->
  (forall k, 0 <= k < sl -> gene_at s k = gene_at s' k) ->
  (forall k, 0 <= k < al -> gene_at a k = gene_at a' k) ->
  trans_pass sl al a s aflags sflags = trans_pass sl al a' s' aflags sflags.
Proof.
  intros Hsl Hal Hs Ha. rewrite !trans_pass_eq by assumption.
  f_equal. f_equal; apply map_ext_in; intros k Hk; apply In_flagged in Hk.
  - apply Ha. lia.
  - apply Hs. lia.
Qed.

(** The score depends on the genomes through their capped lengths and
    the genes below them only. *)
Lemma jaro_winkler_distance_agree g1 g2 g1' g2' :
  fits g1 -> fits g2 -> fits g1' -> fits g2' ->
  Z.min maxNumGenesToCompare (size g1)
  = Z.min maxNumGenesToCompare (size g1') ->
  Z.min maxNumGenesToCompare (size g2)
  = Z.min maxNumGenesToCompare (size g2') ->
  (forall k, 0 <= k < Z.min maxNumGenesToCompare (size g1) ->
             gene_at g1 k = gene_at g1' k) ->
  (forall k, 0 <= k < Z.min maxNumGenesToCompare (size g2) ->
             gene_at g2 k = gene_at g2' k) ->
  jaro_winkler_distance g1 g2 = jaro_winkler_distance g1' g2'.
Proof.
  intros F1 F2 F1' F2' E1 E2 H1 H2.
  rewrite !jaro_winkler_distance_eq. cbv zeta.
  rewrite !fits_wrap_int by assumption. rewrite <- E1, <- E2.
  pose proof (size_nonneg g1) as N1. pose proof (size_nonneg g2) as N2.
  set (sl := Z.min maxNumGenesToCompare (size g1)) in *.
  set (al := Z.min maxNumGenesToCompare (size g2)) in *.
  assert (Hsl : 0 <= sl) by (unfold sl, maxNumGenesToCompare; lia).
  assert (Hal : 0 <= al) by (unfold al, maxNumGenesToCompare; lia).
  set (range := Z.max 0 (Z.quot (Z.max sl al) 2 - 1)).
  destruct ((sl =? 0) || (al =? 0)); [reflexivity|].
  rewrite <- (match_pass_ext range sl al g2 g1 g2' g1') by assumption.
  destruct (snd (match_pass range sl al g2 g1) =? 0); [reflexivity|].
  rewrite <- (trans_pass_ext sl al g2 g1 g2' g1') by assumption.
  rewrite (prefix_loop_ext g1 g2 g1' g2'); [reflexivity|].
  intros k Hk. unfold maxPrefixLength in Hk. split; [apply H1 | apply H2]; lia.
Qed.

Lemma gene_at_firstn (g : Genome) n k :
  0 <= k < Z.of_nat n -> gene_at (firstn n g) k = gene_at g k.
Proof.
  intros Hk. unfold gene_at. rewrite nth_firstn.
  destruct (Nat.ltb_spec (Z.to_nat k) n); [reflexivity | lia].
Qed.

Lemma size_firstn (g : Genome) n :
  size (firstn n g) = Z.min (Z.of_nat n) (size g).
Proof. unfold size. rewrite length_firstn. lia. Qed.

(** X7. The approximate metric is 0 exactly when no gene of the second
    genome finds a matching gene of the first inside its window (in
    particular when either genome is empty). *)
Theorem jaro_winkler_distance_zero_iff g1 g2 :
  fits g1 -> fits g2 ->
  (jaro_winkler_distance g1 g2 = Fin 0 <-> ~ matchable g1 g2).
Proof. intros F1 F2. now apply jaro_winkler_distance_zero. Qed.

(** X8. The approximate metric reads the first 20 genes of each genome
    only. *)
Theorem jaro_winkler_distance_window g1 g2 :
  fits g1 -> fits g2 ->
  jaro_winkler_distance g1 g2
  = jaro_winkler_distance (firstn 20 g1) (firstn 20 g2).
Proof.
  intros F1 F2.
  assert (Hf : forall g, fits g -> fits (firstn 20 g)).
  { intros g F. unfold fits in *. rewrite size_firstn. lia. }
  apply jaro_winkler_distance_agree; auto.
  - rewrite size_firstn. unfold maxNumGenesToCompare. lia.
  - rewrite size_firstn. unfold maxNumGenesToCompare. lia.
  - intros k Hk. symmetry. apply gene_at_firstn.
    unfold maxNumGenesToCompare in Hk. lia.
  - intros k Hk. symmetry. apply gene_at_firstn.
    unfold maxNumGenesToCompare in Hk. lia.
Qed.

(** ** Further properties of geneticDiversity *)

Lemma accumulate_unit scores :
  Forall (fun r => exists x, r = Ok x /\ in_unit x) scores ->
  forall s, exists t,
    accumulate scores (Fin s) = Ok (Fin t)
    /\ (s <= t <= s + inject_Z (size scores))%Q.
Proof.
  induction 1 as [|r rest (x & -> & Hx) _ IH]; intros s.
  - exists s. split; [reflexivity|].
    change (inject_Z (size [])) with 0%Q. lra.
  - destruct x as [q| | |]; cbn [in_unit] in Hx; try contradiction.
    cbn [accumulate bind fadd]. unfold fin.
    destruct (IH (Qred (s + q))) as (t & E & Ht).
    exists t. split; [exact E|].
    rewrite Qred_correct in Ht.
    replace (size (Ok (Fin q) :: rest)) with (size rest + 1)
      by (unfold size; cbn [length]; lia).
    rewrite inject_Z_plus. change (inject_Z 1) with 1%Q. lra.
Qed.

Lemma accumulate_ones scores :
  Forall (fun r => r = Ok (Fin 1)) scores ->
  forall k, accumulate scores (of_Z k) = Ok (of_Z (k + size scores)).
Proof.
  induction 1 as [|r rest -> _ IH]; intros k.
  - cbn [accumulate]. unfold size. cbn [length]. now rewrite Z.add_0_r.
  - cbn [accumulate bind].
    assert (E : fadd (of_Z k) (Fin 1) = of_Z (k + 1)).
    { pose proof (value_add _ _ _ _ (value_of_Z k) (value_Fin 1 eq_refl)) as V.
      pose proof (value_of_Z (k + 1)) as V'.
      unfold value in V, V'. rewrite V, V'. f_equal. apply Qred_complete.
      rewrite inject_Z_plus. reflexivity. }
    rewrite E, IH. f_equal. f_equal. unfold size. cbn [length]. lia.
Qed.

Section FurtherDiversity.

Variable geneWord : Gene -> Z.
Hypothesis geneWord_range : forall g, 0 <= geneWord g < 2 ^ 32.
Variable RNG : Type.
Variable randomUint : Z -> Z -> RNG -> Z * RNG.
Hypothesis randomUint_range :
  forall lo hi rng, lo <= hi -> lo <= fst (randomUint lo hi rng) <= hi.

Lemma genomeSimilarity_in_unit p g1 g2 :
  fits g1 -> fits g2 ->
  genomeComparisonMethod p = 0 \/ genomeComparisonMethod p = 1
  \/ genomeComparisonMethod p = 2 ->
  (genomeComparisonMethod p <> 0 -> g1 <> []) ->
  exists x, genomeSimilarity geneWord p g1 g2 = Ok x /\ in_unit x.
Proof.
  intros F1 F2 Hm Hne.
  destruct (jaro_winkler_distance_value g1 g2 F1 F2) as [a [Va Ha]].
  destruct (Z.eq_dec (size g1) (size g2)) as [Hs|Hs].
  - rewrite genomeSimilarity_equal_size by exact Hs.
    destruct Hm as [Hm|[Hm|Hm]]; rewrite Hm.
    + eexists. split; [reflexivity|]. now apply (value_in_unit _ a).
    + specialize (Hne ltac:(lia)).
      destruct (hammingDistanceBits_value geneWord geneWord_range g1 g2
                  Hs F1 Hne) as [x [E V]].
      exists x. split; [exact E|].
      eapply value_eq in V;
        [|rewrite (bit_quotient geneWord g1 g2 Hne); reflexivity].
      eapply value_in_unit; [exact V|].
      destruct (bit_quotient_bounds geneWord geneWord_range g1 g2 Hne)
        as (H0 & _ & _).
      pose proof (Q.le_min_l 1 (inject_Z (differingBits geneWord g1 g2)
                                / inject_Z (16 * size g1))) as H1.
      assert (H2 : (0 <= Qmin 1 (inject_Z (differingBits geneWord g1 g2)
                                 / inject_Z (16 * size g1)))%Q)
        by (apply Q.min_glb; [discriminate | exact H0]).
      lra.
    + specialize (Hne ltac:(lia)).
      destruct (hammingDistanceBytes_quarter geneWord g1 g2 Hs Hne F1)
        as [q [E Hq]].
      rewrite E. eexists. split; [reflexivity|]. simpl. lra.
  - destruct (length_mismatch_value geneWord p g1 g2 a Hs Va) as [x [E V]].
    exists x. split; [exact E|]. eapply value_in_unit; [exact V|].
    pose proof (size_nonneg g1). pose proof (size_nonneg g2).
    pose proof (ratio_unit (Z.min (size g1) (size g2))
                  (Z.max (size g1) (size g2)) ltac:(lia) ltac:(lia)) as Hr.
    setoid_replace (8 # 10)%Q with (4 # 5)%Q by reflexivity.
    setoid_replace (2 # 10)%Q with (1 # 5)%Q by reflexivity.
    lra.
Qed.

Lemma geneticDiversity_eq peeps p rng :
  2 <= population p < 2 ^ 32 ->
  geneticDiversity geneWord RNG randomUint peeps p rng
  = bind (accumulate
            (map (adjacentSimilarity geneWord peeps p)
               (fst (draws RNG randomUint
                       (Z.to_nat (Z.min 1000 (population p))) 1
                       (population p - 1) rng)))
            (Fin 0))
      (fun sum =>
         Ok (fsub (Fin 1)
               (fdiv sum (of_Z (Z.min 1000 (population p)))),
             snd (draws RNG randomUint
                    (Z.to_nat (Z.min 1000 (population p))) 1
                    (population p - 1) rng))).
Proof.
  intros HN. unfold geneticDiversity.
  destruct (Z.ltb_spec (population p) 2); [lia|].
  rewrite (sample_loop_spec geneWord RNG randomUint randomUint_range peeps p)
    by lia.
  destruct (accumulate _ _); cbn [bind]; [|reflexivity].
  replace (0 + Z.of_nat (Z.to_nat (Z.min 1000 (population p))))
    with (Z.min 1000 (population p)) by lia.
  reflexivity.
Qed.

(** X9. With at least two individuals, a method among 0, 1 and 2 and
    genomes that are non-empty (where an exact metric may be used), the
    diversity is a value of the closed interval [0, 1]. *)
Theorem geneticDiversity_unit peeps p rng :
  2 <= population p < 2 ^ 32 ->
  genomeComparisonMethod p = 0 \/ genomeComparisonMethod p = 1
  \/ genomeComparisonMethod p = 2 ->
  (forall i, 1 <= i <= population p ->
     fits (genome (peeps i))
     /\ (genomeComparisonMethod p <> 0 -> genome (peeps i) <> [])) ->
  exists x rng',
    geneticDiversity geneWord RNG randomUint peeps p rng = Ok (x, rng')
    /\ in_unit x.
Proof.
  intros HN Hm Hg. rewrite geneticDiversity_eq by exact HN.
  set (n := Z.min 1000 (population p)).
  pose proof (draws_range RNG randomUint randomUint_range 1
                (population p - 1) ltac:(lia) (Z.to_nat n) rng) as Hr.
  pose proof (draws_length RNG randomUint 1 (population p - 1)
                (Z.to_nat n) rng) as Hl.
  set (indices := fst (draws RNG randomUint (Z.to_nat n) 1
                         (population p - 1) rng)) in *.
  assert (HF : Forall (fun r => exists x, r = Ok x /\ in_unit x)
                 (map (adjacentSimilarity geneWord peeps p) indices)).
  { apply Forall_map. eapply Forall_impl; [|exact Hr].
    intros i Hi. cbv beta in Hi. unfold adjacentSimilarity.
    destruct (Hg i ltac:(lia)) as [F1 N1].
    destruct (Hg (i + 1) ltac:(lia)) as [F2 _].
    now apply genomeSimilarity_in_unit. }
  destruct (accumulate_unit _ HF 0%Q) as (t & E & Ht).
  rewrite E. cbn [bind]. eexists. eexists. split; [reflexivity|].
  unfold size in Ht. rewrite length_map, Hl in Ht.
  assert (Hn : 2 <= n) by (unfold n; lia).
  rewrite Z2Nat.id in Ht by lia.
  assert (Hd : ~ (inject_Z n == 0)%Q) by (apply inject_Z_nonzero; lia).
  pose proof (value_sub _ _ _ _ (value_Fin 1 eq_refl)
                (value_div (Fin (Qred t)) (of_Z n) t (inject_Z n)
                   eq_refl (value_of_Z n) Hd)) as V.
  assert (ER : fdiv (Fin t) (of_Z n) = fdiv (Fin (Qred t)) (of_Z n)).
  { unfold fdiv, of_Z. destruct (Qeq_bool (inject_Z n) 0); [|].
    - rewrite (Qeq_bool_comm t), (Qeq_bool_comm (Qred t)).
      assert (Qeq_bool 0 t = Qeq_bool 0 (Qred t)) as ->.
      { destruct (Qeq_bool 0 t) eqn:A, (Qeq_bool 0 (Qred t)) eqn:B;
          try reflexivity.
        - apply Qeq_bool_eq in A. apply Qeq_bool_neq in B.
          exfalso. apply B. now rewrite Qred_correct.
        - apply Qeq_bool_eq in B. apply Qeq_bool_neq in A.
          exfalso. apply A. now rewrite Qred_correct in B. }
      destruct (Qeq_bool 0 (Qred t)); [reflexivity|].
      f_equal. unfold Qlt_bool. f_equal.
      destruct (Qle_bool t 0) eqn:A, (Qle_bool (Qred t) 0) eqn:B;
        try reflexivity.
      + apply Qle_bool_iff in A. rewrite <- (Qred_correct t) in A.
        apply Qle_bool_iff in A. congruence.
      + apply Qle_bool_iff in B. rewrite Qred_correct in B.
        apply Qle_bool_iff in B. congruence.
    - unfold fin. f_equal. apply Qred_complete. now rewrite Qred_correct. }
  rewrite ER. eapply value_in_unit; [exact V|].
  pose proof (ratio_unit 0 n ltac:(lia) ltac:(lia)) as _.
  assert (Hn' : (0 < inject_Z n)%Q)
    by (change 0%Q with (inject_Z 0); rewrite <- Zlt_Qlt; lia).
  assert (H0 : (0 <= t / inject_Z n)%Q).
  { apply Qle_shift_div_l; [exact Hn'|]. lra. }
  assert (H1 : (t / inject_Z n <= 1)%Q).
  { apply Qle_shift_div_r; [exact Hn'|]. lra. }
  lra.
Qed.

(** X10. When all individuals carry the same non-empty genome, the
    diversity under the approximate or the bit-level metric is 0. *)
Theorem geneticDiversity_uniform peeps p rng g :
  2 <= population p < 2 ^ 32 ->
  genomeComparisonMethod p = 0 \/ genomeComparisonMethod p = 1 ->
  fits g -> g <> [] ->
  (forall i, 1 <= i <= population p -> genome (peeps i) = g) ->
  exists rng',
    geneticDiversity geneWord RNG randomUint peeps p rng = Ok (Fin 0, rng').
Proof.
  intros HN Hm F N Hg. rewrite geneticDiversity_eq by exact HN.
  set (n := Z.min 1000 (population p)).
  pose proof (draws_range RNG randomUint randomUint_range 1
                (population p - 1) ltac:(lia) (Z.to_nat n) rng) as Hr.
  pose proof (draws_length RNG randomUint 1 (population p - 1)
                (Z.to_nat n) rng) as Hl.
  set (indices := fst (draws RNG randomUint (Z.to_nat n) 1
                         (population p - 1) rng)) in *.
  assert (HF : Forall (fun r => r = Ok (Fin 1))
                 (map (adjacentSimilarity geneWord peeps p) indices)).
  { apply Forall_map. eapply Forall_impl; [|exact Hr].
    intros i Hi. cbv beta in Hi. unfold adjacentSimilarity.
    rewrite (Hg i), (Hg (i + 1)) by lia.
    now apply genomeSimilarity_same. }
  pose proof (accumulate_ones _ HF 0) as E. change (of_Z 0) with (Fin 0) in E.
  rewrite E. cbn [bind]. eexists. f_equal. f_equal.
  unfold size. rewrite length_map, Hl, Z.add_0_l, Z2Nat.id
    by (unfold n; lia).
  assert (Hd : ~ (inject_Z n == 0)%Q)
    by (apply inject_Z_nonzero; unfold n; lia).
  apply value_zero.
  eapply value_eq;
    [|apply value_sub;
      [now apply (value_Fin 1)
      |apply value_div; [apply value_of_Z | apply value_of_Z | exact Hd]]].
  field. exact Hd.
Qed.

(** X11. The diversity depends on the individuals at indices 1 to
    [population] only. *)
Theorem geneticDiversity_reads peeps peeps' p rng :
  0 <= population p < 2 ^ 32 ->
  (forall i, 1 <= i <= population p ->
     genome (peeps i) = genome (peeps' i)) ->
  geneticDiversity geneWord RNG randomUint peeps p rng
  = geneticDiversity geneWord RNG randomUint peeps' p rng.
Proof.
  intros HN Hg.
  destruct (Z_lt_le_dec (population p) 2) as [Hlt|Hge].
  - unfold geneticDiversity.
    destruct (Z.ltb_spec (population p) 2); [reflexivity | lia].
  - rewrite !geneticDiversity_eq by lia.
    pose proof (draws_range RNG randomUint randomUint_range 1
                  (population p - 1) ltac:(lia)
                  (Z.to_nat (Z.min 1000 (population p))) rng) as Hr.
    rewrite (map_ext_in (adjacentSimilarity geneWord peeps p)
               (adjacentSimilarity geneWord peeps' p)); [reflexivity|].
    intros i Hi. rewrite Forall_forall in Hr. specialize (Hr i Hi).
    unfold adjacentSimilarity. now rewrite (Hg i), (Hg (i + 1)) by lia.
Qed.

End FurtherDiversity.

(** * Properties of analysis.cpp *)

(** ** averageGenomeLength *)

Section AverageLength.

Variable RNG : Type.
Variable randomUint : Z -> Z -> RNG -> Z * RNG.
Hypothesis randomUint_range :
  forall lo hi rng, lo <= hi -> lo <= fst (randomUint lo hi rng) <= hi.
Variable peeps : Z -> Indiv.
Variable ulongBits : Z.
Hypothesis ulongBits_min : 32 <= ulongBits.

Lemma wrap_ulong_small z : 0 <= z < 2 ^ 32 -> wrap_ulong ulongBits z = z.
Proof.
  intros H. unfold wrap_ulong. apply Z.mod_small.
  pose proof (Z.pow_le_mono_r 2 32 ulongBits ltac:(lia) ulongBits_min). lia.
Qed.

Lemma average_loop_spec p lo hi :
  1 <= population p ->
  (forall i, 1 <= i <= population p ->
     lo <= size (genome (peeps i)) <= hi) ->
  forall count sum numberSamples rng,
    0 <= sum -> sum + Z.of_nat count * hi < 2 ^ 32 ->
    0 <= numberSamples -> numberSamples + Z.of_nat count < 2 ^ 32 ->
    exists total,
      average_loop RNG randomUint peeps ulongBits p count
        (sum, numberSamples) rng
      = (total, numberSamples + Z.of_nat count,
         snd (draws RNG randomUint count 1 (population p) rng))
      /\ sum + Z.of_nat count * lo <= total <= sum + Z.of_nat count * hi.
Proof.
  intros HN Hg. induction count as [|count IH];
    intros sum k rng Hs Hb Hk Hkb.
  - exists sum. cbn [average_loop draws snd]. split; [|lia].
    now rewrite Z.add_0_r.
  - cbn [average_loop draws].
    pose proof (randomUint_range 1 (population p) rng HN) as Hi.
    destruct (randomUint 1 (population p) rng) as [index rng'].
    cbn [fst] in Hi. pose proof (Hg index Hi) as Hsz.
    pose proof (size_nonneg (genome (peeps index))) as Hnn.
    rewrite wrap_ulong_small by nia.
    rewrite wrap_unsigned_small by lia.
    destruct (IH (sum + size (genome (peeps index))) (k + 1) rng')
      as (total & E & Ht); try nia.
    exists total. rewrite E.
    destruct (draws RNG randomUint count 1 (population p) rng')
      as [rest rng''].
    cbn [snd]. split; [|nia].
    f_equal. f_equal. lia.
Qed.

(** X12. [averageGenomeLength] makes 100 draws from the closed interval
    [[1, population]], and its result lies between the smallest and the
    largest genome length of the population, as long as a hundred times
    the largest length is below [2 ^ 24]: the sum is then converted to
    [float] without rounding, and the bounds are values of [float]. *)
Theorem averageGenomeLength_bounds p rng lo hi :
  1 <= population p ->
  0 <= lo -> 100 * hi < 2 ^ 24 ->
  (forall i, 1 <= i <= population p ->
     lo <= size (genome (peeps i)) <= hi) ->
  exists q,
    averageGenomeLength RNG randomUint peeps ulongBits p rng
    = (Fin q, snd (draws RNG randomUint 100 1 (population p) rng))
    /\ (inject_Z lo <= q <= inject_Z hi)%Q.
Proof.
  intros HN Hlo Hhi Hg. unfold averageGenomeLength.
  destruct (average_loop_spec p lo hi HN Hg 100 0 0 rng)
    as (total & E & Ht); try lia.
  rewrite E. change (0 + Z.of_nat 100) with 100. cbn [Z.eqb].
  pose proof (value_div _ _ _ _ (value_of_Z total) (value_of_Z 100)
                ltac:(discriminate)) as V.
  unfold value in V. rewrite V. eexists. split; [reflexivity|].
  rewrite Qred_correct. change (inject_Z 100) with 100%Q.
  assert (H1 : (inject_Z (100 * lo) <= inject_Z total)%Q)
    by (rewrite <- Zle_Qle; lia).
  assert (H2 : (inject_Z total <= inject_Z (100 * hi))%Q)
    by (rewrite <- Zle_Qle; lia).
  rewrite inject_Z_mult in H1, H2. change (inject_Z 100) with 100%Q in H1, H2.
  split.
  - apply Qle_shift_div_l; [reflexivity|]. lra.
  - apply Qle_shift_div_r; [reflexivity|]. lra.
Qed.

End AverageLength.

Example printGenome_sample :
  printGenome packedWord [sampleGene; complementGene]
  = String.append "00640101 ff9bfefe" endl.
Proof. reflexivity. Qed.

Example to_string_samples :
  to_string 0 = "0"%string /\ to_string (-15) = "-15"%string
  /\ to_string 127 = "127"%string.
Proof. repeat split. Qed.

(** ** Strings and decimal numbers *)

Lemma in_int_wrap z : in_int z -> wrap_int z = z.
Proof. unfold in_int. intros H. now apply wrap_int_small. Qed.

Lemma to_int_nonnil z :
  Z.to_int z <> Decimal.Pos Decimal.Nil
  /\ Z.to_int z <> Decimal.Neg Decimal.Nil.
Proof.
  destruct z as [|q|q]; cbn [Z.to_int]; split; try discriminate;
    intros H; injection H; apply DecimalPos.Unsigned.to_uint_nonnil.
Qed.

Lemma to_string_inj a b : to_string a = to_string b -> a = b.
Proof.
  unfold to_string. intros H. apply DecimalZ.to_int_inj.
  destruct (to_int_nonnil a) as [A1 A2], (to_int_nonnil b) as [B1 B2].
  pose proof (DecimalString.NilZero.isi (Z.to_int a) A1 A2) as Ha.
  pose proof (DecimalString.NilZero.isi (Z.to_int b) B1 B2) as Hb.
  rewrite H in Ha. congruence.
Qed.

Lemma string_of_uint_digits d :
  all_chars digit_or_minus (DecimalString.NilEmpty.string_of_uint d) = true.
Proof.
  induction d; cbn [DecimalString.NilEmpty.string_of_uint all_chars];
    try reflexivity; rewrite IHd; reflexivity.
Qed.

Lemma to_string_chars z : all_chars digit_or_minus (to_string z) = true.
Proof.
  unfold to_string.
  assert (H : forall d,
             all_chars digit_or_minus
               (DecimalString.NilZero.string_of_uint d) = true).
  { intros d. destruct d; try reflexivity;
      apply (string_of_uint_digits (_ d)). }
  destruct (Z.to_int z) as [d|d];
    cbn [DecimalString.NilZero.string_of_int all_chars].
  - apply H.
  - rewrite H. reflexivity.
Qed.

Lemma to_string_head z :
  exists c r, to_string z = String.String c r /\ digit_or_minus c = true.
Proof.
  pose proof (to_string_chars z) as H.
  destruct (to_int_nonnil z) as [N1 N2]. unfold to_string in *.
  destruct (Z.to_int z) as [d|d].
  - destruct d; try (now contradiction N1);
      cbn in H |- *; eexists; eexists; (split; [reflexivity|]);
      reflexivity.
  - eexists. eexists. split; [reflexivity | reflexivity].
Qed.

Lemma all_chars_append P a b :
  all_chars P (String.append a b) = all_chars P a && all_chars P b.
Proof.
  induction a as [|c a IH]; cbn [String.append all_chars]; [reflexivity|].
  now rewrite IH, andb_assoc.
Qed.

Lemma all_chars_impl (P Q : Ascii.ascii -> bool) s :
  (forall c, P c = true -> Q c = true) ->
  all_chars P s = true -> all_chars Q s = true.
Proof.
  intros H. induction s as [|c s IH]; cbn [all_chars]; [reflexivity|].
  rewrite !andb_true_iff. intros [A B]. split; [now apply H | now apply IH].
Qed.

Lemma digit_or_minus_plain c : digit_or_minus c = true -> plain_char c = true.
Proof.
  unfold digit_or_minus. intros H. apply existsb_exists in H.
  destruct H as [d [Hin E]]. apply Ascii.eqb_eq in E. subst d.
  cbn [In] in Hin.
  repeat (destruct Hin as [<-|Hin]; [reflexivity|]). contradiction.
Qed.

Lemma to_string_plain z : plain (to_string z) = true.
Proof.
  unfold plain. eapply all_chars_impl; [|apply to_string_chars].
  apply digit_or_minus_plain.
Qed.

Lemma strip_append p s : strip p (String.append p s) = Some s.
Proof.
  induction p as [|c p IH]; cbn [String.append strip]; [now destruct s|].
  now rewrite Ascii.eqb_refl.
Qed.

Lemma numbered_to_string p z :
  numbered p (String.append p (to_string z)) = true.
Proof.
  unfold numbered. rewrite strip_append.
  destruct (to_string_head z) as (c & r & -> & H). exact H.
Qed.

Lemma append_inj_l p a b : String.append p a = String.append p b -> a = b.
Proof.
  induction p as [|c p IH]; cbn [String.append]; [auto|].
  intros H. injection H as H. now apply IH.
Qed.

Lemma append_assoc (a b c : string) :
  String.append (String.append a b) c = String.append a (String.append b c).
Proof.
  induction a as [|x a IH]; cbn [String.append]; [reflexivity|].
  now rewrite IH.
Qed.

Lemma append_nil_r (a : string) : String.append a String.EmptyString = a.
Proof.
  induction a as [|x a IH]; cbn [String.append]; [reflexivity|].
  now rewrite IH.
Qed.

(** Splitting at the first separator. *)
Lemma split_at sep : plain_char sep = false ->
  forall a a' b b',
    plain a = true -> plain a' = true ->
    String.append a (String.String sep b)
    = String.append a' (String.String sep b') ->
    a = a' /\ b = b'.
Proof.
  intros Hsep. unfold plain.
  induction a as [|x a IH]; intros [|y a'] b b' Pa Pa' H;
    cbn [String.append all_chars] in *.
  - injection H as H. now split.
  - injection H as H1 H2. subst y. rewrite Hsep in Pa'. discriminate.
  - injection H as H1 H2. subst x. rewrite Hsep in Pa. discriminate.
  - injection H as H1 H2. subst y.
    apply andb_true_iff in Pa, Pa'.
    assert (HI : a = a' /\ b = b') by (apply IH; tauto).
    destruct HI as [-> ->]. now split.
Qed.

Lemma distinct_NoDup l : distinct l = true -> NoDup l.
Proof.
  induction l as [|x r IH]; cbn [distinct]; [constructor|].
  rewrite andb_true_iff, negb_true_iff. intros [H1 H2].
  constructor; [|now apply IH].
  intros Hin. assert (existsb (String.eqb x) r = true); [|congruence].
  apply existsb_exists. exists x. split; [exact Hin | apply String.eqb_refl].
Qed.

Lemma NoDup_map_snd_inj {E : Type} (cases : list (E * string)) c c' :
  NoDup (map snd cases) -> In c cases -> In c' cases ->
  snd c = snd c' -> c = c'.
Proof.
  induction cases as [|d cases IH]; cbn [map In]; [contradiction|].
  intros ND [H|H] [H'|H'] E'; inversion ND as [|? ? Hnot ND']; subst.
  - reflexivity.
  - exfalso. apply Hnot. rewrite E'. now apply in_map.
  - exfalso. apply Hnot. rewrite <- E'. now apply in_map.
  - now apply IH.
Qed.

(** ** Names of sensors and actions *)

Section Named.

Context {E : Type}.
Variable value : E -> Z.
Variable bound : Z.
Variable cases : list (E * string).
Variable prefix : string.

Let fallback (x : Z) : string :=
  String.append prefix (to_string (wrap_int x)).

Let name (x : Z) : string :=
  if bound <=? x then fallback x else switch value x cases (fallback x).

Lemma name_cases x :
  name x = fallback x
  \/ exists c, In c cases /\ value (fst c) = x /\ name x = snd c.
Proof.
  unfold name. destruct (bound <=? x); [now left|].
  unfold switch.
  destruct (find (fun c => value (fst c) =? x) cases) as [c|] eqn:F;
    [|now left].
  apply find_some in F. destruct F as [Hin Hv]. apply Z.eqb_eq in Hv.
  right. now exists c.
Qed.

Lemma name_inj :
  distinct (map snd cases) = true ->
  forallb (fun c => negb (numbered prefix (snd c))) cases = true ->
  forall x y, in_int x -> in_int y -> name x = name y -> x = y.
Proof.
  intros HD HN x y Ix Iy H.
  apply distinct_NoDup in HD. rewrite forallb_forall in HN.
  assert (Hfb : forall c z, In c cases -> snd c <> fallback z).
  { intros c z Hin Hc. specialize (HN c Hin).
    rewrite Hc in HN. unfold fallback in HN.
    now rewrite numbered_to_string in HN. }
  destruct (name_cases x) as [Hx|(c & Hc & Vx & Hx)],
      (name_cases y) as [Hy|(c' & Hc' & Vy & Hy)].
  - rewrite Hx, Hy in H. unfold fallback in H.
    apply append_inj_l, to_string_inj in H.
    now rewrite !in_int_wrap in H.
  - exfalso. apply (Hfb c' x Hc'). congruence.
  - exfalso. apply (Hfb c y Hc). congruence.
  - assert (c = c') by (apply (NoDup_map_snd_inj cases); congruence).
    congruence.
Qed.

Lemma name_plain :
  forallb (fun c => plain (snd c)) cases = true ->
  plain prefix = true ->
  forall x, plain (name x) = true.
Proof.
  intros HP Hp x. rewrite forallb_forall in HP.
  destruct (name_cases x) as [->|(c & Hc & _ & ->)]; [|now apply HP].
  unfold fallback, plain. rewrite all_chars_append.
  apply andb_true_iff. split; [exact Hp | apply to_string_plain].
Qed.

Lemma name_not_numbered q :
  forallb (fun c => negb (numbered q (snd c))) cases = true ->
  (forall r, numbered q (String.append prefix r) = false) ->
  forall x, numbered q (name x) = false.
Proof.
  intros HQ Hq x. rewrite forallb_forall in HQ.
  destruct (name_cases x) as [->|(c & Hc & _ & ->)].
  - apply Hq.
  - apply negb_true_iff. now apply HQ.
Qed.

End Named.

Section NameFacts.

Variable sensorValue : Sensor -> Z.
Variable NUM_SENSES : Z.
Variable actionValue : Action -> Z.
Variable NUM_ACTIONS : Z.

(** X13. The mnemonic names are unambiguous: two sensor numbers with the
    same short name are equal, and so are two action numbers. *)
Theorem short_names_injective a b :
  in_int a -> in_int b ->
  (sensorShortName sensorValue NUM_SENSES a
   = sensorShortName sensorValue NUM_SENSES b -> a = b)
  /\ (actionShortName actionValue NUM_ACTIONS a
      = actionShortName actionValue NUM_ACTIONS b -> a = b).
Proof.
  intros Ia Ib. split; intros H.
  - unfold sensorShortName in H.
    eapply (name_inj sensorValue NUM_SENSES _ "S"%string);
      [| | exact Ia | exact Ib | exact H]; reflexivity.
  - unfold actionShortName in H.
    eapply (name_inj actionValue NUM_ACTIONS _ "A"%string);
      [| | exact Ia | exact Ib | exact H]; reflexivity.
Qed.

(** X14. The descriptive names are unambiguous in the same way. *)
Theorem long_names_injective a b :
  in_int a -> in_int b ->
  (sensorName sensorValue NUM_SENSES a = sensorName sensorValue NUM_SENSES b
   -> a = b)
  /\ (actionName actionValue NUM_ACTIONS a
      = actionName actionValue NUM_ACTIONS b -> a = b).
Proof.
  intros Ia Ib. split; intros H.
  - unfold sensorName in H.
    eapply (name_inj sensorValue NUM_SENSES _ "unknown sensor "%string);
      [| | exact Ia | exact Ib | exact H]; reflexivity.
  - unfold actionName in H.
    eapply (name_inj actionValue NUM_ACTIONS _ "unknown action "%string);
      [| | exact Ia | exact Ib | exact H]; reflexivity.
Qed.

End NameFacts.

(** ** Indiv::printIGraphEdgeList *)

Lemma label_inj (f : Z -> string) :
  (forall x y, in_int x -> in_int y -> f x = f y -> x = y) ->
  (forall x, numbered "N"%string (f x) = false) ->
  forall (b b' : bool) n n',
    in_int n -> in_int n' ->
    (if b then f n else String.append "N"%string (to_string n))
    = (if b' then f n' else String.append "N"%string (to_string n')) ->
    b = b' /\ n = n'.
Proof.
  intros Hinj HN b b' n n' In In' H.
  destruct b, b'.
  - split; [reflexivity | now apply Hinj].
  - exfalso. pose proof (HN n) as C. rewrite H in C.
    now rewrite numbered_to_string in C.
  - exfalso. pose proof (HN n') as C. rewrite <- H in C.
    now rewrite numbered_to_string in C.
  - split; [reflexivity|]. now apply append_inj_l, to_string_inj in H.
Qed.

Lemma label_plain (f : Z -> string) :
  (forall x, plain (f x) = true) ->
  forall (b : bool) n,
    plain (if b then f n else String.append "N"%string (to_string n)) = true.
Proof.
  intros Hp b n. destruct b; [apply Hp|].
  unfold plain. rewrite all_chars_append.
  apply andb_true_iff. split; [reflexivity | apply to_string_plain].
Qed.

Lemma append_not_empty a c b :
  String.append a (String.String c b) <> String.EmptyString.
Proof. destruct a; discriminate. Qed.

Section EdgeList.

Variable sensorValue : Sensor -> Z.
Variable NUM_SENSES : Z.
Variable actionValue : Action -> Z.
Variable NUM_ACTIONS : Z.
Variable SENSOR : Z.
Variable ACTION : Z.

Let sensorLabel := sensorShortName sensorValue NUM_SENSES.
Let actionLabel := actionShortName actionValue NUM_ACTIONS.
Let line := edgeLine sensorValue NUM_SENSES actionValue NUM_ACTIONS
              SENSOR ACTION.
Let write := write_edges sensorValue NUM_SENSES actionValue NUM_ACTIONS
               SENSOR ACTION.

Lemma sensorLabel_facts :
  (forall x y, in_int x -> in_int y -> sensorLabel x = sensorLabel y -> x = y)
  /\ (forall x, numbered "N"%string (sensorLabel x) = false)
  /\ (forall x, plain (sensorLabel x) = true).
Proof.
  unfold sensorLabel, sensorShortName. split; [|split].
  - intros x y Ix Iy H.
    eapply (name_inj sensorValue NUM_SENSES _ "S"%string);
      [| | exact Ix | exact Iy | exact H]; reflexivity.
  - intros x.
    apply (name_not_numbered sensorValue NUM_SENSES _ "S"%string);
      [reflexivity | intros r; reflexivity].
  - intros x.
    apply (name_plain sensorValue NUM_SENSES _ "S"%string); reflexivity.
Qed.

Lemma actionLabel_facts :
  (forall x y, in_int x -> in_int y -> actionLabel x = actionLabel y -> x = y)
  /\ (forall x, numbered "N"%string (actionLabel x) = false)
  /\ (forall x, plain (actionLabel x) = true).
Proof.
  unfold actionLabel, actionShortName. split; [|split].
  - intros x y Ix Iy H.
    eapply (name_inj actionValue NUM_ACTIONS _ "A"%string);
      [| | exact Ix | exact Iy | exact H]; reflexivity.
  - intros x.
    apply (name_not_numbered actionValue NUM_ACTIONS _ "A"%string);
      [reflexivity | intros r; reflexivity].
  - intros x.
    apply (name_plain actionValue NUM_ACTIONS _ "A"%string); reflexivity.
Qed.

Lemma line_text conn T :
  String.append (line conn) T
  = String.append
      (if sourceType conn =? SENSOR then sensorLabel (sourceNum conn)
       else String.append "N"%string (to_string (sourceNum conn)))
      (String.String " "%char
         (String.append
            (if sinkType conn =? ACTION then actionLabel (sinkNum conn)
             else String.append "N"%string (to_string (sinkNum conn)))
            (String.String " "%char
               (String.append (to_string (weight conn))
                  (String.String "010"%char T))))).
Proof.
  unfold line, edgeLine, endl, sensorLabel, actionLabel.
  rewrite !append_assoc. reflexivity.
Qed.

Lemma write_edges_text : forall connections out,
  write connections out
  = String.append out (write connections String.EmptyString).
Proof.
  unfold write.
  induction connections as [|c r IH]; intros out; cbn [write_edges].
  - now rewrite append_nil_r.
  - rewrite IH.
    rewrite (IH (String.append String.EmptyString _)).
    cbn [String.append]. now rewrite append_assoc.
Qed.

Lemma line_inj c c' T T' :
  in_int (sourceNum c) -> in_int (sinkNum c) ->
  in_int (sourceNum c') -> in_int (sinkNum c') ->
  String.append (line c) T = String.append (line c') T' ->
  edgeKey SENSOR ACTION c = edgeKey SENSOR ACTION c' /\ T = T'.
Proof.
  intros I1 I2 I1' I2' H. rewrite !line_text in H.
  destruct sensorLabel_facts as (Si & Sn & Sp).
  destruct actionLabel_facts as (Ai & An & Ap).
  apply (split_at " "%char eq_refl) in H;
    [|now apply label_plain | now apply label_plain].
  destruct H as [Hsrc H].
  apply (split_at " "%char eq_refl) in H;
    [|now apply label_plain | now apply label_plain].
  destruct H as [Hsink H].
  apply (split_at "010"%char eq_refl) in H;
    [|apply to_string_plain | apply to_string_plain].
  destruct H as [Hw HT].
  apply (label_inj sensorLabel Si Sn) in Hsrc; [|assumption|assumption].
  apply (label_inj actionLabel Ai An) in Hsink; [|assumption|assumption].
  apply to_string_inj in Hw.
  destruct Hsrc as [E1 E2], Hsink as [E3 E4].
  unfold edgeKey. rewrite E1, E2, E3, E4, Hw. now split.
Qed.

(** X15. The edge list determines the net: two lists of connections with
    the same printed text agree, connection by connection, on whether the
    source is a sensor, on the source number, on whether the sink is an
    action, on the sink number and on the weight. *)
Theorem edge_list_determines_connections connections connections' :
  Forall (fun c => in_int (sourceNum c) /\ in_int (sinkNum c)) connections ->
  Forall (fun c => in_int (sourceNum c) /\ in_int (sinkNum c)) connections' ->
  printIGraphEdgeList sensorValue NUM_SENSES actionValue NUM_ACTIONS
    SENSOR ACTION connections
  = printIGraphEdgeList sensorValue NUM_SENSES actionValue NUM_ACTIONS
      SENSOR ACTION connections' ->
  map (edgeKey SENSOR ACTION) connections
  = map (edgeKey SENSOR ACTION) connections'.
Proof.
  unfold printIGraphEdgeList. fold write.
  intros F. revert connections'.
  induction F as [|c r [I1 I2] _ IH]; intros [|c' r'] F' H.
  - reflexivity.
  - exfalso. cbn [write_edges] in H. unfold write in H.
    cbn [write_edges] in H. fold write in H.
    rewrite write_edges_text in H. cbn [String.append] in H.
    fold line in H. rewrite line_text in H. symmetry in H.
    destruct (sourceType c' =? SENSOR);
      now apply append_not_empty in H.
  - exfalso. unfold write in H. cbn [write_edges] in H. fold write in H.
    rewrite write_edges_text in H. cbn [String.append] in H.
    fold line in H. rewrite line_text in H.
    destruct (sourceType c =? SENSOR);
      now apply append_not_empty in H.
  - inversion F' as [|? ? [I1' I2'] F'']; subst.
    unfold write in H. cbn [write_edges] in H. fold write in H.
    rewrite (write_edges_text r), (write_edges_text r') in H.
    cbn [String.append] in H. fold line in H.
    apply line_inj in H; try assumption.
    destruct H as [K T]. cbn [map]. rewrite K. f_equal. now apply IH.
Qed.

End EdgeList.

(** ** Indiv::printGenome *)

Lemma length_append (a b : string) :
  String.length (String.append a b)
  = (String.length a + String.length b)%nat.
Proof.
  induction a as [|c a IH]; cbn [String.append String.length];
    [reflexivity | now rewrite IH].
Qed.

Lemma substring_prefix (a b : string) :
  String.substring 0 (String.length a) (String.append a b) = a.
Proof.
  induction a as [|c a IH]; cbn [String.append String.length String.substring].
  - now destruct b.
  - now rewrite IH.
Qed.

Lemma substring_skip (a b : string) n m :
  String.substring (String.length a + n) m (String.append a b)
  = String.substring n m b.
Proof.
  induction a as [|c a IH]; cbn [String.append String.length Nat.add];
    [reflexivity|].
  cbn [String.substring]. exact IH.
Qed.

Lemma get_skip (a b : string) n :
  String.get (String.length a + n) (String.append a b) = String.get n b.
Proof.
  induction a as [|c a IH]; cbn [String.append String.length Nat.add];
    [reflexivity|].
  cbn [String.get]. exact IH.
Qed.

Lemma hex8_length n : String.length (hex8 n) = 8%nat.
Proof. reflexivity. Qed.

Lemma hexValue_hexDigit d : 0 <= d < 16 -> hexValue (hexDigit d) = d.
Proof.
  intros H.
  assert (C : d = 0 \/ d = 1 \/ d = 2 \/ d = 3 \/ d = 4 \/ d = 5 \/ d = 6
              \/ d = 7 \/ d = 8 \/ d = 9 \/ d = 10 \/ d = 11 \/ d = 12
              \/ d = 13 \/ d = 14 \/ d = 15) by lia.
  repeat (destruct C as [->|C]; [reflexivity|]). now subst.
Qed.

Lemma nibble_step a b k :
  0 <= k ->
  a / 16 ^ (k + 1) = b / 16 ^ (k + 1) ->
  (a / 16 ^ k) mod 16 = (b / 16 ^ k) mod 16 ->
  a / 16 ^ k = b / 16 ^ k.
Proof.
  intros Hk Hq Hr.
  assert (Hp : 0 < 16 ^ k) by (apply Z.pow_pos_nonneg; lia).
  rewrite (Z.div_mod (a / 16 ^ k) 16), (Z.div_mod (b / 16 ^ k) 16) by lia.
  rewrite !Z.div_div by lia.
  replace (16 ^ k * 16) with (16 ^ (k + 1))
    by (rewrite Z.pow_add_r by lia; lia).
  now rewrite Hq, Hr.
Qed.

Lemma hex8_inj a b :
  0 <= a < 2 ^ 32 -> 0 <= b < 2 ^ 32 -> hex8 a = hex8 b -> a = b.
Proof.
  intros Ha Hb H. unfold hex8 in H.
  apply (f_equal String.list_ascii_of_string) in H.
  rewrite !String.list_ascii_of_string_of_list_ascii in H.
  cbn [map] in H.
  assert (Hd : forall x y, hexDigit (x mod 16) = hexDigit (y mod 16) ->
                           x mod 16 = y mod 16).
  { intros x y E. apply (f_equal hexValue) in E.
    now rewrite !hexValue_hexDigit in E by (apply Z.mod_pos_bound; lia). }
  injection H as H7 H6 H5 H4 H3 H2 H1 H0.
  apply Hd in H7, H6, H5, H4, H3, H2, H1, H0.
  assert (E8 : a / 16 ^ (7 + 1) = b / 16 ^ (7 + 1)).
  { change (16 ^ (7 + 1)) with (2 ^ 32). now rewrite !Z.div_small. }
  pose proof (nibble_step a b 7 ltac:(lia) E8 H7) as E7.
  pose proof (nibble_step a b 6 ltac:(lia) E7 H6) as E6.
  pose proof (nibble_step a b 5 ltac:(lia) E6 H5) as E5.
  pose proof (nibble_step a b 4 ltac:(lia) E5 H4) as E4.
  pose proof (nibble_step a b 3 ltac:(lia) E4 H3) as E3.
  pose proof (nibble_step a b 2 ltac:(lia) E3 H2) as E2.
  pose proof (nibble_step a b 1 ltac:(lia) E2 H1) as E1.
  pose proof (nibble_step a b 0 ltac:(lia) E1 H0) as E0.
  change (16 ^ 0) with 1 in E0. now rewrite !Z.div_1_r in E0.
Qed.

Section PrintGenomeFacts.

Variable geneWord : Gene -> Z.

Let text (genome : Genome) (count : Z) : string :=
  printGenome_loop geneWord genome count String.EmptyString.

Lemma printGenome_loop_step gene rest count out :
  printGenome_loop geneWord (gene :: rest) count out
  = printGenome_loop geneWord rest (nextCount count)
      (String.append (String.append out (separator count))
         (hex8 (geneWord gene))).
Proof.
  cbn [printGenome_loop]. unfold separator, nextCount.
  destruct (count =? genesPerLine); [reflexivity|].
  destruct (count =? 0); cbn [negb]; [|reflexivity].
  now rewrite append_nil_r.
Qed.

Lemma printGenome_loop_text : forall genes count out,
  printGenome_loop geneWord genes count out
  = String.append out (text genes count).
Proof.
  unfold text. induction genes as [|gene rest IH]; intros count out.
  - cbn [printGenome_loop]. now rewrite append_nil_r.
  - rewrite !printGenome_loop_step. rewrite IH.
    rewrite (IH _ (String.append (String.append String.EmptyString _) _)).
    cbn [String.append]. now rewrite !append_assoc.
Qed.

Lemma text_cons gene rest count :
  text (gene :: rest) count
  = String.append (separator count)
      (String.append (hex8 (geneWord gene)) (text rest (nextCount count))).
Proof.
  unfold text at 1. rewrite printGenome_loop_step, printGenome_loop_text.
  cbn [String.append]. now rewrite append_assoc.
Qed.

Lemma separator_char count :
  1 <= count <= 8 ->
  separator count
  = String.String (if count =? 8 then "010"%char else " "%char)
      String.EmptyString.
Proof.
  intros H. unfold separator, genesPerLine, endl.
  destruct (Z.eqb_spec count 8); [reflexivity|].
  destruct (Z.eqb_spec count 0); [lia | reflexivity].
Qed.

Lemma nextCount_range count : 0 <= count <= 8 -> 1 <= nextCount count <= 8.
Proof.
  intros H. unfold nextCount, genesPerLine.
  destruct (Z.eqb_spec count 8); lia.
Qed.

Lemma text_layout : forall genes count tail k,
  1 <= count <= 8 -> (k < length genes)%nat ->
  String.substring (9 * k + 1) 8
    (String.append (text genes count) (String.String "010"%char tail))
  = hex8 (geneWord (nth k genes noGene))
  /\ String.get (9 * k + 9)
       (String.append (text genes count) (String.String "010"%char tail))
     = Some (if (S k =? length genes)%nat
                || ((count + Z.of_nat k) mod 8 =? 7)
             then "010"%char else " "%char).
Proof.
  induction genes as [|gene rest IH]; intros count tail k Hc Hk;
    [simpl in Hk; lia|].
  rewrite text_cons, (separator_char count Hc).
  cbn [String.append]. rewrite append_assoc.
  pose proof (nextCount_range count ltac:(lia)) as Hn.
  destruct k as [|k].
  - cbn [Nat.mul Nat.add nth]. split.
    + cbn [String.substring].
      rewrite <- (hex8_length (geneWord gene)) at 1.
      apply substring_prefix.
    + change 9%nat with (S (String.length (hex8 (geneWord gene)) + 0)).
      cbn [String.get]. rewrite get_skip.
      destruct rest as [|gene2 rest2].
      * reflexivity.
      * rewrite text_cons, (separator_char _ Hn).
        cbn [String.append String.get].
        f_equal. cbn [length Nat.eqb orb]. rewrite Z.add_0_r.
        unfold nextCount, genesPerLine.
        destruct (Z.eqb_spec count 8) as [->|]; [reflexivity|].
        destruct (Z.eqb_spec (count + 1) 8), (Z.eqb_spec (count mod 8) 7);
          try reflexivity; exfalso;
          rewrite Z.mod_small in * by lia; lia.
  - cbn [nth length] in *.
    destruct (IH (nextCount count) tail k Hn ltac:(lia)) as [I1 I2].
    split.
    + replace (9 * S k + 1)%nat
        with (S (String.length (hex8 (geneWord gene)) + (9 * k + 1)))
        by (rewrite hex8_length; lia).
      cbn [String.substring]. rewrite substring_skip. exact I1.
    + replace (9 * S k + 9)%nat
        with (S (String.length (hex8 (geneWord gene)) + (9 * k + 9)))
        by (rewrite hex8_length; lia).
      cbn [String.get]. rewrite get_skip, I2. f_equal.
      cbn [Nat.eqb].
      replace ((nextCount count + Z.of_nat k) mod 8)
        with ((count + Z.of_nat (S k)) mod 8); [reflexivity|].
      unfold nextCount, genesPerLine.
      destruct (Z.eqb_spec count 8) as [->|].
      * replace (8 + Z.of_nat (S k)) with (0 + 1 + Z.of_nat k + 1 * 8) by lia.
        now rewrite Z.mod_add by lia.
      * f_equal. lia.
Qed.

Lemma text_length : forall genes count,
  1 <= count <= 8 ->
  String.length (text genes count) = (9 * length genes)%nat.
Proof.
  induction genes as [|gene rest IH]; intros count Hc; [reflexivity|].
  rewrite text_cons, (separator_char count Hc).
  cbn [String.append String.length]. rewrite length_append, hex8_length.
  rewrite IH by (apply nextCount_range; lia). cbn [length]. lia.
Qed.

Lemma printGenome_cons gene rest :
  printGenome geneWord (gene :: rest)
  = String.append (hex8 (geneWord gene))
      (String.append (text rest 1)
         (String.String "010"%char String.EmptyString)).
Proof.
  unfold printGenome. fold (text (gene :: rest) 0).
  rewrite text_cons. cbn [separator Z.eqb genesPerLine negb String.append].
  change (nextCount 0) with 1. now rewrite append_assoc.
Qed.

Lemma printGenome_length genome :
  String.length (printGenome geneWord genome)
  = match genome with [] => 1%nat | _ => (9 * length genome)%nat end.
Proof.
  destruct genome as [|gene rest]; [reflexivity|].
  rewrite printGenome_cons, !length_append, hex8_length.
  rewrite text_length by lia. cbn [String.length length]. lia.
Qed.

Lemma printGenome_word genome k :
  (k < length genome)%nat ->
  String.substring (9 * k) 8 (printGenome geneWord genome)
  = hex8 (geneWord (nth k genome noGene)).
Proof.
  intros Hk. destruct genome as [|gene rest]; [simpl in Hk; lia|].
  rewrite printGenome_cons. destruct k as [|k].
  - cbn [Nat.mul nth]. rewrite <- (hex8_length (geneWord gene)) at 1.
    apply substring_prefix.
  - cbn [nth length] in *.
    replace (9 * S k)%nat
      with (String.length (hex8 (geneWord gene)) + (9 * k + 1))%nat
      by (rewrite hex8_length; lia).
    rewrite substring_skip.
    now apply text_layout; [lia | lia].
Qed.

(** X16. [printGenome] writes the word of gene [k] as eight hexadecimal
    digits at offset [9 k]; the character after it is a line feed after
    every eighth gene and after the last one, and a space otherwise. *)
Theorem printGenome_layout genome k :
  (k < length genome)%nat ->
  String.substring (9 * k) 8 (printGenome geneWord genome)
  = hex8 (geneWord (nth k genome noGene))
  /\ String.get (9 * k + 8) (printGenome geneWord genome)
     = Some (if (S k =? length genome)%nat || (Z.of_nat (S k) mod 8 =? 0)
             then "010"%char else " "%char).
Proof.
  intros Hk. split; [now apply printGenome_word|].
  destruct genome as [|gene rest]; [simpl in Hk; lia|].
  rewrite printGenome_cons. destruct k as [|k].
  - change (9 * 0 + 8)%nat
      with (String.length (hex8 (geneWord gene)) + 0)%nat.
    rewrite get_skip. destruct rest as [|gene2 rest2]; [reflexivity|].
    rewrite text_cons. reflexivity.
  - cbn [length] in *.
    replace (9 * S k + 8)%nat
      with (String.length (hex8 (geneWord gene)) + (9 * k + 9))%nat
      by (rewrite hex8_length; lia).
    rewrite get_skip.
    destruct (text_layout rest 1 String.EmptyString k ltac:(lia) ltac:(lia))
      as [_ ->].
    f_equal.
    change (S (S k) =? S (length rest))%nat with (S k =? length rest)%nat.
    replace (Z.of_nat (S (S k))) with ((1 + Z.of_nat k) + 1) by lia.
    destruct ((S k =? length rest)%nat); [reflexivity|]. cbn [orb].
    destruct (Z.eqb_spec ((1 + Z.of_nat k) mod 8) 7) as [E|E],
        (Z.eqb_spec ((1 + Z.of_nat k + 1) mod 8) 0) as [E'|E'];
      try reflexivity; exfalso; revert E E';
      rewrite (Z.add_mod (1 + Z.of_nat k) 1 8) by lia;
      pose proof (Z.mod_pos_bound (1 + Z.of_nat k) 8 ltac:(lia)) as B;
      intros E E'.
    + rewrite E in E'. now cbn in E'.
    + assert (C : (1 + Z.of_nat k) mod 8 = 0 \/ (1 + Z.of_nat k) mod 8 = 1
                  \/ (1 + Z.of_nat k) mod 8 = 2 \/ (1 + Z.of_nat k) mod 8 = 3
                  \/ (1 + Z.of_nat k) mod 8 = 4 \/ (1 + Z.of_nat k) mod 8 = 5
                  \/ (1 + Z.of_nat k) mod 8 = 6) by lia.
      repeat (destruct C as [C|C]; [rewrite C in E'; now cbn in E'|]).
      rewrite C in E'. now cbn in E'.
Qed.

(** X17. The print determines the words: two genomes of 32-bit words with
    the same printed text have the same words, gene by gene. *)
Theorem printGenome_determines_words genome genome' :
  (forall g, 0 <= geneWord g < 2 ^ 32) ->
  printGenome geneWord genome = printGenome geneWord genome' ->
  map geneWord genome = map geneWord genome'.
Proof.
  intros Hr H.
  assert (Hl : length genome = length genome').
  { pose proof (f_equal String.length H) as L.
    rewrite !printGenome_length in L.
    destruct genome, genome'; cbn [length] in *; lia. }
  apply (nth_ext _ _ 0 0); [now rewrite !length_map|].
  intros k Hk. rewrite length_map in Hk.
  rewrite !(nth_indep _ 0 (geneWord noGene))
    by (rewrite length_map; lia).
  rewrite !map_nth.
  apply hex8_inj; try apply Hr.
  rewrite <- (printGenome_word genome k Hk).
  rewrite <- (printGenome_word genome' k ltac:(lia)).
  now rewrite H.
Qed.

End PrintGenomeFacts.

(** ** Lines of text *)

Lemma unlines_app (l l' : list string) :
  unlines (l ++ l') = String.append (unlines l) (unlines l').
Proof.
  induction l as [|x l IH]; [reflexivity|].
  cbn [app unlines fold_right]. fold (unlines (l ++ l')). fold (unlines l).
  now rewrite IH, !append_assoc.
Qed.

Lemma for_loop_lines (h : Z -> list string) (body : Z -> string -> string) :
  (forall i out, body i out = String.append out (unlines (h i))) ->
  forall n a out,
    for_loop n (Z.of_nat a) body out
    = String.append out (unlines (flat_map h (map Z.of_nat (seq a n)))).
Proof.
  intros Hb. induction n as [|n IH]; intros a out.
  - cbn. now rewrite append_nil_r.
  - cbn [for_loop seq map flat_map].
    replace (Z.of_nat a + 1) with (Z.of_nat (S a)) by lia.
    now rewrite IH, Hb, unlines_app, append_assoc.
Qed.

Lemma flat_map_single {A B} (f : A -> B) (l : list A) :
  flat_map (fun x => [f x]) l = map f l.
Proof. induction l as [|x l IH]; [reflexivity|]. cbn. now rewrite IH. Qed.

Lemma flat_map_guard {A B} (c c' : A -> bool) (f f' : A -> B) (l : list A) :
  (forall x, In x l -> c x = c' x /\ f x = f' x) ->
  flat_map (fun x => if c x then [f x] else []) l = map f' (filter c' l).
Proof.
  induction l as [|x l IH]; intros H; [reflexivity|].
  cbn [flat_map filter].
  destruct (H x (or_introl eq_refl)) as [Hc Hf].
  rewrite IH by (intros y Hy; apply H; now right).
  rewrite <- Hc. destruct (c x); [|reflexivity].
  cbn [map app]. now rewrite Hf.
Qed.

Lemma In_below n i : In i (below n) <-> 0 <= i < n.
Proof.
  unfold below. rewrite in_map_iff. split.
  - intros (k & <- & Hk). apply in_seq in Hk. lia.
  - intros H. exists (Z.to_nat i). split; [lia|]. apply in_seq. lia.
Qed.

Lemma NoDup_below n : NoDup (below n).
Proof.
  unfold below. apply NoDup_map_NoDup_ForallPairs; [|apply seq_NoDup].
  intros x y _ _. apply Nat2Z.inj.
Qed.

Lemma one_line_append a b :
  one_line (String.append a b) = one_line a && one_line b.
Proof. apply all_chars_append. Qed.

Lemma one_line_to_string z : one_line (to_string z) = true.
Proof.
  unfold one_line.
  apply (all_chars_impl digit_or_minus); [|apply to_string_chars].
  intros c H. unfold digit_or_minus in H. cbn [existsb] in H.
  destruct (Ascii.eqb_spec c "010"%char) as [->|]; [discriminate H|].
  reflexivity.
Qed.

Section NamedLines.

Context {E : Type}.
Variable value : E -> Z.
Variable bound : Z.
Variable cases : list (E * string).
Variable prefix : string.

Let name (x : Z) : string :=
  if bound <=? x then String.append prefix (to_string (wrap_int x))
  else switch value x cases (String.append prefix (to_string (wrap_int x))).

Lemma name_one_line :
  forallb (fun c => one_line (snd c)) cases = true ->
  one_line prefix = true ->
  forall x, one_line (name x) = true.
Proof.
  intros HP Hp x. rewrite forallb_forall in HP.
  destruct (name_cases value bound cases prefix x)
    as [H|(c & Hc & _ & H)]; unfold name; rewrite H.
  - rewrite one_line_append, Hp, one_line_to_string. reflexivity.
  - now apply HP.
Qed.

Lemma nameLines_NoDup :
  distinct (map snd cases) = true ->
  forallb (fun c => negb (numbered prefix (snd c))) cases = true ->
  forall n, 0 <= n < 2 ^ 31 -> NoDup (nameLines name n).
Proof.
  intros HD HN n Hn. unfold nameLines.
  apply NoDup_map_NoDup_ForallPairs; [|apply NoDup_below].
  intros x y Hx Hy H. apply In_below in Hx, Hy.
  apply append_inj_l in H.
  apply (name_inj value bound cases prefix HD HN); [| |exact H];
    unfold in_int; lia.
Qed.

End NamedLines.

(** ** printSensorsActions *)

Lemma write_names_text (name : Z -> string) bound out :
  0 <= bound < 2 ^ 32 ->
  write_names name bound out
  = String.append out (unlines (nameLines name bound)).
Proof.
  intros Hb. unfold write_names, nameLines, below.
  rewrite wrap_unsigned_small by exact Hb.
  change 0 with (Z.of_nat 0).
  rewrite (for_loop_lines (fun i => [String.append "  "%string (name i)])).
  - now rewrite flat_map_single.
  - intros i o. cbn [unlines fold_right].
    now rewrite append_nil_r, !append_assoc.
Qed.

Section ListingFacts.

Variable sensorValue : Sensor -> Z.
Variable NUM_SENSES : Z.
Variable actionValue : Action -> Z.
Variable NUM_ACTIONS : Z.

Lemma sensorName_one_line x :
  one_line (sensorName sensorValue NUM_SENSES x) = true.
Proof.
  unfold sensorName.
  apply (name_one_line sensorValue NUM_SENSES _ "unknown sensor "%string);
    reflexivity.
Qed.

Lemma actionName_one_line x :
  one_line (actionName actionValue NUM_ACTIONS x) = true.
Proof.
  unfold actionName.
  apply (name_one_line actionValue NUM_ACTIONS _ "unknown action "%string);
    reflexivity.
Qed.

Lemma nameLines_one_line (name : Z -> string) n :
  (forall x, one_line (name x) = true) ->
  Forall (fun line => one_line line = true) (nameLines name n).
Proof.
  intros H. unfold nameLines. apply Forall_map, Forall_forall.
  intros i _. rewrite one_line_append, H. reflexivity.
Qed.

(** X18. [printSensorsActions] writes the heading [Sensors:], one line for
    each of the numbers below [NUM_SENSES] with the name of that sensor,
    the heading [Actions:], one line for each action, and an empty line.
    No name holds a line feed, and no two sensors and no two actions are
    listed under the same name. *)
Theorem printSensorsActions_lines :
  0 <= NUM_SENSES < 2 ^ 31 -> 0 <= NUM_ACTIONS < 2 ^ 31 ->
  let sensors := nameLines (sensorName sensorValue NUM_SENSES) NUM_SENSES in
  let actions := nameLines (actionName actionValue NUM_ACTIONS) NUM_ACTIONS in
  printSensorsActions sensorValue NUM_SENSES actionValue NUM_ACTIONS
  = unlines ("Sensors:"%string :: sensors
             ++ "Actions:"%string :: actions ++ [String.EmptyString])
  /\ Forall (fun line => one_line line = true) (sensors ++ actions)
  /\ NoDup sensors /\ NoDup actions.
Proof.
  intros Hs Ha sensors actions. split; [|split; [|split]].
  - unfold printSensorsActions.
    rewrite !write_names_text by lia. fold sensors. fold actions.
    change (unlines ("Sensors:"%string :: sensors
                     ++ "Actions:"%string :: actions ++ [String.EmptyString]))
      with (String.append "Sensors:"%string
              (String.append endl
                 (unlines (sensors ++ "Actions:"%string :: actions
                             ++ [String.EmptyString])))).
    rewrite unlines_app.
    change (unlines ("Actions:"%string :: actions ++ [String.EmptyString]))
      with (String.append "Actions:"%string
              (String.append endl
                 (unlines (actions ++ [String.EmptyString])))).
    rewrite unlines_app.
    change (unlines [String.EmptyString]) with endl.
    now rewrite !append_assoc.
  - apply Forall_app. split; apply nameLines_one_line;
      [apply sensorName_one_line | apply actionName_one_line].
  - unfold sensors, sensorName.
    apply (nameLines_NoDup sensorValue NUM_SENSES _
             "unknown sensor "%string); [reflexivity | reflexivity | lia].
  - unfold actions, actionName.
    apply (nameLines_NoDup actionValue NUM_ACTIONS _
             "unknown action "%string); [reflexivity | reflexivity | lia].
Qed.

End ListingFacts.

(** ** displaySensorActionReferenceCounts *)

Lemma size_increment counts num : size (increment counts num) = size counts.
Proof. unfold size, increment. now rewrite update_length. Qed.

Lemma count_at_increment counts num k :
  0 <= num < size counts -> 0 <= k ->
  count_at (increment counts num) k
  = if k =? num then wrap_unsigned (count_at counts num + 1)
    else count_at counts k.
Proof.
  unfold size, increment, count_at. intros Hn Hk.
  rewrite nth_update by lia.
  destruct (Z.eqb_spec k num) as [->|Hne].
  - now rewrite Nat.eqb_refl.
  - destruct (Nat.eqb_spec (Z.to_nat k) (Z.to_nat num)); [lia|reflexivity].
Qed.

Lemma count_at_repeat n k : count_at (repeat 0 n) k = 0.
Proof. apply flag_at_repeat. Qed.

Lemma wrap_unsigned_range z : 0 <= wrap_unsigned z < 2 ^ 32.
Proof. unfold wrap_unsigned. apply Z.mod_pos_bound. lia. Qed.

(** A loop that adds one to the count of each selected gene. *)
Lemma tally_fold (step : list Z -> Gene -> list Z)
    (sel : Z -> Gene -> bool) (bound : Z) :
  (forall c g, size c = bound -> size (step c g) = bound) ->
  (forall c g k, size c = bound -> 0 <= k < bound ->
     count_at (step c g) k
     = if sel k g then wrap_unsigned (count_at c k + 1) else count_at c k) ->
  forall genes c,
    size c = bound ->
    (forall k, 0 <= k < bound -> 0 <= count_at c k < 2 ^ 32) ->
    size (fold_left step genes c) = bound
    /\ forall k, 0 <= k < bound ->
         count_at (fold_left step genes c) k
         = wrap_unsigned (count_at c k + size (filter (sel k) genes)).
Proof.
  intros Hsize Hstep. induction genes as [|g genes IH]; intros c Hc Hr.
  - split; [exact Hc|]. intros k Hk. cbn [filter fold_left].
    change (size (@nil Gene)) with 0.
    rewrite Z.add_0_r, wrap_unsigned_small; [reflexivity | now apply Hr].
  - cbn [fold_left].
    destruct (IH (step c g)) as [I1 I2].
    + now apply Hsize.
    + intros k Hk. rewrite Hstep by assumption.
      destruct (sel k g); [apply wrap_unsigned_range | now apply Hr].
    + split; [exact I1|]. intros k Hk.
      rewrite I2, Hstep by assumption. cbn [filter].
      destruct (sel k g); [|reflexivity].
      unfold size. cbn [length]. unfold wrap_unsigned.
      rewrite Zplus_mod_idemp_l. f_equal. lia.
Qed.

Section ReferenceCountFacts.

Variable sensorValue : Sensor -> Z.
Variable NUM_SENSES : Z.
Variable actionValue : Action -> Z.
Variable NUM_ACTIONS : Z.
Variable SENSOR : Z.
Variable ACTION : Z.
Variable alive : Z -> bool.
Variable connections : Z -> list Gene.

Hypothesis NUM_SENSES_range : 0 <= NUM_SENSES < 2 ^ 32.
Hypothesis NUM_ACTIONS_range : 0 <= NUM_ACTIONS < 2 ^ 32.

Let sensorStep (counts : list Z) (gene : Gene) : list Z :=
  fst (countGene NUM_SENSES NUM_ACTIONS SENSOR ACTION (counts, []) gene).

Let actionStep (counts : list Z) (gene : Gene) : list Z :=
  snd (countGene NUM_SENSES NUM_ACTIONS SENSOR ACTION ([], counts) gene).

Lemma countGene_split sensorCounts actionCounts gene :
  countGene NUM_SENSES NUM_ACTIONS SENSOR ACTION
    (sensorCounts, actionCounts) gene
  = (sensorStep sensorCounts gene, actionStep actionCounts gene).
Proof. reflexivity. Qed.

Lemma fold_countGene_split genes : forall sensorCounts actionCounts,
  fold_left (countGene NUM_SENSES NUM_ACTIONS SENSOR ACTION) genes
    (sensorCounts, actionCounts)
  = (fold_left sensorStep genes sensorCounts,
     fold_left actionStep genes actionCounts).
Proof.
  induction genes as [|g genes IH]; intros sc ac; [reflexivity|].
  cbn [fold_left]. now rewrite countGene_split, IH.
Qed.

Lemma sensorStep_size c g :
  size c = NUM_SENSES -> size (sensorStep c g) = NUM_SENSES.
Proof.
  intros Hc. unfold sensorStep, countGene. cbn [fst].
  destruct (sourceType g =? SENSOR); [|exact Hc].
  destruct (_ && _); [|exact Hc]. now rewrite size_increment.
Qed.

Lemma sensorStep_count c g k :
  size c = NUM_SENSES -> 0 <= k < NUM_SENSES ->
  count_at (sensorStep c g) k
  = if fromSensor SENSOR k g then wrap_unsigned (count_at c k + 1)
    else count_at c k.
Proof.
  intros Hc Hk. unfold sensorStep, countGene, fromSensor. cbn [fst].
  destruct (sourceType g =? SENSOR); cbn [andb]; [|reflexivity].
  rewrite (wrap_unsigned_small NUM_SENSES), Hc by exact NUM_SENSES_range.
  pose proof (wrap_unsigned_range (sourceNum g)) as Hw.
  rewrite andb_diag.
  destruct (Z.ltb_spec (wrap_unsigned (sourceNum g)) NUM_SENSES) as [Hlt|Hge].
  - rewrite count_at_increment by lia.
    rewrite (Z.eqb_sym (wrap_unsigned (sourceNum g)) k).
    now destruct (Z.eqb_spec k (wrap_unsigned (sourceNum g))) as [->|].
  - destruct (Z.eqb_spec (wrap_unsigned (sourceNum g)) k); [lia|reflexivity].
Qed.

Lemma actionStep_size c g :
  size c = NUM_ACTIONS -> size (actionStep c g) = NUM_ACTIONS.
Proof.
  intros Hc. unfold actionStep, countGene. cbn [snd].
  destruct (sinkType g =? ACTION); [|exact Hc].
  destruct (_ <? _); [|exact Hc]. now rewrite size_increment.
Qed.

Lemma actionStep_count c g k :
  size c = NUM_ACTIONS -> 0 <= k < NUM_ACTIONS ->
  count_at (actionStep c g) k
  = if toAction ACTION k g then wrap_unsigned (count_at c k + 1)
    else count_at c k.
Proof.
  intros Hc Hk. unfold actionStep, countGene, toAction. cbn [snd].
  destruct (sinkType g =? ACTION); cbn [andb]; [|reflexivity].
  rewrite (wrap_unsigned_small NUM_ACTIONS) by exact NUM_ACTIONS_range.
  pose proof (wrap_unsigned_range (sinkNum g)) as Hw.
  destruct (Z.ltb_spec (wrap_unsigned (sinkNum g)) NUM_ACTIONS) as [Hlt|Hge].
  - rewrite count_at_increment by lia.
    rewrite (Z.eqb_sym (wrap_unsigned (sinkNum g)) k).
    now destruct (Z.eqb_spec k (wrap_unsigned (sinkNum g))) as [->|].
  - destruct (Z.eqb_spec (wrap_unsigned (sinkNum g)) k); [lia|reflexivity].
Qed.

(** The loop over the population visits the connections of the
    individuals counted, in order. *)
Lemma countIndiv_fold (indices : list Z) : forall st,
  fold_left (fun st index =>
               countIndiv NUM_SENSES NUM_ACTIONS SENSOR ACTION alive
                 connections index st) indices st
  = fold_left (countGene NUM_SENSES NUM_ACTIONS SENSOR ACTION)
      (flat_map connections
         (filter (fun index => (index <=? 65535) && alive index) indices))
      st.
Proof.
  induction indices as [|i indices IH]; intros st; [reflexivity|].
  cbn [fold_left filter]. rewrite IH. unfold countIndiv.
  rewrite Z.leb_antisym.
  destruct (65535 <? i); cbn [negb andb]; [reflexivity|].
  destruct (alive i); [|reflexivity].
  cbn [flat_map]. now rewrite fold_left_app.
Qed.

Lemma count_loop_run population : forall n a fuel st,
  population < 2 ^ 32 - 1 ->
  (Z.of_nat a + Z.of_nat n = population + 1) ->
  (n < fuel)%nat ->
  count_loop NUM_SENSES NUM_ACTIONS SENSOR ACTION alive connections fuel
    population (Z.of_nat a) st
  = Some (fold_left
            (fun st index =>
               countIndiv NUM_SENSES NUM_ACTIONS SENSOR ACTION alive
                 connections index st)
            (map Z.of_nat (seq a n)) st).
Proof.
  induction n as [|n IH]; intros a fuel st Hp Ha Hf;
    (destruct fuel as [|fuel]; [lia|]); cbn [count_loop].
  - destruct (Z.leb_spec (Z.of_nat a) population); [lia|reflexivity].
  - destruct (Z.leb_spec (Z.of_nat a) population); [|lia].
    rewrite wrap_unsigned_small by lia.
    replace (Z.of_nat a + 1) with (Z.of_nat (S a)) by lia.
    rewrite IH by lia. reflexivity.
Qed.

Lemma count_loop_endless : forall fuel index st,
  0 <= index < 2 ^ 32 ->
  count_loop NUM_SENSES NUM_ACTIONS SENSOR ACTION alive connections fuel
    (2 ^ 32 - 1) index st
  = None.
Proof.
  induction fuel as [|fuel IH]; intros index st Hi; [reflexivity|].
  cbn [count_loop].
  destruct (Z.leb_spec index (2 ^ 32 - 1)); [|lia].
  apply IH, wrap_unsigned_range.
Qed.

Lemma write_counts_text (name : Z -> string) (count : Z -> Z) bound counts
    out :
  0 <= bound < 2 ^ 32 -> size counts = bound ->
  (forall k, 0 <= k < bound -> count_at counts k = count k) ->
  write_counts name bound counts out
  = String.append out (unlines (countLines name count bound)).
Proof.
  intros Hb Hs Hc. unfold write_counts, countLines, below.
  rewrite wrap_unsigned_small, Hs, Z.min_id by exact Hb.
  change 0 with (Z.of_nat 0) at 1.
  rewrite (for_loop_lines
             (fun i =>
                if 0 <? count_at counts i then
                  [String.append "  "%string
                     (String.append (to_string (count_at counts i))
                        (String.append " - "%string (name i)))]
                else [])).
  - f_equal. f_equal. apply flat_map_guard.
    intros k Hk. apply (In_below bound) in Hk. now rewrite Hc.
  - intros i o. destruct (0 <? count_at counts i).
    + cbn [unlines fold_right].
      now rewrite append_nil_r, !append_assoc.
    + cbn [unlines fold_right]. now rewrite append_nil_r.
Qed.

(** X19. [displaySensorActionReferenceCounts] ends for every population
    below [2 ^ 32 - 1] and reports, for each sensor and each action, the
    number of connections from it (to it) among the living individuals at
    the indices 1 to [population] that do not exceed 65535: one line for
    each non-zero count, in the order of the numbers, after the headings
    [Sensors in use:] and [Actions in use:]. *)
Theorem displaySensorActionReferenceCounts_text fuel p :
  0 <= population p < 2 ^ 32 - 1 ->
  (Z.to_nat (population p) < fuel)%nat ->
  displaySensorActionReferenceCounts sensorValue NUM_SENSES actionValue
    NUM_ACTIONS SENSOR ACTION alive connections fuel p
  = Some
      (unlines
         ("Sensors in use:"%string
          :: countLines (sensorName sensorValue NUM_SENSES)
               (fun num =>
                  references alive connections (fromSensor SENSOR num)
                    (population p))
               NUM_SENSES
          ++ "Actions in use:"%string
          :: countLines (actionName actionValue NUM_ACTIONS)
               (fun num =>
                  references alive connections (toAction ACTION num)
                    (population p))
               NUM_ACTIONS)).
Proof.
  intros Hp Hf. unfold displaySensorActionReferenceCounts.
  change 1 with (Z.of_nat 1) at 1.
  rewrite (count_loop_run (population p) (Z.to_nat (population p)))
    by lia.
  rewrite countIndiv_fold, fold_countGene_split.
  fold (counted alive (population p)).
  set (genes := flat_map connections (counted alive (population p))).
  destruct (tally_fold sensorStep (fromSensor SENSOR) NUM_SENSES
              sensorStep_size sensorStep_count genes
              (repeat 0 (Z.to_nat NUM_SENSES))) as [S1 S2].
  { now apply size_repeat. }
  { intros k _. rewrite count_at_repeat. lia. }
  destruct (tally_fold actionStep (toAction ACTION) NUM_ACTIONS
              actionStep_size actionStep_count genes
              (repeat 0 (Z.to_nat NUM_ACTIONS))) as [A1 A2].
  { now apply size_repeat. }
  { intros k _. rewrite count_at_repeat. lia. }
  f_equal.
  rewrite (write_counts_text _
             (fun num => references alive connections (fromSensor SENSOR num)
                           (population p)) NUM_SENSES);
    [|exact NUM_SENSES_range | exact S1
     |intros k Hk; rewrite S2, count_at_repeat by exact Hk; reflexivity].
  rewrite (write_counts_text _
             (fun num => references alive connections (toAction ACTION num)
                           (population p)) NUM_ACTIONS);
    [|exact NUM_ACTIONS_range | exact A1
     |intros k Hk; rewrite A2, count_at_repeat by exact Hk; reflexivity].
  cbn [unlines fold_right].
  match goal with
  | |- _ = String.append _ (String.append _ (fold_right ?f ?e (?a ++ ?b))) =>
      change (fold_right f e (a ++ b)) with (unlines (a ++ b))
  end.
  rewrite unlines_app. cbn [unlines fold_right].
  now rewrite !append_assoc.
Qed.

(** X20. With a population of [2 ^ 32 - 1] the condition
    [index <= p.population] holds for every [unsigned] index: the loop
    over the population does not end, whatever the fuel. *)
Theorem displaySensorActionReferenceCounts_endless fuel method :
  displaySensorActionReferenceCounts sensorValue NUM_SENSES actionValue
    NUM_ACTIONS SENSOR ACTION alive connections fuel
    (mkParams (2 ^ 32 - 1) method)
  = None.
Proof.
  unfold displaySensorActionReferenceCounts. cbn [population].
  now rewrite count_loop_endless by lia.
Qed.

End ReferenceCountFacts.

(** ** displaySampleGenomes *)

Section SampleGenomeFacts.

Variable geneWord : Gene -> Z.
Variable sensorValue : Sensor -> Z.
Variable NUM_SENSES : Z.
Variable actionValue : Action -> Z.
Variable NUM_ACTIONS : Z.
Variable SENSOR : Z.
Variable ACTION : Z.
Variable peeps : Z -> Indiv.
Variable alive : Z -> bool.
Variable connections : Z -> list Gene.

Let block : Z -> string :=
  sampleBlock geneWord sensorValue NUM_SENSES actionValue NUM_ACTIONS SENSOR
    ACTION peeps connections.

Lemma sample_genomes_loop_run population : forall n a fuel count out,
  population < 2 ^ 32 - 1 ->
  Z.of_nat a + Z.of_nat n = population + 1 ->
  (n < fuel)%nat ->
  0 <= count < 2 ^ 32 ->
  sample_genomes_loop geneWord sensorValue NUM_SENSES actionValue NUM_ACTIONS
    SENSOR ACTION peeps alive connections fuel population count
    (Z.of_nat a) out
  = Some (String.append out
            (blocks block
               (firstn (Z.to_nat count)
                  (filter alive (map Z.of_nat (seq a n)))))).
Proof.
  induction n as [|n IH]; intros a fuel count out Hp Ha Hf Hc;
    (destruct fuel as [|fuel]; [lia|]); cbn [sample_genomes_loop].
  - destruct (Z.leb_spec (Z.of_nat a) population); [lia|].
    rewrite andb_false_r. cbn [seq map filter].
    rewrite firstn_nil. cbn [blocks fold_right]. now rewrite append_nil_r.
  - destruct (Z.leb_spec (Z.of_nat a) population); [|lia].
    rewrite andb_true_r.
    destruct (Z.ltb_spec 0 count) as [Hpos|Hzero].
    + cbn [seq map filter].
      rewrite (wrap_unsigned_small (Z.of_nat a + 1)) by lia.
      replace (Z.of_nat a + 1) with (Z.of_nat (S a)) by lia.
      destruct (alive (Z.of_nat a)).
      * rewrite wrap_unsigned_small by lia.
        rewrite IH by lia.
        replace (Z.to_nat count) with (S (Z.to_nat (count - 1))) by lia.
        cbn [firstn blocks fold_right]. now rewrite append_assoc.
      * now rewrite IH by lia.
    + replace count with 0 by lia. cbn [Z.to_nat firstn blocks fold_right].
      now rewrite append_nil_r.
Qed.

(** X21. [displaySampleGenomes] ends for every population below
    [2 ^ 32 - 1]; it writes the block of each of the first [count] living
    individuals among the indices 1 to [population], in the order of the
    indices, and then the text of
    [displaySensorActionReferenceCounts]. *)
Theorem displaySampleGenomes_text fuel count p :
  0 <= count < 2 ^ 32 ->
  0 <= population p < 2 ^ 32 - 1 ->
  (Z.to_nat (population p) < fuel)%nat ->
  exists text,
    displaySensorActionReferenceCounts sensorValue NUM_SENSES actionValue
      NUM_ACTIONS SENSOR ACTION alive connections fuel p
    = Some text
    /\ displaySampleGenomes geneWord sensorValue NUM_SENSES actionValue
         NUM_ACTIONS SENSOR ACTION peeps alive connections fuel count p
       = Some (String.append
                 (blocks block (sampled alive count (population p)))
                 text).
Proof.
  intros Hc Hp Hf.
  assert (Hn : Z.of_nat 1 + Z.of_nat (Z.to_nat (population p))
               = population p + 1) by lia.
  assert (Hlt : population p < 2 ^ 32 - 1) by lia.
  pose proof (sample_genomes_loop_run (population p)
                (Z.to_nat (population p)) 1%nat fuel count
                String.EmptyString Hlt Hn Hf Hc) as L.
  pose proof (count_loop_run NUM_SENSES NUM_ACTIONS SENSOR ACTION alive
                connections (population p) (Z.to_nat (population p)) 1%nat
                fuel
                (repeat 0 (Z.to_nat NUM_SENSES),
                 repeat 0 (Z.to_nat NUM_ACTIONS)) Hlt Hn Hf) as C.
  change (Z.of_nat 1) with 1 in L, C.
  unfold displaySampleGenomes, displaySensorActionReferenceCounts.
  rewrite L, C.
  destruct (fold_left _ _ _) as [sensorCounts actionCounts].
  eexists. split; reflexivity.
Qed.

End SampleGenomeFacts.

(** ** Instances of the further properties *)

Lemma genomeSimilarity_identity_witness :
  genomeSimilarity packedWord (withMethod 1) [sampleGene; complementGene]
    [sampleGene; complementGene]
  = Ok (Fin 1).
Proof.
  apply (genomeSimilarity_identity packedWord packedWord_range);
    [exact fits_sample_pair | discriminate | right; reflexivity].
Defined.

Lemma word_level_formula_witness :
  exists x,
    genomeSimilarity packedWord (withMethod 2) [sampleGene; complementGene]
      [sampleGene; sampleGene] = Ok x
    /\ value x (inject_Z (identicalCount packedWord
                            [sampleGene; complementGene]
                            [sampleGene; sampleGene])
                / inject_Z (4 * size [sampleGene; complementGene])).
Proof.
  apply (word_level_formula packedWord (withMethod 2));
    [reflexivity | reflexivity | discriminate | exact fits_sample_pair].
Defined.

Lemma bit_level_one_iff_witness :
  genomeSimilarity packedWord (withMethod 1) [sampleGene; complementGene]
    [sampleGene; sampleGene] = Ok (Fin 1)
  <-> map packedWord [sampleGene; complementGene]
      = map packedWord [sampleGene; sampleGene].
Proof.
  apply (bit_level_one_iff packedWord packedWord_range (withMethod 1));
    [reflexivity | reflexivity | discriminate | cbn; lia].
Defined.

Lemma bit_level_zero_iff_witness :
  genomeSimilarity packedWord (withMethod 1) [sampleGene; complementGene]
    [sampleGene; sampleGene] = Ok (Fin 0)
  <-> 16 * size [sampleGene; complementGene]
      <= differingBits packedWord [sampleGene; complementGene]
           [sampleGene; sampleGene].
Proof.
  apply (bit_level_zero_iff packedWord packedWord_range (withMethod 1));
    [reflexivity | reflexivity | discriminate | cbn; lia].
Defined.

Lemma jaro_winkler_distance_zero_iff_witness :
  jaro_winkler_distance [sampleGene] [complementGene] = Fin 0
  <-> ~ matchable [sampleGene] [complementGene].
Proof.
  apply jaro_winkler_distance_zero_iff; unfold fits; reflexivity.
Defined.

Lemma jaro_winkler_distance_window_witness :
  jaro_winkler_distance (repeat sampleGene 21)
    (repeat complementGene 20 ++ [sampleGene])
  = jaro_winkler_distance (firstn 20 (repeat sampleGene 21))
      (firstn 20 (repeat complementGene 20 ++ [sampleGene])).
Proof.
  apply jaro_winkler_distance_window; unfold fits; reflexivity.
Defined.

Lemma geneticDiversity_unit_witness :
  exists x rng',
    geneticDiversity packedWord (list Z) streamUint samplePeeps
      (mkParams 4 2) [5; 8; 13; 21; 34] = Ok (x, rng')
    /\ in_unit x.
Proof.
  apply (geneticDiversity_unit packedWord packedWord_range (list Z)
           streamUint streamUint_range samplePeeps (mkParams 4 2)).
  - cbn. lia.
  - right. right. reflexivity.
  - intros i _. unfold samplePeeps.
    destruct (i =? 2); (split; [unfold fits; reflexivity | discriminate]).
Defined.

Lemma geneticDiversity_uniform_witness :
  exists rng',
    geneticDiversity packedWord (list Z) streamUint
      (fun _ => mkIndiv [sampleGene; complementGene]) (mkParams 4 1)
      [5; 8; 13; 21; 34]
    = Ok (Fin 0, rng').
Proof.
  apply (geneticDiversity_uniform packedWord packedWord_range (list Z)
           streamUint streamUint_range
           (fun _ => mkIndiv [sampleGene; complementGene]) (mkParams 4 1)
           [5; 8; 13; 21; 34] [sampleGene; complementGene]).
  - cbn. lia.
  - right. reflexivity.
  - exact fits_sample_pair.
  - discriminate.
  - intros i _. reflexivity.
Defined.

Lemma geneticDiversity_reads_witness :
  geneticDiversity packedWord (list Z) streamUint samplePeeps
    (mkParams 4 1) [5; 8; 13; 21; 34]
  = geneticDiversity packedWord (list Z) streamUint
      (fun i => if i =? 5 then mkIndiv [] else samplePeeps i)
      (mkParams 4 1) [5; 8; 13; 21; 34].
Proof.
  apply (geneticDiversity_reads packedWord (list Z) streamUint
           streamUint_range).
  - cbn. lia.
  - intros i Hi. cbn [population] in Hi.
    destruct (Z.eqb_spec i 5); [lia | reflexivity].
Defined.

Lemma averageGenomeLength_bounds_witness :
  exists q,
    averageGenomeLength (list Z) streamUint samplePeeps 64 (mkParams 4 1)
      [5; 8; 13; 21; 34]
    = (Fin q,
       snd (draws (list Z) streamUint 100 1 (population (mkParams 4 1))
              [5; 8; 13; 21; 34]))
    /\ (inject_Z 2 <= q <= inject_Z 2)%Q.
Proof.
  apply (averageGenomeLength_bounds (list Z) streamUint streamUint_range
           samplePeeps 64).
  - lia.
  - cbn. lia.
  - lia.
  - lia.
  - intros i _. unfold samplePeeps. destruct (i =? 2); cbn; lia.
Defined.

Lemma short_names_injective_witness :
  (sensorShortName sampleSensorValue 21 3
   = sensorShortName sampleSensorValue 21 25 -> 3 = 25)
  /\ (actionShortName sampleActionValue 17 3
      = actionShortName sampleActionValue 17 25 -> 3 = 25).
Proof.
  apply short_names_injective; unfold in_int; lia.
Defined.

Lemma long_names_injective_witness :
  (sensorName sampleSensorValue 21 3 = sensorName sampleSensorValue 21 25
   -> 3 = 25)
  /\ (actionName sampleActionValue 17 3 = actionName sampleActionValue 17 25
      -> 3 = 25).
Proof.
  apply long_names_injective; unfold in_int; lia.
Defined.

Lemma edge_list_determines_connections_witness :
  map (edgeKey 1 1) [sampleGene; complementGene]
  = map (edgeKey 1 1) [sampleGene; complementGene].
Proof.
  apply (edge_list_determines_connections sampleSensorValue 21
           sampleActionValue 17 1 1).
  - apply Forall_cons; [unfold in_int; cbn; lia|].
    apply Forall_cons; [unfold in_int; cbn; lia|]. apply Forall_nil.
  - apply Forall_cons; [unfold in_int; cbn; lia|].
    apply Forall_cons; [unfold in_int; cbn; lia|]. apply Forall_nil.
  - reflexivity.
Defined.

Lemma printGenome_layout_witness :
  String.substring (9 * 1) 8
    (printGenome packedWord [sampleGene; complementGene])
  = hex8 (packedWord (nth 1 [sampleGene; complementGene] noGene))
  /\ String.get (9 * 1 + 8)
       (printGenome packedWord [sampleGene; complementGene])
     = Some (if (2 =? length [sampleGene; complementGene])%nat
                || (Z.of_nat 2 mod 8 =? 0)
             then "010"%char else " "%char).
Proof.
  apply printGenome_layout. cbn. lia.
Defined.

Lemma printGenome_determines_words_witness :
  map packedWord [sampleGene; complementGene]
  = map packedWord [sampleGene; complementGene].
Proof.
  apply printGenome_determines_words;
    [exact packedWord_range | reflexivity].
Defined.

Lemma printSensorsActions_lines_witness :
  let sensors := nameLines (sensorName sampleSensorValue 21) 21 in
  let actions := nameLines (actionName sampleActionValue 17) 17 in
  printSensorsActions sampleSensorValue 21 sampleActionValue 17
  = unlines ("Sensors:"%string :: sensors
             ++ "Actions:"%string :: actions ++ [String.EmptyString])
  /\ Forall (fun line => one_line line = true) (sensors ++ actions)
  /\ NoDup sensors /\ NoDup actions.
Proof.
  apply (printSensorsActions_lines sampleSensorValue 21 sampleActionValue 17);
    lia.
Defined.

(** A run on the sample population, all of whose four individuals live:
    seven connections come from sensor 0 and go to action 0. *)
Example displaySensorActionReferenceCounts_sample :
  displaySensorActionReferenceCounts sampleSensorValue 21 sampleActionValue
    17 1 1 (fun _ => true) (fun index => genome (samplePeeps index)) 5
    (mkParams 4 1)
  = Some (unlines ["Sensors in use:"; "  7 - age"; "Actions in use:";
                   "  7 - move east"]%string).
Proof. reflexivity. Qed.

Lemma displaySensorActionReferenceCounts_text_witness :
  displaySensorActionReferenceCounts sampleSensorValue 21 sampleActionValue
    17 1 1 (fun index => negb (index =? 3))
    (fun index => genome (samplePeeps index)) 5 (mkParams 4 1)
  = Some
      (unlines
         ("Sensors in use:"%string
          :: countLines (sensorName sampleSensorValue 21)
               (fun num =>
                  references (fun index => negb (index =? 3))
                    (fun index => genome (samplePeeps index))
                    (fromSensor 1 num) (population (mkParams 4 1)))
               21
          ++ "Actions in use:"%string
          :: countLines (actionName sampleActionValue 17)
               (fun num =>
                  references (fun index => negb (index =? 3))
                    (fun index => genome (samplePeeps index))
                    (toAction 1 num) (population (mkParams 4 1)))
               17)).
Proof.
  apply (displaySensorActionReferenceCounts_text sampleSensorValue 21
           sampleActionValue 17 1 1);
    [lia | lia | cbn; lia | cbn; lia].
Defined.

Lemma displaySampleGenomes_text_witness :
  exists text,
    displaySensorActionReferenceCounts sampleSensorValue 21 sampleActionValue
      17 1 1 (fun index => negb (index =? 3))
      (fun index => genome (samplePeeps index)) 5 (mkParams 4 1)
    = Some text
    /\ displaySampleGenomes packedWord sampleSensorValue 21
         sampleActionValue 17 1 1 samplePeeps
         (fun index => negb (index =? 3))
         (fun index => genome (samplePeeps index)) 5 2 (mkParams 4 1)
       = Some (String.append
                 (blocks
                    (sampleBlock packedWord sampleSensorValue 21
                       sampleActionValue 17 1 1 samplePeeps
                       (fun index => genome (samplePeeps index)))
                    (sampled (fun index => negb (index =? 3)) 2
                       (population (mkParams 4 1))))
                 text).
Proof.
  apply (displaySampleGenomes_text packedWord sampleSensorValue 21
           sampleActionValue 17 1 1 samplePeeps);
    [lia | cbn; lia | cbn; lia].
Defined.
